(** * The RTMP stream relays and the server accept loop

    A model of the three chunk relays ([data.Stream.Recv],
    [control.Stream.Recv], [stream.NetStream.Listen]) and of the TCP server
    ([server.Server]) of the rtmp package.

    Goroutines are program counters over the blocking points of the Go
    code; a run is a list of labels, each the move of one goroutine or of
    its environment (a producer sending a chunk, a consumer receiving from
    a feed, the accept call returning). Unbuffered channels are
    rendezvous: a send and its receive are one label. *)

From stdpp Require Import base option list numbers strings relations.

Set Default Proof Using "Type".

(** ** The parts of Go the code relies on *)

Module Go.

(** A pointer: [None] is nil. *)
Definition ptr (A : Type) : Type := option A.

(** Evaluation that may end in a run-time panic. *)
Inductive result (A : Type) : Type :=
| Ret (a : A)
| Panic.
Arguments Ret {A} a.
Arguments Panic {A}.

#[global] Instance result_eq_dec {A} `{EqDecision A} : EqDecision (result A).
Proof. solve_decision. Defined.

Definition bind {A B} (r : result A) (k : A -> result B) : result B :=
  match r with
  | Ret a => k a
  | Panic => Panic
  end.

(** What the code can observe of a channel it closes: whether it is
    closed, and (for the record) how many times close() was called. *)
Record chan : Type := { closed : bool; close_calls : nat }.

(** make(chan T) *)
Definition make : chan := {| closed := false; close_calls := 0 |}.

(** close(c): panics on a channel that is already closed. *)
Definition close (c : chan) : result chan :=
  let c' := {| closed := true; close_calls := S (close_calls c) |} in
  if closed c then Panic else Ret c'.

End Go.

Export Go(Ret, Panic).

(** ** The relay goroutine shared by the three stream flavours

    [Recv] and [Listen] are the same loop; they differ in the body of the
    chunk case only, which is the parameter [case_chunk]. *)

Module Relay.

(** How the goroutine left its loop. *)
Inductive exit : Type := returned | panicked.

(** A call of Close(): [s.closer <- struct{}{}]. *)
Inductive caller : Type :=
| sending        (* blocked in the send *)
| handed_over    (* the send met the loop's receive; Close() returned *)
| send_panicked. (* send on a closed channel *)

#[global] Instance caller_eq_dec : EqDecision caller.
Proof. solve_decision. Defined.

(** The two results of a Parse: the message when err is nil, the error
    otherwise. *)
Definition succeeded {Msg Err : Type} (r : Msg * option Err) : option Msg :=
  match r with
  | (m, None) => Some m
  | (_, Some _) => None
  end.

Definition failed {Msg Err : Type} (r : Msg * option Err) : option Err := snd r.

Section machine.
Context {Chunk Msg Err : Type}.

(** The send a chunk case ends with. *)
Inductive publish : Type :=
| to_errs (err : Err)  (* s.errs <- err; continue *)
| to_in (m : Msg).     (* s.in <- data *)

Variable case_chunk : Go.ptr Chunk -> Go.result publish.

(** Where the goroutine is. *)
Inductive pc : Type :=
| at_select                       (* select { case <-chunks: ; case <-closer: } *)
| send_errs (err : Err)           (* blocked in s.errs <- err *)
| send_in (m : Msg)               (* blocked in s.in <- data *)
| deferred (why : exit) (k : nat) (* in the deferred func, k closes done *)
| finished (why : exit).

Record t : Type := {
  recv : pc;
  chunks_closed : bool;        (* the inbound channel, closed by its producer *)
  ch_in : Go.chan;
  ch_errs : Go.chan;
  ch_closer : Go.chan;
  callers : list caller;       (* the Close() calls made so far *)
  got : list (Go.ptr Chunk);   (* chunks received by the loop, oldest first *)
  feed_in : list Msg;          (* values handed over on s.in *)
  feed_errs : list Err         (* values handed over on s.errs *)
}.

(** NewStream / New: the three channels are made, nothing runs yet. *)
Definition NewStream : t := {|
  recv := at_select; chunks_closed := false;
  ch_in := Go.make; ch_errs := Go.make; ch_closer := Go.make;
  callers := []; got := []; feed_in := []; feed_errs := []
|}.

Definition with_recv (p : pc) (s : t) : t :=
  {| recv := p; chunks_closed := chunks_closed s; ch_in := ch_in s;
     ch_errs := ch_errs s; ch_closer := ch_closer s; callers := callers s;
     got := got s; feed_in := feed_in s; feed_errs := feed_errs s |}.

Definition with_callers (cs : list caller) (s : t) : t :=
  {| recv := recv s; chunks_closed := chunks_closed s; ch_in := ch_in s;
     ch_errs := ch_errs s; ch_closer := ch_closer s; callers := cs;
     got := got s; feed_in := feed_in s; feed_errs := feed_errs s |}.

Definition with_chans (i e c : Go.chan) (s : t) : t :=
  {| recv := recv s; chunks_closed := chunks_closed s; ch_in := i;
     ch_errs := e; ch_closer := c; callers := callers s;
     got := got s; feed_in := feed_in s; feed_errs := feed_errs s |}.

(** The chunk case of the select, on the received pointer. A panic
    unwinds into the deferred func. *)
Definition receive (c : Go.ptr Chunk) (s : t) : t :=
  let p := match case_chunk c with
           | Ret (to_errs err) => send_errs err
           | Ret (to_in m) => send_in m
           | Panic => deferred panicked 0
           end in
  {| recv := p; chunks_closed := chunks_closed s; ch_in := ch_in s;
     ch_errs := ch_errs s; ch_closer := ch_closer s; callers := callers s;
     got := got s ++ [c]; feed_in := feed_in s; feed_errs := feed_errs s |}.

(** Closing a channel makes every goroutine blocked sending on it panic. *)
Definition wake_senders (cs : list caller) : list caller :=
  (fun c => match c with sending => send_panicked | _ => c end) <$> cs.

(** The deferred func: close(s.in); close(s.errs); close(s.closer).
    [k] closes are done; a close that panics ends the func. *)
Definition run_deferred_close (why : exit) (k : nat) (s : t) : t :=
  match k with
  | 0 => match Go.close (ch_in s) with
         | Ret c => with_recv (deferred why 1) (with_chans c (ch_errs s) (ch_closer s) s)
         | Panic => with_recv (finished panicked) s
         end
  | 1 => match Go.close (ch_errs s) with
         | Ret c => with_recv (deferred why 2) (with_chans (ch_in s) c (ch_closer s) s)
         | Panic => with_recv (finished panicked) s
         end
  | _ => match Go.close (ch_closer s) with
         | Ret c => with_recv (finished why)
                      (with_callers (wake_senders (callers s))
                         (with_chans (ch_in s) (ch_errs s) c s))
         | Panic => with_recv (finished panicked) s
         end
  end.

Inductive label : Type :=
| chunk_arrives (c : Go.ptr Chunk) (* a producer's send meets case <-chunks *)
| source_closes                    (* the producer closes the chunk channel *)
| zero_chunk                       (* case <-chunks on the closed channel: nil *)
| in_taken                         (* a consumer receives from In() *)
| errs_taken                       (* a consumer receives from Errs() *)
| Close_called                     (* some goroutine calls Close() *)
| signal (i : nat)                 (* call i's send meets case <-closer *)
| closer_zero                      (* case <-closer on the closed channel *)
| run_deferred.                    (* the next close of the deferred func *)

Definition step (s : t) (l : label) : option t :=
  match l, recv s with
  | chunk_arrives c, at_select =>
      if chunks_closed s then None else Some (receive c s)
  | zero_chunk, at_select =>
      if chunks_closed s then Some (receive None s) else None
  | source_closes, _ =>
      if chunks_closed s then None
      else Some {| recv := recv s; chunks_closed := true; ch_in := ch_in s;
                   ch_errs := ch_errs s; ch_closer := ch_closer s;
                   callers := callers s; got := got s;
                   feed_in := feed_in s; feed_errs := feed_errs s |}
  | in_taken, send_in m =>
      Some {| recv := at_select; chunks_closed := chunks_closed s;
              ch_in := ch_in s; ch_errs := ch_errs s; ch_closer := ch_closer s;
              callers := callers s; got := got s;
              feed_in := feed_in s ++ [m]; feed_errs := feed_errs s |}
  | errs_taken, send_errs err =>
      Some {| recv := at_select; chunks_closed := chunks_closed s;
              ch_in := ch_in s; ch_errs := ch_errs s; ch_closer := ch_closer s;
              callers := callers s; got := got s;
              feed_in := feed_in s; feed_errs := feed_errs s ++ [err] |}
  | Close_called, _ =>
      let c := if Go.closed (ch_closer s) then send_panicked else sending in
      Some (with_callers (callers s ++ [c]) s)
  | signal i, at_select =>
      match callers s !! i with
      | Some sending =>
          Some (with_recv (deferred returned 0)
                  (with_callers (<[i := handed_over]> (callers s)) s))
      | _ => None
      end
  | closer_zero, at_select =>
      if Go.closed (ch_closer s) then Some (with_recv (deferred returned 0) s)
      else None
  | run_deferred, deferred why k => Some (run_deferred_close why k s)
  | _, _ => None
  end.

Fixpoint run (s : t) (tr : list label) : option t :=
  match tr with
  | [] => Some s
  | l :: tr => match step s l with
               | Some s' => run s' tr
               | None => None
               end
  end.

(** What the chunks received so far should have put on each feed. *)
Definition message_of (c : Go.ptr Chunk) : option Msg :=
  match case_chunk c with Ret (to_in m) => Some m | _ => None end.

Definition error_of (c : Go.ptr Chunk) : option Err :=
  match case_chunk c with Ret (to_errs e) => Some e | _ => None end.

(** The value the goroutine is blocked sending, if any. *)
Definition pending_in (p : pc) : list Msg :=
  match p with send_in m => [m] | _ => [] end.

Definition pending_errs (p : pc) : list Err :=
  match p with send_errs e => [e] | _ => [] end.

(** The consumer-friendly schedule: every chunk is delivered and what it
    produces is taken at once. *)
Definition serve_one (c : Go.ptr Chunk) : list label :=
  match case_chunk c with
  | Ret (to_errs _) => [chunk_arrives c; errs_taken]
  | Ret (to_in _) => [chunk_arrives c; in_taken]
  | Panic => [chunk_arrives c]
  end.

Definition serve (cs : list (Go.ptr Chunk)) : list label :=
  cs ≫= serve_one.

Definition in_loop (p : pc) : bool :=
  match p with at_select | send_errs _ | send_in _ => true | _ => false end.

Definition is_signal (l : label) : bool :=
  match l with signal _ => true | _ => false end.

(** A channel on which close() succeeded once and was called once. *)
Definition closed_once (c : Go.chan) : Prop :=
  Go.closed c = true /\ Go.close_calls c = 1.

Definition untouched (c : Go.chan) : Prop := c = Go.make.

(** The channels the goroutine owns, by where it is. *)
Definition chans_at (p : pc) (i e c : Go.chan) : Prop :=
  match p with
  | deferred _ 0 => untouched i /\ untouched e /\ untouched c
  | deferred _ 1 => closed_once i /\ untouched e /\ untouched c
  | deferred _ 2 => closed_once i /\ closed_once e /\ untouched c
  | deferred _ _ => False
  | finished _ => closed_once i /\ closed_once e /\ closed_once c
  | _ => untouched i /\ untouched e /\ untouched c
  end.

(** The feeds hold what the chunks received so far produced, but for
    the value the goroutine is still trying to send. *)
Definition feeds_follow (s : t) : Prop :=
  feed_in s ++ pending_in (recv s) = omap message_of (got s)
  /\ feed_errs s ++ pending_errs (recv s) = omap error_of (got s).

Definition reach (s : t) : Prop := exists tr, run NewStream tr = Some s.

(** What the relay owes its consumers on the chunks [P] admits. *)
Definition relays (P : Go.ptr Chunk -> Prop) : Prop :=
  (forall tr s,
      run NewStream tr = Some s -> Forall P (got s) ->
      feed_in s ++ pending_in (recv s) = omap message_of (got s)
      /\ feed_errs s ++ pending_errs (recv s) = omap error_of (got s)
      /\ (pending_in (recv s) = [] -> pending_errs (recv s) = [] ->
          length (feed_in s) + length (feed_errs s) = length (got s))
      /\ (forall err, recv s = send_errs err ->
           exists s', step s errs_taken = Some s' /\ recv s' = at_select))
  /\ (forall cs,
        Forall P cs ->
        exists s, run NewStream (serve cs) = Some s /\ got s = cs
                  /\ recv s = at_select
                  /\ feed_in s = omap message_of cs
                  /\ feed_errs s = omap error_of cs
                  /\ length (feed_in s) + length (feed_errs s) = length cs).

Definition chans_ok (s : t) : Prop :=
  chans_at (recv s) (ch_in s) (ch_errs s) (ch_closer s).

(** How the goroutine left is settled when it leaves. *)
Definition leaving (why : exit) (s : t) : Prop :=
  chans_ok s /\ ((exists k, recv s = deferred why k) \/ recv s = finished why).

(** At most one call ever returns, and none while the loop runs. *)
Definition one_signal (s : t) : Prop :=
  (in_loop (recv s) = true -> forall i, callers s !! i <> Some handed_over)
  /\ (forall i j, callers s !! i = Some handed_over ->
                  callers s !! j = Some handed_over -> i = j).

(** When the goroutine ends, by a return or a panic, each channel it owns
    has been closed once; no move but its own deferred closes touches
    them; and once out of the loop the deferred func runs to its end. *)
Definition closes_what_it_owns : Prop :=
  (forall tr s why,
      run NewStream tr = Some s -> recv s = finished why ->
      closed_once (ch_in s) /\ closed_once (ch_errs s) /\ closed_once (ch_closer s))
  /\ (forall s l s',
        step s l = Some s' -> l <> run_deferred ->
        ch_in s' = ch_in s /\ ch_errs s' = ch_errs s /\ ch_closer s' = ch_closer s)
  /\ (forall tr s why,
        run NewStream tr = Some s -> recv s = deferred why 0 ->
        exists s', run s [run_deferred; run_deferred; run_deferred] = Some s'
                   /\ recv s' = finished why).

(** Close() is one send on the unbuffered closer channel. *)
Definition rendezvous : Prop :=
  (* a call returns only in the move in which the loop receives its signal *)
  (forall s l s' i,
      step s l = Some s' ->
      callers s' !! i = Some handed_over -> callers s !! i <> Some handed_over ->
      l = signal i /\ recv s = at_select /\ callers s !! i = Some sending
      /\ recv s' = deferred returned 0)
  (* the loop receives one signal at most *)
  /\ (forall tr s i j,
        run NewStream tr = Some s ->
        callers s !! i = Some handed_over -> callers s !! j = Some handed_over ->
        i = j)
  (* a call made while the loop waits in its select can return *)
  /\ (forall tr s,
        run NewStream tr = Some s -> recv s = at_select ->
        exists s', run s [Close_called; signal (length (callers s))] = Some s'
                   /\ callers s' !! length (callers s) = Some handed_over)
  (* a call made after the loop was left never returns *)
  /\ (forall tr s tr' s',
        run NewStream tr = Some s -> in_loop (recv s) = false ->
        run s (Close_called :: tr') = Some s' ->
        callers s' !! length (callers s) <> Some handed_over)
  (* and one made after the goroutine ended panics in its send *)
  /\ (forall tr s why tr' s',
        run NewStream tr = Some s -> recv s = finished why ->
        run s (Close_called :: tr') = Some s' ->
        callers s' !! length (callers s) = Some send_panicked).

(** The loop is left by a return only after the close signal. *)
Definition returns_on_signal : Prop :=
  forall tr s,
    run NewStream tr = Some s ->
    (exists k, recv s = deferred returned k) \/ recv s = finished returned ->
    exists i, signal i ∈ tr.

(** A closed chunk channel does not end the loop: the receive yields nil,
    the chunk case runs on it as on any chunk, and without a signal the
    goroutine stays in its loop. *)
Definition outlives_its_source : Prop :=
  (forall s,
      recv s = at_select -> chunks_closed s = true ->
      step s zero_chunk = Some (receive None s)
      /\ in_loop (recv (receive None s)) = true)
  /\ (forall tr s,
        run NewStream tr = Some s ->
        Forall (fun l => is_signal l = false) tr ->
        in_loop (recv s) = true).

End machine.

Arguments pc : clear implicits.
Arguments publish : clear implicits.
Arguments t : clear implicits.
Arguments label : clear implicits.

End Relay.

(** ** The three flavours: the body of the chunk case *)

(** package data: [Stream.Recv] *)
Module data.
Section Stream.
Context {Chunk Data error : Type}.

(** The Parser interface: Parse takes the chunk pointer and returns
    the pair (Data, error). *)
Record Parser : Type := { Parse : Go.ptr Chunk -> Data * option error }.

Variable parser : Parser.

(** case chunk := <-s.chunks: *)
Definition Recv_case_chunk (chunk : Go.ptr Chunk)
  : Go.result (Relay.publish Data error) :=
  let '(data, err) := Parse parser chunk in
  match err with
  | Some err => Ret (Relay.to_errs err)
  | None => Ret (Relay.to_in data)
  end.
End Stream.
End data.

(** package control: [Stream.Recv] *)
Module control.
Section Stream.
Context {Chunk Control error : Type}.

Record Parser : Type := { Parse : Go.ptr Chunk -> Control * option error }.

Variable parser : Parser.

(** case c := <-s.chunks.In(): *)
Definition Recv_case_chunk (c : Go.ptr Chunk)
  : Go.result (Relay.publish Control error) :=
  let '(control, err) := Parse parser c in
  match err with
  | Some err => Ret (Relay.to_errs err)
  | None => Ret (Relay.to_in control)
  end.
End Stream.
End control.

(** package stream: [NetStream.Listen] *)
Module stream.
Section NetStream.
Context {Chunk Reader Command error : Type}.

(** The field chunk.Data and bytes.NewReader. *)
Variable Data : Chunk -> list Byte.byte.
Variable bytes_NewReader : list Byte.byte -> Reader.

Record Parser : Type := { Parse : Reader -> Command * option error }.

Variable parser : Parser.

(** case chunk := <-n.chunks: the selector chunk.Data dereferences
    the pointer. *)
Definition Listen_case_chunk (chunk : Go.ptr Chunk)
  : Go.result (Relay.publish Command error) :=
  match chunk with
  | None => Panic
  | Some c =>
      let '(cmd, err) := Parse parser (bytes_NewReader (Data c)) in
      match err with
      | Some err => Ret (Relay.to_errs err)
      | None => Ret (Relay.to_in cmd)
      end
  end.
End NetStream.
End stream.

(** ** package server *)

Module server.

(** *** error.go and the error values the accept loop meets *)

(** An error of the net package: it also answers Timeout() and
    Temporary(). *)
Record net_Error : Type := { net_msg : string; Timeout : bool; Temporary : bool }.

#[global] Instance net_Error_eq_dec : EqDecision net_Error.
Proof. solve_decision. Defined.

Inductive error : Type :=
| plain (msg : string)       (* an error that does not implement net.Error *)
| network (n : net_Error).

#[global] Instance error_eq_dec : EqDecision error.
Proof. solve_decision. Defined.

Definition Error (err : error) : string :=
  match err with
  | plain msg => msg
  | network n => net_msg n
  end.

(** nerr, ok := err.(net.Error): a failed assertion leaves nerr nil. *)
Definition as_net_Error (err : error) : Go.ptr net_Error * bool :=
  match err with
  | network n => (Some n, true)
  | plain _ => (None, false)
  end.

(** A method call on the interface value [nerr]: nil panics. *)
Definition call {A} (method : net_Error -> A) (nerr : Go.ptr net_Error)
  : Go.result A :=
  match nerr with
  | Some n => Ret (method n)
  | None => Panic
  end.

(** What travels on the errs channel: the error itself, or the error
    wrapped as fatalError{err}. *)
Inductive sent : Type :=
| as_is (err : error)
| fatalError (err : error).

#[global] Instance sent_eq_dec : EqDecision sent.
Proof. solve_decision. Defined.

(** fatalError.IsFatal; an error sent as it is has no such method, which
    [false] stands for. *)
Definition IsFatal (f : sent) : bool :=
  match f with
  | fatalError _ => true
  | as_is _ => false
  end.

(** strings.Contains *)
Fixpoint strings_Contains (s substr : string) : bool :=
  if String.prefix substr s then true
  else match s with
       | EmptyString => false
       | String _ rest => strings_Contains rest substr
       end.

Definition isNetCloseError (err : Go.ptr net_Error) : Go.result bool :=
  call (fun n => strings_Contains (net_msg n) "use of closed network connection") err.

(** *** The listener, as far as the server uses it

    net.TCPListener is not part of the package: Close fails on a
    listener that is already closed, SetDeadline arms the deadline of an
    open one. *)
Record TCPListener : Type := {
  fd : nat;                       (* which listener this is *)
  sock_closed : bool;
  sock_deadline : option Z
}.

#[global] Instance TCPListener_eq_dec : EqDecision TCPListener.
Proof. solve_decision. Defined.

(** The error of Close on a listener already closed. The text of the
    real error also names the address of the listener, which the record
    above does not hold; its flags and the words the server looks for
    are those of the real one. *)
Definition errClosing : error :=
  network {| net_msg := "close tcp: use of closed network connection";
             Timeout := false; Temporary := false |}.

Definition closed_listener (l : TCPListener) : TCPListener :=
  {| fd := fd l; sock_closed := true; sock_deadline := sock_deadline l |}.

Definition TCPListener_Close (l : TCPListener) : TCPListener * option error :=
  if sock_closed l then (l, Some errClosing)
  else (closed_listener l, None).

Definition TCPListener_SetDeadline (t : Z) (l : TCPListener) : TCPListener :=
  if sock_closed l then l
  else {| fd := fd l; sock_closed := false; sock_deadline := Some t |}.

(** What a call of Accept on the listener came back with. *)
Record Conn : Type := { conn_id : nat }.
Record Client : Type := { client_conn : Conn }.
Definition client_New (conn : Conn) : Client := {| client_conn := conn |}.

#[global] Instance Conn_eq_dec : EqDecision Conn.
Proof. solve_decision. Defined.

#[global] Instance Client_eq_dec : EqDecision Client.
Proof. solve_decision. Defined.

(** *** server.go *)

Inductive state : Type := idle | accepting | closing | releasing | closed.

#[global] Instance state_eq_dec : EqDecision state.
Proof. solve_decision. Defined.

Definition time_Second : Z := 1000000000.

Record Server : Type := {
  socket : TCPListener;
  deadline : Z;
  clients : Go.chan;
  errs : Go.chan;
  release : Go.chan;
  locked : bool;                  (* scond.L *)
  srv_state : state
}.

Definition NewSocket (socket : TCPListener) : Server := {|
  socket := socket;
  deadline := time_Second;
  clients := Go.make;
  errs := Go.make;
  release := Go.make;
  locked := false;
  srv_state := idle
|}.

Definition with_socket (l : TCPListener) (s : Server) : Server :=
  {| socket := l; deadline := deadline s; clients := clients s; errs := errs s;
     release := release s; locked := locked s; srv_state := srv_state s |}.

Definition with_state (v : state) (s : Server) : Server :=
  {| socket := socket s; deadline := deadline s; clients := clients s;
     errs := errs s; release := release s; locked := locked s; srv_state := v |}.

Definition with_locked (b : bool) (s : Server) : Server :=
  {| socket := socket s; deadline := deadline s; clients := clients s;
     errs := errs s; release := release s; locked := b; srv_state := srv_state s |}.

(** One turn of the loop of waitForState: return, or s.scond.Wait(). *)
Inductive turn : Type := returns | waits.

Definition waitForState (expected : state) (s : Server) : turn :=
  if decide (expected = srv_state s) then returns else waits.

(** How a method that took the lock gives it up: by returning (the
    deferred Unlock), or inside s.scond.Wait(). *)
Inductive after (R : Type) : Type :=
| done (r : R)
| parked.
Arguments done {R} r.
Arguments parked {R}.

(** Close, from Lock() to its return or its first Wait(). *)
Definition Close (s : Server) : Server * after (option error) :=
  let '(l, err) := TCPListener_Close (socket s) in
  let s := with_socket l s in
  match err with
  | Some err => (s, done (Some err))
  | None =>
      if decide (srv_state s ≠ accepting) then (with_state closed s, done None)
      else
        let s := with_state closing s in
        match waitForState closed s with
        | returns => (s, done None)
        | waits => (s, parked)
        end
  end.

(** Close, woken inside waitForState(closed). *)
Definition Close_resume (s : Server) : after (option error) :=
  match waitForState closed s with
  | returns => done None
  | waits => parked
  end.

(** Release, from Lock() to its return or its first Wait(). *)
Definition Release (now : Z) (s : Server) : Server * after TCPListener :=
  if decide (srv_state s ≠ accepting) then
    let s := with_state closed s in (s, done (socket s))
  else
    let s := with_state releasing s in
    let s := with_socket (TCPListener_SetDeadline now (socket s)) s in
    match waitForState closed s with
    | returns => (s, done (socket s))
    | waits => (s, parked)
    end.

Definition Release_resume (s : Server) : after TCPListener :=
  match waitForState closed s with
  | returns => done (socket s)
  | waits => parked
  end.

(** handleError sends on s.errs and may panic: a writer of the values
    sent, over [Go.result]. *)
Definition handling (A : Type) : Type := list sent * Go.result A.

Definition pure {A} (a : A) : handling A := ([], Ret a).

Definition send_errs (v : sent) : handling unit := ([v], Ret tt).

Definition eval {A} (r : Go.result A) : handling A := ([], r).

Definition and_then {A B} (m : handling A) (k : A -> handling B) : handling B :=
  match m with
  | (w, Ret a) => let '(w', r) := k a in (w ++ w', r)
  | (w, Panic) => (w, Panic)
  end.

Notation "'do' x <- m ; k" := (and_then m (fun x => k))
  (at level 10, x name, m at level 100, k at level 200).
Notation "'exec' m ; k" := (and_then m (fun _ => k))
  (at level 10, m at level 100, k at level 200).

(** a && b, where b is evaluated only when a holds *)
Definition land (a : bool) (b : Go.result bool) : handling bool :=
  if a then eval b else pure false.

(** handleError between Lock() and the deferred Unlock(); the result is
    [kill]. *)
Definition handleError (s : Server) (err : error) : handling bool :=
  let '(nerr, ok) := as_net_Error err in
  exec (if negb ok then send_errs (as_is err) else pure tt);
  do release_signal <-
    land (bool_decide (srv_state s = releasing)) (call Timeout nerr);
  if release_signal then pure true else
  do close_signal <-
    land (bool_decide (srv_state s = closing)) (isNetCloseError nerr);
  if close_signal then pure true else
  do temporary <- eval (call Temporary nerr);
  if temporary then (exec send_errs (as_is err); pure false)
  else (exec send_errs (fatalError err); pure true).

(** setState *)
Definition setState (v : state) (s : Server) : Server := with_state v s.

(** setStateIf: the new server and [changed]; it broadcasts when changed. *)
Definition setStateIf (to : state) (predicate : state -> bool) (s : Server)
  : Server * bool :=
  if predicate (srv_state s) then (with_state to s, true) else (s, false).

(** *** The goroutines around one Server

    Every method body between Lock() and the point where the lock is
    given up runs as one move, but for handleError, which keeps the lock
    while it is blocked sending on s.errs. *)

Inductive exit : Type := returned | panicked.

Inductive pc : Type :=
(* Accept *)
| Accept_entry                      (* about to call setStateIf *)
| Accept_loop                       (* in s.socket.Accept() *)
| Accept_send (c : Client)          (* blocked in s.clients <- client.New(conn) *)
| Accept_handle (err : error)       (* in handleError, at Lock() *)
| Accept_sending (w : list sent) (kill : Go.result bool)
                                    (* in handleError with the lock, the
                                       sends [w] still to make *)
| Accept_exit (why : exit)          (* at the deferred setState(closed) *)
| Accept_done (why : exit)
(* Close *)
| Close_entry                       (* at Lock() *)
| Close_wait                        (* in s.scond.Wait(), not yet woken *)
| Close_woken                       (* woken, taking the lock again *)
| Close_done (r : option error)
(* Release *)
| Release_entry
| Release_wait
| Release_woken
| Release_done (l : TCPListener).

#[global] Instance exit_eq_dec : EqDecision exit.
Proof. solve_decision. Defined.

#[global] Instance pc_eq_dec : EqDecision pc.
Proof. solve_decision. Defined.

Inductive method : Type := Accept_method | Close_method | Release_method.

Definition entry (m : method) : pc :=
  match m with
  | Accept_method => Accept_entry
  | Close_method => Close_entry
  | Release_method => Release_entry
  end.

Record sys : Type := {
  srv : Server;
  pool : list pc;                (* one entry per call made *)
  clock : Z;                     (* time.Now() *)
  feed_clients : list Client;    (* values handed over on s.clients *)
  feed_errs : list sent          (* values handed over on s.errs *)
}.

Definition boot (l : TCPListener) : sys :=
  {| srv := NewSocket l; pool := []; clock := 0;
     feed_clients := []; feed_errs := [] |}.

(** s.scond.Broadcast() *)
Definition Broadcast (pool : list pc) : list pc :=
  (fun p => match p with
            | Close_wait => Close_woken
            | Release_wait => Release_woken
            | _ => p
            end) <$> pool.

(** What the loop of Accept does with the result [kill] of handleError. *)
Definition Accept_after (kill : Go.result bool) : pc :=
  match kill with
  | Ret true => Accept_exit returned   (* return *)
  | Ret false => Accept_loop
  | Panic => Accept_exit panicked
  end.

(** The next move of a goroutine that waits for nothing but the lock:
    the server after it, where the goroutine is then, and whether it
    broadcast. *)
Definition advance (now : Z) (s : Server) (p : pc) : option (Server * pc * bool) :=
  match p with
  | Accept_entry =>
      if locked s then None else
      let '(s, ok) := setStateIf accepting (fun v => bool_decide (v = idle)) s in
      Some (s, if ok then Accept_loop else Accept_done returned, ok)
  | Accept_handle err =>
      if locked s then None else
      let '(w, kill) := handleError s err in
      Some (with_locked true s, Accept_sending w kill, false)
  | Accept_sending [] kill =>
      Some (with_locked false s, Accept_after kill, false)
  | Accept_exit why =>
      if locked s then None else
      Some (setState closed s, Accept_done why, true)
  | Close_entry =>
      if locked s then None else
      let '(s, a) := Close s in
      Some (s, match a with done r => Close_done r | parked => Close_wait end, false)
  | Close_woken =>
      if locked s then None else
      Some (s, match Close_resume s with
               | done r => Close_done r
               | parked => Close_wait
               end, false)
  | Release_entry =>
      if locked s then None else
      let '(s, a) := Release now s in
      Some (s, match a with done l => Release_done l | parked => Release_wait end, false)
  | Release_woken =>
      if locked s then None else
      Some (s, match Release_resume s with
               | done l => Release_done l
               | parked => Release_wait
               end, false)
  | _ => None
  end.

Inductive label : Type :=
| calls (m : method)                    (* a new goroutine calls m *)
| go (i : nat)                          (* goroutine i moves on its own *)
| accept_returns (i : nat) (r : Conn + error)
                                        (* s.socket.Accept() comes back *)
| taken (i : nat)                       (* a consumer receives what i sends *)
| tick (d : Z).                         (* time passes *)

Definition with_pool (ps : list pc) (x : sys) : sys :=
  {| srv := srv x; pool := ps; clock := clock x;
     feed_clients := feed_clients x; feed_errs := feed_errs x |}.

Definition step (x : sys) (l : label) : option sys :=
  match l with
  | calls m => Some (with_pool (pool x ++ [entry m]) x)
  | go i =>
      p ← pool x !! i;
      '(s, p', woke) ← advance (clock x) (srv x) p;
      Some {| srv := s;
              pool := <[i := p']> (if woke : bool then Broadcast (pool x) else pool x);
              clock := clock x;
              feed_clients := feed_clients x; feed_errs := feed_errs x |}
  | accept_returns i r =>
      match pool x !! i with
      | Some Accept_loop =>
          let p := match r with
                   | inl conn => Accept_send (client_New conn)
                   | inr err => Accept_handle err
                   end in
          Some (with_pool (<[i := p]> (pool x)) x)
      | _ => None
      end
  | taken i =>
      match pool x !! i with
      | Some (Accept_send c) =>
          Some {| srv := srv x; pool := <[i := Accept_loop]> (pool x);
                  clock := clock x;
                  feed_clients := feed_clients x ++ [c]; feed_errs := feed_errs x |}
      | Some (Accept_sending (v :: w) kill) =>
          Some {| srv := srv x; pool := <[i := Accept_sending w kill]> (pool x);
                  clock := clock x;
                  feed_clients := feed_clients x; feed_errs := feed_errs x ++ [v] |}
      | _ => None
      end
  | tick d =>
      if decide (0 ≤ d)%Z then
        Some {| srv := srv x; pool := pool x; clock := (clock x + d)%Z;
                feed_clients := feed_clients x; feed_errs := feed_errs x |}
      else None
  end.

Fixpoint run (x : sys) (tr : list label) : option sys :=
  match tr with
  | [] => Some x
  | l :: tr => match step x l with
               | Some x' => run x' tr
               | None => None
               end
  end.

(** The edges of the diagram above the type [state]. *)
Inductive edge : state -> state -> Prop :=
| edge_Accept : edge idle accepting
| edge_Close : edge accepting closing
| edge_Release : edge accepting releasing
| edge_closing : edge closing closed
| edge_releasing : edge releasing closed.

Definition is_Close_entry (x : sys) (l : label) : bool :=
  match l with
  | go i => match pool x !! i with Some Close_entry => true | _ => false end
  | _ => false
  end.

(** A Close waiting for the state to change has closed the listener. *)
Definition waiting_closers (x : sys) : Prop :=
  forall j, pool x !! j = Some Close_wait \/ pool x !! j = Some Close_woken ->
            sock_closed (socket (srv x)) = true.


End server.

(** ** Sample values *)

Module sample.
Import server.

(** The parser of the example: it fails on the payload "bad", and on a
    nil chunk. *)
Definition Parse (c : Go.ptr string) : string * option string :=
  match c with
  | None => ("", Some "nil chunk")
  | Some payload =>
      if decide (payload = "bad") then ("", Some "cannot parse bad")
      else (payload, None)
  end.

Definition data_parser : @data.Parser string string string :=
  {| data.Parse := Parse |}.

Definition control_parser : @control.Parser string string string :=
  {| control.Parse := Parse |}.

(** A command parser over the bytes of a chunk: the command is their
    number, and no bytes is an error. *)
Definition command_parser : @stream.Parser (list Byte.byte) nat string :=
  {| stream.Parse := fun r => match r with
                              | [] => (0, Some "empty chunk")
                              | _ => (length r, None)
                              end |}.

Definition Recv := data.Recv_case_chunk data_parser.

(** One chunk is served, Close() is called and the goroutine ends. *)
Definition closing_run : list (Relay.label string) :=
  [Relay.chunk_arrives (Some "ok1"); Relay.in_taken; Relay.Close_called;
   Relay.signal 0; Relay.run_deferred; Relay.run_deferred; Relay.run_deferred].

Definition ended : Relay.t string string string :=
  Eval vm_compute in
    default Relay.NewStream (Relay.run Recv Relay.NewStream closing_run).

(** The chunks "ok1", "bad", "ok2", each served at once. *)
Definition serving_run : list (Relay.label string) :=
  [Relay.chunk_arrives (Some "ok1"); Relay.in_taken;
   Relay.chunk_arrives (Some "bad"); Relay.errs_taken;
   Relay.chunk_arrives (Some "ok2"); Relay.in_taken].

Definition served : Relay.t string string string :=
  Eval vm_compute in
    default Relay.NewStream (Relay.run Recv Relay.NewStream serving_run).

(** The field Data of a chunk whose payload is a string. *)
Definition chunk_Data (c : string) : list Byte.byte := String.list_byte_of_string c.

Definition listener : TCPListener :=
  {| fd := 3; sock_closed := false; sock_deadline := None |}.

Definition timeout : error :=
  network {| net_msg := "accept tcp 127.0.0.1:1935: i/o timeout";
             Timeout := true; Temporary := true |}.

Definition too_many_files : error :=
  network {| net_msg := "accept tcp 127.0.0.1:1935: accept4: too many open files";
             Timeout := false; Temporary := true |}.

Definition use_of_closed : error :=
  network {| net_msg := "accept tcp 127.0.0.1:1935: use of closed network connection";
             Timeout := false; Temporary := false |}.

Definition broken : error :=
  network {| net_msg := "accept tcp 127.0.0.1:1935: accept4: invalid argument";
             Timeout := false; Temporary := false |}.

(** A server whose Accept got a timeout after Release was called. *)
Definition releasing_server : sys :=
  {| srv := with_state releasing (NewSocket listener);
     pool := [Accept_handle timeout; Release_wait];
     clock := 0; feed_clients := []; feed_errs := [] |}.

(** Accept runs, Release is called at instant 5, the accept call times
    out, Accept returns and Release is woken. *)
Definition release_run : list label :=
  [calls Accept_method; go 0; tick 5; calls Release_method; go 1;
   accept_returns 0 (inr timeout); go 0; go 0; go 0; go 1].

Definition released : sys :=
  Eval vm_compute in default (boot listener) (run (boot listener) release_run).

Definition handed_back : TCPListener :=
  {| fd := 3; sock_closed := false; sock_deadline := Some 5%Z |}.

(** A server whose listener was closed by a Close that returned. *)
Definition closed_server : Server :=
  with_state closed (with_socket (closed_listener listener) (NewSocket listener)).

End sample.

(** ** What a consumer sees of the server *)

Module feeds.
Import server.

(** Between its entry and its end: the goroutine of Accept that has set
    the state to accepting and has not yet run the deferred setState. *)
Definition inside_Accept (p : pc) : bool :=
  match p with
  | Accept_loop | Accept_send _ | Accept_handle _ | Accept_sending _ _
  | Accept_exit _ => true
  | _ => false
  end.

(** Parked in s.scond.Wait(), or woken out of it. *)
Definition waiting (p : pc) : bool :=
  match p with
  | Close_wait | Close_woken | Release_wait | Release_woken => true
  | _ => false
  end.

Definition woken (p : pc) : bool :=
  match p with
  | Close_woken | Release_woken => true
  | _ => false
  end.

(** Stopped at a Lock(): the goroutine moves only once the mutex is free. *)
Definition at_Lock (p : pc) : bool :=
  match p with
  | Accept_entry | Accept_handle _ | Accept_exit _ | Close_entry | Close_woken
  | Release_entry | Release_woken => true
  | _ => false
  end.

(** The client a goroutine is blocked sending on s.clients. *)
Definition clients_in_hand (p : pc) : list Client :=
  match p with
  | Accept_send c => [c]
  | _ => []
  end.

(** The connections the accept call returned along a run, oldest first. *)
Definition accepted_conn (l : label) : option Conn :=
  match l with
  | accept_returns _ (inl conn) => Some conn
  | _ => None
  end.

(** The errors the accept call returned along a run, oldest first. *)
Definition accept_error (l : label) : option error :=
  match l with
  | accept_returns _ (inr err) => Some err
  | _ => None
  end.

(** The error inside a value of the error feed. *)
Definition unwrap (v : sent) : error :=
  match v with
  | as_is err => err
  | fatalError err => err
  end.

(** The errors a goroutine still has to deal with: the one it is about to
    classify, or those handleError has left to send. *)
Definition errors_in_hand (p : pc) : list error :=
  match p with
  | Accept_handle err => [err]
  | Accept_sending w _ => unwrap <$> w
  | _ => []
  end.

Definition fatal_seen (x : sys) : Prop :=
  exists err, fatalError err ∈ feed_errs x.

(** At most one goroutine is inside Accept, and none while the state is
    idle. *)
Definition one_loop (x : sys) : Prop :=
  (srv_state (srv x) = idle ->
   forall i p, pool x !! i = Some p -> inside_Accept p = false)
  /\ (forall i j p q,
        pool x !! i = Some p -> pool x !! j = Some q ->
        inside_Accept p = true -> inside_Accept q = true -> i = j).

(** Nobody is inside Accept and nobody will be. *)
Definition loop_over (x : sys) : Prop :=
  srv_state (srv x) <> idle
  /\ forall i p, pool x !! i = Some p -> inside_Accept p = false.

(** About to take part in the loop again: accepting, or with something
    left to send before going on. *)
Definition delivering (p : pc) : bool :=
  match p with
  | Accept_loop | Accept_send _ | Accept_handle _ => true
  | Accept_sending (_ :: _) _ => true
  | Accept_sending [] (Ret false) => true
  | _ => false
  end.

(** What handleError may leave to send: a fatalError comes alone, with
    kill true. *)
Definition last_words (w : list sent) (kill : Go.result bool) : Prop :=
  forall err, fatalError err ∈ w -> w = [fatalError err] /\ kill = Ret true.

Definition fatal_is_final (x : sys) : Prop :=
  one_loop x
  /\ (forall i w kill, pool x !! i = Some (Accept_sending w kill) -> last_words w kill)
  /\ (fatal_seen x ->
      srv_state (srv x) <> idle
      /\ forall i p, pool x !! i = Some p -> delivering p = false).

(** Waiters exist only once Accept has entered, and a woken one only once
    the loop is over. *)
Definition woken_after_loop (x : sys) : Prop :=
  one_loop x
  /\ (srv_state (srv x) = idle ->
      forall i p, pool x !! i = Some p -> waiting p = false)
  /\ (forall i p, pool x !! i = Some p -> woken p = true -> loop_over x).

(** handleError keeps the mutex while it sends. *)
Definition lock_held (x : sys) : Prop :=
  one_loop x
  /\ forall i w kill, pool x !! i = Some (Accept_sending w kill) ->
                      locked (srv x) = true.

(** The clients, and the errors, that were accepted and not yet handed
    over. *)
Definition owed_clients (x : sys) : list Client := pool x ≫= clients_in_hand.

Definition owed_errors (x : sys) : list error := pool x ≫= errors_in_hand.




End feeds.

(** ** More sample runs of the server *)

Module scenes.
Import server.

Definition conn1 : Conn := {| conn_id := 1 |}.
Definition conn2 : Conn := {| conn_id := 2 |}.

(** Accept is started twice; two connections arrive, the first is taken. *)
Definition two_accepts : list label :=
  [calls Accept_method; calls Accept_method; go 0; go 1;
   accept_returns 0 (inl conn1); taken 0; accept_returns 0 (inl conn2)].

Definition after_two_accepts : sys :=
  Eval vm_compute in
    default (boot sample.listener) (run (boot sample.listener) two_accepts).

(** A connection is served, then the accept call fails for good and the
    fatal error is taken. *)
Definition fatal_run : list label :=
  [calls Accept_method; go 0; accept_returns 0 (inl conn1); taken 0;
   accept_returns 0 (inr sample.too_many_files); go 0; taken 0; go 0;
   accept_returns 0 (inr sample.broken); go 0; taken 0].

Definition after_fatal : sys :=
  Eval vm_compute in
    default (boot sample.listener) (run (boot sample.listener) fatal_run).

(** What may follow: Accept ends, and Accept, Close and Release are
    called again. *)
Definition aftermath : list label :=
  [go 0; go 0; calls Accept_method; go 1; calls Close_method; go 2;
   calls Release_method; go 3].

Definition after_aftermath : sys :=
  Eval vm_compute in default after_fatal (run after_fatal aftermath).

(** Close on a server whose Accept never ran, and an Accept after it. *)
Definition closed_first : sys :=
  Eval vm_compute in
    default (boot sample.listener)
      (run (boot sample.listener) [calls Close_method; go 0]).

Definition late_Accept : list label := [calls Accept_method; go 1; tick 7].

Definition after_late_Accept : sys :=
  Eval vm_compute in default closed_first (run closed_first late_Accept).

(** handleError holds a temporary error nobody has taken yet, while
    Close and Release are called. *)
Definition error_untaken : list label :=
  [calls Accept_method; go 0; accept_returns 0 (inr sample.too_many_files);
   go 0; calls Close_method; calls Release_method].

Definition with_error_untaken : sys :=
  Eval vm_compute in
    default (boot sample.listener) (run (boot sample.listener) error_untaken).

(** Release has been woken by the end of Accept and is about to return. *)
Definition until_woken : list label :=
  [calls Accept_method; go 0; tick 5; calls Release_method; go 1;
   accept_returns 0 (inr sample.timeout); go 0; go 0; go 0].

Definition Release_woken_up : sys :=
  Eval vm_compute in
    default (boot sample.listener) (run (boot sample.listener) until_woken).

(** Accept runs and a call of Close has closed the listener, set the
    state to closing and waits. *)
Definition Close_meets_Accept : list label :=
  [calls Accept_method; go 0; calls Close_method; go 1].

Definition Close_parked : sys :=
  Eval vm_compute in
    default (boot sample.listener) (run (boot sample.listener) Close_meets_Accept).







(** A second call of Accept while the first is in its loop. *)
Definition Accept_twice : list label :=
  [calls Accept_method; go 0; calls Accept_method].

Definition second_Accept_called : sys :=
  Eval vm_compute in
    default (boot sample.listener) (run (boot sample.listener) Accept_twice).


End scenes.

(** ** Writing back: [Stream.Write], [Stream.Send], [NetStream.WriteStatus] *)

Module writes.
Section writes.
Context {Frame Chunk error W : Type}.

(** chunk.Writer, an interface: Write(c) acts on the writer [W] and
    returns an error or nil. *)
Record Writer : Type := { Writer_Write : Go.ptr Chunk -> W -> W * option error }.

Variable writer : Writer.

(** f.Marshal(), s.chunker.Chunk(c) and s.AsChunk(): a chunk and an error. *)
Variable encode : Frame -> Go.ptr Chunk * option error.

(** data: func (s *Stream) Write(f Data) error *)
Definition Write (f : Frame) (w : W) : W * option error :=
  let '(c, err) := encode f in
  match err with
  | Some err => (w, Some err)
  | None =>
      match Writer_Write writer c w with
      | (w, Some err) => (w, Some err)
      | (w, None) => (w, None)
      end
  end.

(** control: func (s *Stream) Send(c Control) error *)
Definition Send (c : Frame) (w : W) : W * option error :=
  let '(chunk, err) := encode c in
  match err with
  | Some err => (w, Some err)
  | None =>
      match Writer_Write writer chunk w with
      | (w, Some err) => (w, Some err)
      | (w, None) => (w, None)
      end
  end.

(** stream: func (n *NetStream) WriteStatus(s *Status) error *)
Definition WriteStatus (s : Frame) (w : W) : W * option error :=
  let '(c, err) := encode s in
  match err with
  | Some err => (w, Some err)
  | None => Writer_Write writer c w
  end.

End writes.
End writes.

(** ** What a relay goroutine has delivered *)

Module flow.
Import Relay.
Section flow.
Context {Chunk Msg Err : Type}.

(** The values consumers have received from In() and Errs(). *)
Definition delivered (s : Relay.t Chunk Msg Err) : nat :=
  length (feed_in s) + length (feed_errs s).

(** Nothing was received and nothing delivered between [s] and [s']. *)
Definition frozen (s s' : Relay.t Chunk Msg Err) : Prop :=
  got s' = got s /\ feed_in s' = feed_in s /\ feed_errs s' = feed_errs s.

(** How a call of Close() stands once the goroutine ended: it panicked,
    or it is the one call that returned. *)
Definition settled (why : exit) (c : caller) : Prop :=
  c = send_panicked \/ (c = handed_over /\ why = returned).

(** The chunks received and not yet delivered: none at the select, one
    while a send is pending, and at most the one whose case panicked
    afterwards. *)
Definition in_step (s : Relay.t Chunk Msg Err) : Prop :=
  match recv s with
  | at_select => length (got s) = delivered s
  | send_errs _ | send_in _ => length (got s) = S (delivered s)
  | _ => delivered s <= length (got s) <= S (delivered s)
  end.

(** How the calls of Close() stand, by where the goroutine is. *)
Definition calls_stand (s : Relay.t Chunk Msg Err) : Prop :=
  chans_ok s
  /\ (forall i, callers s !! i = Some handed_over ->
                (exists k, recv s = deferred returned k)
                \/ recv s = finished returned)
  /\ (forall why, recv s = finished why ->
                  forall i, callers s !! i <> Some sending).

(** Where a relay goroutine whose chunk channel is closed can be, given
    the state [s0] it was in, at its select, when the channel closed:
    still at its select, out of the loop by a close signal, or out of it
    by the panic of the chunk case on the nil chunk of the closed channel.
    It delivers nothing in any of them. *)
Definition orphaned (s0 s : Relay.t Chunk Msg Err) : Prop :=
  chunks_closed s = true
  /\ feed_in s = feed_in s0 /\ feed_errs s = feed_errs s0
  /\ match recv s with
     | at_select | deferred returned _ | finished returned => got s = got s0
     | deferred panicked _ | finished panicked => got s = got s0 ++ [None]
     | send_errs _ | send_in _ => False
     end.

End flow.
End flow.

(** Sample runs of the streams. *)
Module takes.
Import Relay.

(** Two goroutines call Close(); the loop receives the signal of the
    second and ends. *)
Definition two_Closes : list (label string) :=
  [chunk_arrives (Some "ok1"); in_taken; Close_called; Close_called; signal 1;
   run_deferred; run_deferred; run_deferred].

Definition after_two_Closes : Relay.t string string string :=
  Eval vm_compute in default NewStream (run sample.Recv NewStream two_Closes).

(** A chunk was received and nobody reads In(). *)
Definition unread : list (label string) :=
  [chunk_arrives (Some "ok1"); in_taken; chunk_arrives (Some "ok2")].

Definition with_unread : Relay.t string string string :=
  Eval vm_compute in default NewStream (run sample.Recv NewStream unread).

(** After the goroutine of the sample has ended, Close() is called once
    more and the producer closes the chunk channel. *)
Definition afterwards : list (label string) := [Close_called; source_closes].

Definition after_the_end : Relay.t string string string :=
  Eval vm_compute in default NewStream (run sample.Recv sample.ended afterwards).

(** Listen over the sample command parser. *)
Definition Listen : Go.ptr string -> Go.result (publish nat string) :=
  stream.Listen_case_chunk sample.chunk_Data id sample.command_parser.

(** A command is served, a Close() is pending and the producer closes
    the chunk channel. *)
Definition source_gone : list (label string) :=
  [chunk_arrives (Some "play"); in_taken; Close_called; source_closes].

Definition with_source_gone : Relay.t string nat string :=
  Eval vm_compute in default NewStream (run Listen NewStream source_gone).

Definition Listen_dead : Relay.t string nat string :=
  Eval vm_compute in
    default NewStream
      (run Listen with_source_gone
         [zero_chunk; run_deferred; run_deferred; run_deferred]).

(** A writer that logs the chunks written and refuses a nil chunk and
    the chunk "big", and a marshaller that fails on "bad". *)
Definition log_writer : @writes.Writer string string (list string) :=
  {| writes.Writer_Write := fun c w =>
       match c with
       | None => (w, Some "nil chunk")
       | Some c => if decide (c = "big") then (w, Some "short write")
                   else (w ++ [c], None)
       end |}.

Definition Marshal (f : string) : Go.ptr string * option string :=
  if decide (f = "bad") then (None, Some "cannot marshal bad")
  else (Some f, None).

(** With the chunk channel closed, the pending Close() is served first:
    Listen returns. *)
Definition Listen_closed : Relay.t string nat string :=
  Eval vm_compute in
    default NewStream
      (run takes.Listen takes.with_source_gone
         [signal 0; run_deferred; run_deferred; run_deferred]).

End takes.

(** ** package server, stopped through its release channel

    The Server whose Accept polls the channel [release] after every
    accept call, and whose Release signals on it. The listener, the
    connections and the errors are those of [server]. *)

Module server_release.

Record Server : Type := {
  socket : server.TCPListener;
  deadline : Z;
  clients : Go.chan;
  errs : Go.chan;
  release : Go.chan
}.

Definition NewSocket (socket : server.TCPListener) : Server :=
  {| socket := socket; deadline := server.time_Second;
     clients := Go.make; errs := Go.make; release := Go.make |}.

Definition with_socket (l : server.TCPListener) (s : Server) : Server :=
  {| socket := l; deadline := deadline s; clients := clients s;
     errs := errs s; release := release s |}.

Definition with_release (c : Go.chan) (s : Server) : Server :=
  {| socket := socket s; deadline := deadline s; clients := clients s;
     errs := errs s; release := c |}.

(** Close: return s.socket.Close() *)
Definition Close (s : Server) : Server * option server.error :=
  let '(l, err) := server.TCPListener_Close (socket s) in
  (with_socket l s, err).

(** The condition under which Accept sends the error on s.errs:
    nerr, ok := err.(net.Error); !ok || !nerr.Timeout() *)
Definition reported (err : server.error) : Go.result bool :=
  let '(nerr, ok) := server.as_net_Error err in
  if negb ok then Ret true
  else Go.bind (server.call server.Timeout nerr) (fun t => Ret (negb t)).

(** Where a goroutine is. *)
Inductive pc : Type :=
| Accept_loop                         (* l.SetDeadline(time.Now().Add(s.deadline)) *)
| Accept_call                         (* blocked in l.Accept() *)
| Accept_send (c : server.Client)     (* blocked in s.clients <- client.New(conn) *)
| Accept_send_err (err : server.error) (* blocked in s.errs <- err *)
| Accept_select                       (* select { case <-s.release: ; default: } *)
| Accept_deferred (why : server.exit) (* the deferred close(s.release) *)
| Accept_done (why : server.exit)
| Close_entry
| Close_done (r : option server.error)
| Release_entry                       (* called, before its send *)
| Release_send                        (* blocked in s.release <- struct{}{} *)
| Release_recv                        (* blocked in <-s.release *)
| Release_done (l : server.TCPListener)
| Release_panicked.                   (* send on the closed channel *)

#[global] Instance pc_eq_dec : EqDecision pc.
Proof. solve_decision. Defined.

(** A goroutine called with a method starts here. For Accept the
    deferred call is registered and l := s.socket is read, which nobody
    else can see. *)
Definition entry (m : server.method) : pc :=
  match m with
  | server.Accept_method => Accept_loop
  | server.Close_method => Close_entry
  | server.Release_method => Release_entry
  end.

Record sys : Type := {
  srv : Server;
  pool : list pc;
  clock : Z;
  feed_clients : list server.Client;   (* received from Clients() *)
  feed_errs : list server.error        (* received from Errs() *)
}.

Definition boot (l : server.TCPListener) : sys :=
  {| srv := NewSocket l; pool := []; clock := 0;
     feed_clients := []; feed_errs := [] |}.

(** Closing s.release makes every goroutine blocked sending on it
    panic. *)
Definition wake_senders (ps : list pc) : list pc :=
  (fun p => match p with Release_send => Release_panicked | _ => p end) <$> ps.

(** Whether some goroutine is blocked sending on s.release. *)
Definition sender_waits (ps : list pc) : bool :=
  bool_decide (Release_send ∈ ps).

(** What the accept loop does with the result of l.Accept(). *)
Definition Accept_got (r : server.Conn + server.error) : pc :=
  match r with
  | inl conn => Accept_send (server.client_New conn)
  | inr err =>
      match reported err with
      | Ret true => Accept_send_err err
      | Ret false => Accept_select
      | Panic => Accept_deferred server.panicked
      end
  end.

(** Goroutine [p] moves on its own: the server and the pool after it,
    and where the goroutine is then. *)
Definition advance (now : Z) (s : Server) (ps : list pc) (p : pc)
  : option (Server * list pc * pc) :=
  match p with
  | Accept_loop =>
      Some (with_socket (server.TCPListener_SetDeadline (now + deadline s) (socket s)) s,
            ps, Accept_call)
  | Accept_select =>
      if Go.closed (release s) then Some (s, ps, Accept_deferred server.returned)
      else if sender_waits ps then None
      else Some (s, ps, Accept_loop)
  | Accept_deferred why =>
      match Go.close (release s) with
      | Ret c => Some (with_release c s, wake_senders ps, Accept_done why)
      | Panic => Some (s, ps, Accept_done server.panicked)
      end
  | Close_entry =>
      let '(s, r) := Close s in Some (s, ps, Close_done r)
  | Release_entry =>
      if Go.closed (release s) then Some (s, ps, Release_panicked)
      else Some (s, ps, Release_send)
  | Release_recv =>
      if Go.closed (release s) then Some (s, ps, Release_done (socket s))
      else None
  | _ => None
  end.

Inductive label : Type :=
| calls (m : server.method)             (* a new goroutine calls m *)
| go (i : nat)                          (* goroutine i moves on its own *)
| accept_returns (i : nat) (r : server.Conn + server.error)
                                        (* l.Accept() comes back *)
| taken (i : nat)                       (* a consumer receives what i sends *)
| meets (i j : nat)                     (* the receive of i meets the send of j *)
| tick (d : Z).                         (* time passes *)

Definition with_pool (ps : list pc) (x : sys) : sys :=
  {| srv := srv x; pool := ps; clock := clock x;
     feed_clients := feed_clients x; feed_errs := feed_errs x |}.

(** The goroutine that receives the value of a send on s.release: the
    select of Accept returns, the second line of Release goes on. *)
Definition received (s : Server) (p : pc) : option pc :=
  match p with
  | Accept_select => Some (Accept_deferred server.returned)
  | Release_recv => Some (Release_done (socket s))
  | _ => None
  end.

Definition step (x : sys) (l : label) : option sys :=
  match l with
  | calls m => Some (with_pool (pool x ++ [entry m]) x)
  | go i =>
      p ← pool x !! i;
      '(s, ps, p') ← advance (clock x) (srv x) (pool x) p;
      Some {| srv := s; pool := <[i := p']> ps; clock := clock x;
              feed_clients := feed_clients x; feed_errs := feed_errs x |}
  | accept_returns i r =>
      match pool x !! i with
      | Some Accept_call => Some (with_pool (<[i := Accept_got r]> (pool x)) x)
      | _ => None
      end
  | taken i =>
      match pool x !! i with
      | Some (Accept_send c) =>
          Some {| srv := srv x; pool := <[i := Accept_select]> (pool x);
                  clock := clock x; feed_clients := feed_clients x ++ [c];
                  feed_errs := feed_errs x |}
      | Some (Accept_send_err err) =>
          Some {| srv := srv x; pool := <[i := Accept_select]> (pool x);
                  clock := clock x; feed_clients := feed_clients x;
                  feed_errs := feed_errs x ++ [err] |}
      | _ => None
      end
  | meets i j =>
      match pool x !! j with
      | Some Release_send =>
          p ← pool x !! i;
          p' ← received (srv x) p;
          Some (with_pool (<[i := p']> (<[j := Release_recv]> (pool x))) x)
      | _ => None
      end
  | tick d =>
      if decide (0 <= d)%Z
      then Some {| srv := srv x; pool := pool x; clock := clock x + d;
                   feed_clients := feed_clients x; feed_errs := feed_errs x |}
      else None
  end.

Fixpoint run (x : sys) (tr : list label) : option sys :=
  match tr with
  | [] => Some x
  | l :: tr => match step x l with
               | Some x' => run x' tr
               | None => None
               end
  end.

(** Between the top of the loop of Accept and its select. *)
Definition in_loop (p : pc) : bool :=
  match p with
  | Accept_loop | Accept_call | Accept_send _ | Accept_send_err _
  | Accept_select => true
  | _ => false
  end.

(** An Accept that has left its loop. *)
Definition left_loop (p : pc) : bool :=
  match p with Accept_deferred _ | Accept_done _ => true | _ => false end.

(** A Release whose send was received. *)
Definition past_send (p : pc) : bool :=
  match p with Release_recv | Release_done _ => true | _ => false end.

Definition is_Release (p : pc) : bool :=
  match p with
  | Release_entry | Release_send | Release_recv | Release_done _
  | Release_panicked => true
  | _ => false
  end.

(** A Release is past its send only once some Accept has left its loop. *)
Definition signal_seen (x : sys) : Prop :=
  (exists j p, pool x !! j = Some p /\ past_send p = true) ->
  exists i p, pool x !! i = Some p /\ left_loop p = true.

(** While nobody calls Release: no Release in the pool, the channel as
    NewSocket made it, every Accept in its loop. *)
Definition unreleased (x : sys) : Prop :=
  release (srv x) = Go.make
  /\ forall i p, pool x !! i = Some p ->
                 is_Release p = false /\ left_loop p = false.

(** s.release is closed by at most one Accept, the one that ends by its
    return; senders are blocked only while it is open. *)
Definition closed_by_one (x : sys) : Prop :=
  (Go.closed (release (srv x)) = false ->
   release (srv x) = Go.make
   /\ forall i why, pool x !! i <> Some (Accept_done why))
  /\ (Go.closed (release (srv x)) = true ->
      Go.close_calls (release (srv x)) = 1
      /\ (forall i, pool x !! i <> Some Release_send)
      /\ exists i, pool x !! i = Some (Accept_done server.returned)
                   /\ forall j, pool x !! j = Some (Accept_done server.returned)
                                -> j = i)
  /\ (forall i, pool x !! i <> Some (Accept_deferred server.panicked)).

(** The clients and the errors that were accepted and not yet handed
    over. *)
Definition clients_in_hand (p : pc) : list server.Client :=
  match p with Accept_send c => [c] | _ => [] end.

Definition errors_in_hand (p : pc) : list server.error :=
  match p with Accept_send_err err => [err] | _ => [] end.

Definition owed_clients (x : sys) : list server.Client :=
  pool x ≫= clients_in_hand.

Definition owed_errors (x : sys) : list server.error :=
  pool x ≫= errors_in_hand.

(** The connections and the errors l.Accept() returned along a run. *)
Definition accepted_conn (l : label) : option server.Conn :=
  match l with
  | accept_returns _ (inl conn) => Some conn
  | _ => None
  end.

Definition accept_error (l : label) : option server.error :=
  match l with
  | accept_returns _ (inr err) => Some err
  | _ => None
  end.

(** A timeout, the one kind of error Accept keeps to itself. *)
Definition is_timeout (err : server.error) : bool :=
  match err with
  | server.network n => server.Timeout n
  | server.plain _ => false
  end.

End server_release.

(** Sample runs of that server. *)
Module polls.
Import server_release.

(** Accept serves a connection and polls; Release is called twice; the
    select receives the signal of the first call, the first call then
    receives that of the second, and Accept closes the channel. *)
Definition two_Releases : list label :=
  [calls server.Accept_method; go 0; accept_returns 0 (inl scenes.conn1);
   taken 0; go 0; go 0; accept_returns 0 (inr sample.timeout);
   calls server.Release_method; calls server.Release_method; go 1; go 2;
   meets 0 1; meets 1 2; go 0; go 2].

Definition after_two_Releases : sys :=
  Eval vm_compute in
    default (boot sample.listener) (run (boot sample.listener) two_Releases).

(** Close is called while Accept runs; the accept call fails, the error
    is taken, and Accept goes round again. *)
Definition Close_only : list label :=
  [calls server.Accept_method; go 0; calls server.Close_method; go 1;
   accept_returns 0 (inr sample.use_of_closed); taken 0; go 0; go 0;
   accept_returns 0 (inr sample.use_of_closed)].

Definition after_Close_only : sys :=
  Eval vm_compute in
    default (boot sample.listener) (run (boot sample.listener) Close_only).

(** Two goroutines run Accept; Release stops the first, the second then
    finds the channel closed. *)
Definition two_Accepts : list label :=
  [calls server.Accept_method; calls server.Accept_method; go 0; go 1;
   accept_returns 0 (inr sample.timeout); accept_returns 1 (inr sample.timeout);
   calls server.Release_method; go 2; meets 0 2; go 0; go 2; go 1; go 1].

Definition after_two_Accepts : sys :=
  Eval vm_compute in
    default (boot sample.listener) (run (boot sample.listener) two_Accepts).

(** Two goroutines run Accept and each gets a connection; the second
    is taken first. *)
Definition crossed : list label :=
  [calls server.Accept_method; calls server.Accept_method; go 0; go 1;
   accept_returns 0 (inl scenes.conn1); accept_returns 1 (inl scenes.conn2);
   taken 1; go 1; go 1; accept_returns 1 (inr sample.timeout);
   go 1; go 1; accept_returns 1 (inr sample.broken)].

Definition after_crossed : sys :=
  Eval vm_compute in
    default (boot sample.listener) (run (boot sample.listener) crossed).

End polls.

(** * Properties *)

(** ** The relay goroutine *)

Module RelayFacts.
Import Relay.

Section facts.
Context {Chunk Msg Err : Type}.
Variable case_chunk : Go.ptr Chunk -> Go.result (publish Msg Err).

Abbreviation state := (Relay.t Chunk Msg Err).
Abbreviation step := (Relay.step case_chunk).
Abbreviation run := (Relay.run case_chunk).
Abbreviation receive := (Relay.receive case_chunk).
Abbreviation message_of := (Relay.message_of case_chunk).
Abbreviation error_of := (Relay.error_of case_chunk).

Implicit Types (s : state) (l : label Chunk) (tr : list (label Chunk)).

(** Every way [step s l = Some s'] can hold, with [s'] spelled out. *)
Ltac step_cases Hl Hpc :=
  match type of Hl with
  | Relay.step _ ?s ?l = Some _ =>
      destruct l; unfold Relay.step in Hl; destruct (recv s) eqn:Hpc;
      simpl in Hl;
      repeat match type of Hl with
        | context [if ?b then _ else _] => destruct b eqn:?; simpl in Hl
        | context [match ?x with _ => _ end] => destruct x eqn:?; simpl in Hl
        end;
      try discriminate Hl;
      apply (inj Some) in Hl; subst
  end.

Lemma run_app s tr1 tr2 :
  run s (tr1 ++ tr2) = run s tr1 ≫= fun s' => run s' tr2.
Proof.
  revert s. induction tr1 as [|l tr1 IH]; intros s; simpl; [done|].
  destruct (step s l); simpl; auto.
Qed.

(** A property kept by every move holds along every run. *)
Lemma run_keeps (I : state -> Prop) :
  (forall s l s', I s -> step s l = Some s' -> I s') ->
  forall tr s s', I s -> run s tr = Some s' -> I s'.
Proof.
  intros Hstep. induction tr as [|l tr IH]; intros s s' Hs Hrun; simpl in Hrun.
  - by simplify_eq.
  - destruct (step s l) as [s1|] eqn:Hl; [|done]. eauto.
Qed.

Lemma feeds_follow_receive s c :
  recv s = at_select -> feeds_follow case_chunk s ->
  feeds_follow case_chunk (receive c s).
Proof.
  unfold feeds_follow, Relay.receive, Relay.message_of, Relay.error_of.
  intros Hpc [Hin Herr]. rewrite Hpc in Hin, Herr. simpl in *.
  rewrite !app_nil_r in *|-. rewrite !omap_app. simpl.
  rewrite <- Hin, <- Herr.
  destruct (case_chunk c) as [[e|m]|]; simpl; by rewrite ?app_nil_r.
Qed.

Lemma feeds_follow_step s l s' :
  feeds_follow case_chunk s -> step s l = Some s' ->
  feeds_follow case_chunk s'.
Proof.
  intros Hs Hl. step_cases Hl Hpc;
    try (by apply feeds_follow_receive);
    destruct Hs as [Hin Herr]; rewrite Hpc in Hin, Herr;
    unfold feeds_follow, run_deferred_close, with_recv, with_callers, with_chans;
    repeat case_match; simpl in *; rewrite ?Hpc, ?app_nil_r in *; simpl; eauto.
Qed.

Lemma feeds_follow_run tr s :
  run NewStream tr = Some s -> feeds_follow case_chunk s.
Proof.
  apply (run_keeps (feeds_follow case_chunk)); [apply feeds_follow_step|].
  by split.
Qed.

(** *** The channels the goroutine owns *)

Lemma chans_ok_step s l s' :
  chans_ok s -> step s l = Some s' -> chans_ok s'.
Proof.
  unfold chans_ok. intros Hs Hl.
  step_cases Hl Hpc; simpl in *; rewrite ?Hpc; try done.
  - by destruct (case_chunk c) as [[?|?]|].
  - by destruct (case_chunk None) as [[?|?]|].
  - unfold run_deferred_close, Go.close, untouched, closed_once, Go.make in *.
    destruct (ch_in s) as [ci ni], (ch_errs s) as [ce ne], (ch_closer s) as [cc nc].
    destruct k as [|[|[|k]]]; simpl in *; [| | |done];
      destruct Hs as (Hi & He & Hc);
      unfold untouched, closed_once, Go.make in *; destruct_and?;
      simplify_eq/=; done.
Qed.

Lemma chans_ok_run tr s :
  run NewStream tr = Some s -> chans_ok s.
Proof.
  apply (run_keeps chans_ok); [apply chans_ok_step|].
  by repeat split.
Qed.

(** Only the goroutine's own deferred closes touch the three channels. *)
Lemma chans_frame s l s' :
  step s l = Some s' -> l <> run_deferred ->
  ch_in s' = ch_in s /\ ch_errs s' = ch_errs s /\ ch_closer s' = ch_closer s.
Proof.
  intros Hl Hne. step_cases Hl Hpc; done.
Qed.

(** *** Leaving the loop *)

Lemma recv_run_deferred_close why k s :
  chans_ok s -> recv s = deferred why k ->
  recv (run_deferred_close why k s) = deferred why (S k) /\ k < 2
  \/ recv (run_deferred_close why k s) = finished why /\ k = 2.
Proof.
  unfold chans_ok, run_deferred_close, Go.close, untouched, closed_once, Go.make.
  intros Hs Hpc. rewrite Hpc in Hs.
  destruct (ch_in s) as [ci ni], (ch_errs s) as [ce ne], (ch_closer s) as [cc nc].
  destruct k as [|[|[|k]]]; simpl in Hs; [| | |done];
    destruct Hs as (Hi & He & Hc);
    unfold untouched, closed_once, Go.make in *; destruct_and?;
    simplify_eq/=; auto with lia.
Qed.

Lemma left_for_good s l s' :
  step s l = Some s' -> in_loop (recv s) = false -> in_loop (recv s') = false.
Proof.
  intros Hl Hout. step_cases Hl Hpc; simpl in *; rewrite ?Hpc; try done.
  unfold run_deferred_close; repeat case_match; done.
Qed.

Lemma left_for_good_run tr s s' :
  run s tr = Some s' -> in_loop (recv s) = false -> in_loop (recv s') = false.
Proof.
  intros Hrun Hout. revert Hrun.
  apply (run_keeps (fun s => in_loop (recv s) = false)); [|done].
  intros ??? Hs Hl. by eapply left_for_good.
Qed.

Lemma got_grows s l s' :
  step s l = Some s' -> got s `prefix_of` got s'.
Proof.
  intros Hl. step_cases Hl Hpc; simpl; try done; try (by apply prefix_app_r).
  unfold run_deferred_close; repeat case_match; done.
Qed.

Lemma got_grows_run tr s s' :
  run s tr = Some s' -> got s `prefix_of` got s'.
Proof.
  revert s. induction tr as [|l tr IH]; intros s Hrun; simpl in Hrun.
  - by simplify_eq.
  - destruct (step s l) as [s1|] eqn:Hl; [|done].
    etrans; [by eapply got_grows|]. eauto.
Qed.

Lemma leaving_step why s l s' :
  leaving why s -> step s l = Some s' -> leaving why s'.
Proof.
  intros [Hok Hpc] Hl. split; [by eapply chans_ok_step|].
  step_cases Hl Hpc'; simpl; rewrite ?Hpc'; try done;
    try (destruct Hpc as [[? ?]|?]; congruence).
  assert (why0 = why) as -> by (destruct Hpc as [[? ?]|?]; congruence).
  destruct (recv_run_deferred_close why k s Hok Hpc') as [[-> _]|[-> _]]; eauto.
Qed.

(** The goroutine leaves its loop for one of two reasons: it received
    the close signal, or a chunk case panicked. *)
Lemma exit_cause tr s s' :
  chans_ok s -> in_loop (recv s) = true ->
  run s tr = Some s' -> in_loop (recv s') = false ->
  (exists i, signal i ∈ tr /\ leaving returned s')
  \/ (exists c, c ∈ got s' /\ case_chunk c = Panic /\ leaving panicked s').
Proof.
  revert s. induction tr as [|l tr IH]; intros s Hok Hin Hrun Hout; simpl in Hrun.
  - simplify_eq. congruence.
  - destruct (step s l) as [s1|] eqn:Hl; [|done].
    assert (chans_ok s1) as Hok1 by (by eapply chans_ok_step).
    destruct (in_loop (recv s1)) eqn:Hin1.
    { destruct (IH s1 Hok1 Hin1 Hrun Hout) as [(i & Hi & Hk)|Hc]; [left|by right].
      exists i. split; [by right|done]. }
    clear IH.
    assert (forall why, leaving why s1 -> leaving why s') as Hleave.
    { intros why H1. revert Hrun. apply (run_keeps (leaving why)); [|done].
      apply leaving_step. }
    pose proof (got_grows_run _ _ _ Hrun) as Hgot.
    step_cases Hl Hpc; simpl in *; try done;
      try (by rewrite Hpc in Hin1).
    + right. exists c. unfold leaving, chans_ok, Relay.receive in *. simpl in *.
      destruct (case_chunk c) as [[?|?]|] eqn:Hc; try done.
      split; [|split; [done|]].
      * eapply elem_of_prefix; [|done].
        apply elem_of_app. right. by apply list_elem_of_singleton.
      * apply Hleave. simpl. split; [done|]. left. by exists 0.
    + right. exists None. unfold leaving, chans_ok, Relay.receive in *. simpl in *.
      destruct (case_chunk None) as [[?|?]|] eqn:Hc; try done.
      split; [|split; [done|]].
      * eapply elem_of_prefix; [|done].
        apply elem_of_app. right. by apply list_elem_of_singleton.
      * apply Hleave. simpl. split; [done|]. left. by exists 0.
    + left. eexists. split; [by left|].
      apply Hleave. split; [done|]. left. by exists 0.
    + unfold chans_ok, chans_at, untouched in Hok. rewrite Hpc in Hok.
      destruct Hok as (_ & _ & Hc). rewrite Hc in *. done.
Qed.

Lemma exit_cause_run tr s :
  run NewStream tr = Some s -> in_loop (recv s) = false ->
  (exists i, signal i ∈ tr /\ leaving returned s)
  \/ (exists c, c ∈ got s /\ case_chunk c = Panic /\ leaving panicked s).
Proof. apply exit_cause; [by repeat split|done]. Qed.

Lemma step_run_deferred why k s :
  recv s = deferred why k ->
  step s run_deferred = Some (run_deferred_close why k s).
Proof. intros Hpc. unfold Relay.step. by rewrite Hpc. Qed.

(** Once out of the loop, three moves end the goroutine. *)
Lemma deferred_runs why s :
  chans_ok s -> recv s = deferred why 0 ->
  exists s', run s [run_deferred; run_deferred; run_deferred] = Some s'
             /\ recv s' = finished why.
Proof.
  intros Hok Hpc. cbn [Relay.run].
  rewrite (step_run_deferred why 0) by done.
  destruct (recv_run_deferred_close why 0 s Hok Hpc) as [[H1 _]|[_ ?]]; [|lia].
  assert (chans_ok (run_deferred_close why 0 s)) as Hok1.
  { eapply chans_ok_step; [done|]. by apply step_run_deferred. }
  rewrite (step_run_deferred why 1) by done.
  destruct (recv_run_deferred_close why 1 _ Hok1 H1) as [[H2 _]|[_ ?]]; [|lia].
  assert (chans_ok (run_deferred_close why 1 (run_deferred_close why 0 s))) as Hok2.
  { eapply chans_ok_step; [done|]. by apply step_run_deferred. }
  rewrite (step_run_deferred why 2) by done.
  destruct (recv_run_deferred_close why 2 _ Hok2 H2) as [[_ ?]|[H3 _]]; [lia|].
  eauto.
Qed.

(** *** What reaches the feeds *)

Lemma one_entry_each (cs : list (Go.ptr Chunk)) :
  Forall (fun c => case_chunk c <> Panic) cs ->
  length (omap message_of cs) + length (omap error_of cs) = length cs.
Proof.
  induction 1 as [|c cs Hc _ IH]; [done|].
  change (c :: cs) with ([c] ++ cs). rewrite !omap_app, !length_app, <- IH.
  assert (length (omap message_of [c]) + length (omap error_of [c]) = 1) as H1.
  { simpl. unfold Relay.message_of, Relay.error_of.
    by destruct (case_chunk c) as [[e|m]|]. }
  simpl (length [c]). lia.
Qed.

Lemma step_chunk_arrives s c :
  recv s = at_select -> chunks_closed s = false ->
  step s (chunk_arrives c) = Some (receive c s).
Proof. intros Hpc Hopen. unfold Relay.step. by rewrite Hpc, Hopen. Qed.

Lemma step_zero_chunk s :
  recv s = at_select -> chunks_closed s = true ->
  step s zero_chunk = Some (receive None s).
Proof. intros Hpc Hopen. unfold Relay.step. by rewrite Hpc, Hopen. Qed.

Lemma serve_cons c cs :
  serve case_chunk (c :: cs) = serve_one case_chunk c ++ serve case_chunk cs.
Proof. done. Qed.

Lemma omap_cons_app {A B} (f : A -> option B) (x : A) (xs : list A) :
  omap f (x :: xs) = from_option (fun y => [y]) [] (f x) ++ omap f xs.
Proof. simpl. by destruct (f x). Qed.

Lemma serve_from cs : forall s,
  Forall (fun c => case_chunk c <> Panic) cs ->
  recv s = at_select -> chunks_closed s = false ->
  exists s', run s (serve case_chunk cs) = Some s' /\ got s' = got s ++ cs
             /\ recv s' = at_select /\ chunks_closed s' = false
             /\ feed_in s' = feed_in s ++ omap message_of cs
             /\ feed_errs s' = feed_errs s ++ omap error_of cs.
Proof.
  induction cs as [|c cs IH]; intros s Hcs Hpc Hopen.
  - exists s. simpl. by rewrite !app_nil_r.
  - inversion_clear Hcs as [|?? Hc Hcs'].
    rewrite serve_cons, run_app, !omap_cons_app.
    assert (exists s1, run s (serve_one case_chunk c) = Some s1
                       /\ got s1 = got s ++ [c] /\ recv s1 = at_select
                       /\ chunks_closed s1 = false
                       /\ feed_in s1 = feed_in s ++ from_option (fun m => [m]) [] (message_of c)
                       /\ feed_errs s1 = feed_errs s ++ from_option (fun e => [e]) [] (error_of c))
      as (s1 & -> & Hg & Hpc1 & Ho1 & Hi1 & He1).
    { unfold serve_one, Relay.message_of, Relay.error_of.
      destruct (case_chunk c) as [[e|m]|] eqn:Hcc; [| |done]; cbn [Relay.run];
        rewrite step_chunk_arrives by done;
        unfold Relay.step, Relay.receive; simpl; rewrite Hcc; simpl;
        (eexists; split; [done|]); simpl; by rewrite ?app_nil_r. }
    destruct (IH s1 Hcs' Hpc1 Ho1) as (s' & Hrun & Hg' & ? & ? & Hi' & He').
    exists s'. cbn [mbind option_bind].
    rewrite Hrun, Hg', Hi', He', Hg, Hi1, He1, <- !app_assoc. done.
Qed.

(** The relay serves every chunk whose case does not panic. *)
Lemma relays_unless_panic (P : Go.ptr Chunk -> Prop) :
  (forall c, P c -> case_chunk c <> Panic) -> relays case_chunk P.
Proof.
  intros HP. split.
  - intros tr s Hrun Hgot.
    destruct (feeds_follow_run tr s Hrun) as [Hin Herr].
    repeat split; [done|done| |].
    + intros Hpi Hpe. rewrite Hpi, Hpe, !app_nil_r in *. rewrite Hin, Herr.
      apply one_entry_each. eapply Forall_impl; [done|]. auto.
    + intros err Hpc. unfold Relay.step. rewrite Hpc. eauto.
  - intros cs Hcs.
    assert (Forall (fun c => case_chunk c <> Panic) cs) as Hcs'
      by (eapply Forall_impl; [done|]; auto).
    destruct (serve_from cs NewStream Hcs') as (s & ? & ? & ? & ? & Hi & He);
      [done|done|].
    exists s. simpl in *. rewrite Hi, He.
    repeat split; try done. by apply one_entry_each.
Qed.

(** *** Calls of Close() *)

(** A call returns only in the move in which the loop receives its
    signal. *)
Lemma handed_over_by_signal s l s' i :
  step s l = Some s' ->
  callers s' !! i = Some handed_over -> callers s !! i <> Some handed_over ->
  l = signal i /\ recv s = at_select /\ callers s !! i = Some sending
  /\ recv s' = deferred returned 0.
Proof.
  intros Hl Hi' Hi. step_cases Hl Hpc; simpl in *; try done;
    try (apply lookup_app_Some in Hi' as [?|[_ Hi']]; [done|];
         apply list_lookup_singleton_Some in Hi' as [_ ?]; done).
  - match goal with H : callers s !! ?j = Some sending |- _ =>
      destruct (decide (j = i)) as [->|Hne];
      [done | by rewrite list_lookup_insert_ne in Hi'] end.
  - exfalso. apply Hi. unfold run_deferred_close in Hi'.
    destruct k as [|[|k]]; repeat case_match; simpl in Hi'; try done.
    unfold wake_senders in Hi'. rewrite list_lookup_fmap in Hi'.
    destruct (callers s !! i) as [[]|]; by simplify_eq/=.
Qed.

(** A call that returned stays returned. *)
Lemma handed_over_stays s l s' i :
  step s l = Some s' ->
  callers s !! i = Some handed_over -> callers s' !! i = Some handed_over.
Proof.
  intros Hl Hi. step_cases Hl Hpc; simpl in *; try done;
    try (by apply lookup_app_l_Some).
  - match goal with H : callers s !! ?j = Some sending |- _ =>
      destruct (decide (j = i)) as [->|Hne];
      [congruence | by rewrite list_lookup_insert_ne] end.
  - unfold run_deferred_close.
    destruct k as [|[|k]]; repeat case_match; simpl; try done.
    unfold wake_senders. rewrite list_lookup_fmap. by rewrite Hi.
Qed.

(** Once the goroutine has left its loop, no call returns any more. *)
Lemma no_return_after_exit tr s s' i :
  in_loop (recv s) = false -> run s tr = Some s' ->
  callers s' !! i = Some handed_over -> callers s !! i = Some handed_over.
Proof.
  revert s. induction tr as [|l tr IH]; intros s Hout Hrun Hi'; simpl in Hrun.
  - by simplify_eq.
  - destruct (step s l) as [s1|] eqn:Hl; [|done].
    assert (callers s1 !! i = Some handed_over) as Hi1.
    { eapply IH; [|done|done]. by eapply left_for_good. }
    destruct (decide (callers s !! i = Some handed_over)) as [|Hne]; [done|].
    destruct (handed_over_by_signal _ _ _ _ Hl Hi1 Hne) as (_ & Hpc & _).
    by rewrite Hpc in Hout.
Qed.

(** A send on the closed signal channel panics, for good. *)
Lemma send_panicked_stays tr s s' i :
  run s tr = Some s' ->
  callers s !! i = Some send_panicked -> callers s' !! i = Some send_panicked.
Proof.
  intros Hrun Hi. revert Hrun.
  apply (run_keeps (fun s => callers s !! i = Some send_panicked)); [|done].
  clear. intros s l s' Hi Hl. step_cases Hl Hpc; simpl in *; try done;
    try (by apply lookup_app_l_Some).
  - match goal with H : callers s !! ?j = Some sending |- _ =>
      destruct (decide (j = i)) as [->|Hne];
      [congruence | by rewrite list_lookup_insert_ne] end.
  - unfold run_deferred_close.
    destruct k as [|[|k]]; repeat case_match; simpl; try done.
    unfold wake_senders. rewrite list_lookup_fmap. by rewrite Hi.
Qed.

Lemma one_signal_step s l s' :
  one_signal s -> step s l = Some s' -> one_signal s'.
Proof.
  intros [Hnone Hone] Hl. split.
  - intros Hin i Hi.
    destruct (decide (callers s !! i = Some handed_over)) as [Hs|Hs].
    + destruct (in_loop (recv s)) eqn:Hin0; [by eapply Hnone|].
      pose proof (left_for_good _ _ _ Hl Hin0). congruence.
    + destruct (handed_over_by_signal _ _ _ _ Hl Hi Hs) as (_ & _ & _ & Hpc).
      by rewrite Hpc in Hin.
  - intros i j Hi Hj.
    destruct (decide (callers s !! i = Some handed_over)) as [Hsi|Hsi],
             (decide (callers s !! j = Some handed_over)) as [Hsj|Hsj].
    + eauto.
    + destruct (handed_over_by_signal _ _ _ _ Hl Hj Hsj) as (_ & Hpc & _).
      exfalso. eapply Hnone; [by rewrite Hpc|done].
    + destruct (handed_over_by_signal _ _ _ _ Hl Hi Hsi) as (_ & Hpc & _).
      exfalso. eapply Hnone; [by rewrite Hpc|done].
    + destruct (handed_over_by_signal _ _ _ _ Hl Hi Hsi) as (-> & _).
      destruct (handed_over_by_signal _ _ _ _ Hl Hj Hsj) as (? & _).
      congruence.
Qed.

Lemma one_signal_run tr s :
  run NewStream tr = Some s -> one_signal s.
Proof.
  apply (run_keeps one_signal); [apply one_signal_step|].
  split; intros; simpl in *; by rewrite ?lookup_nil in *.
Qed.

(** A call made while the loop waits in its select can hand its signal
    over, and the loop then leaves. *)
Lemma Close_hands_over s :
  chans_ok s -> recv s = at_select ->
  exists s', run s [Close_called; signal (length (callers s))] = Some s'
             /\ callers s' !! length (callers s) = Some handed_over
             /\ recv s' = deferred returned 0.
Proof.
  unfold chans_ok, chans_at, untouched. intros Hok Hpc. rewrite Hpc in Hok.
  destruct Hok as (_ & _ & Hc). simpl. unfold Relay.step. simpl.
  rewrite Hpc, Hc. simpl.
  rewrite lookup_app_r, Nat.sub_diag by done. simpl.
  eexists. split; [done|]. simpl. split; [|done].
  rewrite list_lookup_insert_eq; [done|]. rewrite length_app. simpl. lia.
Qed.

(** A call made once the signal channel is closed panics at once. *)
Lemma Close_after_exit s :
  recv s = finished returned \/ recv s = finished panicked -> chans_ok s ->
  exists s', step s Close_called = Some s'
             /\ callers s' !! length (callers s) = Some send_panicked.
Proof.
  unfold chans_ok, chans_at, closed_once. intros Hpc Hok.
  assert (Go.closed (ch_closer s) = true) as Hc
    by (destruct Hpc as [Hpc|Hpc]; rewrite Hpc in Hok;
        by destruct Hok as (_ & _ & [? _])).
  unfold Relay.step. rewrite Hc.
  destruct (recv s); (eexists; split; [done|]); simpl;
    by rewrite lookup_app_r, Nat.sub_diag.
Qed.

(** *** The four properties of the relay *)

Lemma relay_closes_what_it_owns : closes_what_it_owns case_chunk.
Proof.
  split; [|split].
  - intros tr s why Hrun Hpc. apply chans_ok_run in Hrun.
    unfold chans_ok in Hrun. by rewrite Hpc in Hrun.
  - apply chans_frame.
  - intros tr s why Hrun Hpc. apply deferred_runs; [|done].
    by eapply chans_ok_run.
Qed.

Lemma relay_rendezvous : rendezvous case_chunk.
Proof.
  split; [|split; [|split; [|split]]].
  - apply handed_over_by_signal.
  - intros tr s i j Hrun. by apply (one_signal_run tr s Hrun).
  - intros tr s Hrun Hpc.
    destruct (Close_hands_over s) as (s' & ? & ? & _); [|done|eauto].
    by eapply chans_ok_run.
  - intros tr s tr' s' Hrun Hout Hrun' Hi.
    eapply no_return_after_exit in Hi; [|done..].
    apply lookup_lt_Some in Hi. lia.
  - intros tr s why tr' s' Hrun Hpc Hrun'.
    cbn [Relay.run] in Hrun'.
    destruct (Close_after_exit s) as (s1 & Hl & Hi).
    { destruct why; auto. }
    { by eapply chans_ok_run. }
    rewrite Hl in Hrun'. by eapply send_panicked_stays.
Qed.

Lemma relay_returns_on_signal : returns_on_signal case_chunk.
Proof.
  intros tr s Hrun Hpc.
  destruct (exit_cause_run tr s Hrun) as [(i&?&_)|(c&_&_&_&Hp)]; [|eauto|].
  - by destruct Hpc as [[k ->]| ->].
  - destruct Hpc as [[k Hk]|Hk], Hp as [[k' Hk']|Hk']; congruence.
Qed.

Lemma relay_outlives_its_source :
  (forall c, case_chunk c <> Panic) -> outlives_its_source case_chunk.
Proof.
  intros Hnp. split.
  - intros s Hpc Hclosed. split; [by apply step_zero_chunk|].
    unfold Relay.receive. simpl. specialize (Hnp None).
    by destruct (case_chunk None) as [[?|?]|].
  - intros tr s Hrun Hquiet.
    destruct (in_loop (recv s)) eqn:Hin; [done|].
    destruct (exit_cause_run tr s Hrun Hin) as [(i&Hi&_)|(c&_&Hc&_)].
    + rewrite Forall_forall in Hquiet. by specialize (Hquiet _ Hi).
    + by destruct (Hnp c).
Qed.

End facts.

(** *** The three flavours *)

Section flavours.
Context {Chunk Data Control Reader Command error : Type}.
Variable dp : @data.Parser Chunk Data error.
Variable cp : @control.Parser Chunk Control error.
Variable chunk_Data : Chunk -> list Byte.byte.
Variable bytes_NewReader : list Byte.byte -> Reader.
Variable np : @stream.Parser Reader Command error.

Lemma data_Recv_never_panics c : data.Recv_case_chunk dp c <> Panic.
Proof.
  unfold data.Recv_case_chunk. by destruct (data.Parse dp c) as [? [?|]].
Qed.

Lemma control_Recv_never_panics c : control.Recv_case_chunk cp c <> Panic.
Proof.
  unfold control.Recv_case_chunk. by destruct (control.Parse cp c) as [? [?|]].
Qed.

Lemma Listen_panics_on_nil_only c :
  is_Some c -> stream.Listen_case_chunk chunk_Data bytes_NewReader np c <> Panic.
Proof.
  intros [c' ->]. unfold stream.Listen_case_chunk.
  by destruct (stream.Parse np _) as [? [?|]].
Qed.

Lemma data_Recv_publishes c :
  message_of (data.Recv_case_chunk dp) c = succeeded (data.Parse dp c)
  /\ error_of (data.Recv_case_chunk dp) c = failed (data.Parse dp c).
Proof.
  unfold message_of, error_of, data.Recv_case_chunk, succeeded, failed.
  by destruct (data.Parse dp c) as [? [?|]].
Qed.

Lemma control_Recv_publishes c :
  message_of (control.Recv_case_chunk cp) c = succeeded (control.Parse cp c)
  /\ error_of (control.Recv_case_chunk cp) c = failed (control.Parse cp c).
Proof.
  unfold message_of, error_of, control.Recv_case_chunk, succeeded, failed.
  by destruct (control.Parse cp c) as [? [?|]].
Qed.

Lemma Listen_publishes c :
  let parsed := stream.Parse np (bytes_NewReader (chunk_Data c)) in
  message_of (stream.Listen_case_chunk chunk_Data bytes_NewReader np) (Some c)
  = succeeded parsed
  /\ error_of (stream.Listen_case_chunk chunk_Data bytes_NewReader np) (Some c)
     = failed parsed.
Proof.
  unfold message_of, error_of, stream.Listen_case_chunk, succeeded, failed.
  simpl. by destruct (stream.Parse np _) as [? [?|]].
Qed.

End flavours.
End RelayFacts.

(** ** The goroutines of the server *)

Module ServerFacts.
Import server.

Implicit Types (s : Server) (x : sys) (l : label) (tr : list label) (p : pc).

Lemma srv_run_keeps (I : sys -> Prop) :
  (forall x l x', I x -> step x l = Some x' -> I x') ->
  forall tr x x', I x -> run x tr = Some x' -> I x'.
Proof.
  intros Hstep. induction tr as [|l tr IH]; intros x x' Hx Hrun; simpl in Hrun.
  - by simplify_eq.
  - destruct (step x l) as [x1|] eqn:Hl; [|done]. eauto.
Qed.

(** *** Close and Release, case by case *)

Lemma with_socket_same s : with_socket (socket s) s = s.
Proof. by destruct s. Qed.

Lemma Close_cases s s' a :
  Close s = (s', a) ->
  (sock_closed (socket s) = true /\ s' = s /\ a = done (Some errClosing))
  \/ (sock_closed (socket s) = false /\ srv_state s <> accepting
      /\ s' = with_state closed (with_socket (closed_listener (socket s)) s)
      /\ a = done None)
  \/ (sock_closed (socket s) = false /\ srv_state s = accepting
      /\ s' = with_state closing (with_socket (closed_listener (socket s)) s)
      /\ a = parked).
Proof.
  unfold Close, TCPListener_Close, waitForState.
  destruct (sock_closed (socket s)) eqn:Hc; simpl.
  - rewrite with_socket_same. intros; simplify_eq. by left.
  - right. destruct (decide (srv_state s = accepting)) as [Hs|Hs].
    + right. rewrite decide_False in H by (intros Hne; by apply Hne).
      simpl in H. by simplify_eq.
    + left. rewrite decide_True in H by done. by simplify_eq.
Qed.

Lemma Release_cases now s s' a :
  Release now s = (s', a) ->
  (srv_state s <> accepting /\ s' = with_state closed s /\ a = done (socket s))
  \/ (srv_state s = accepting
      /\ s' = with_socket (TCPListener_SetDeadline now (socket s))
                         (with_state releasing s)
      /\ a = parked).
Proof.
  unfold Release, waitForState.
  destruct (decide (srv_state s = accepting)) as [Hs|Hs]; intros H.
  - right. rewrite decide_False in H by (intros Hne; by apply Hne).
    simpl in H. by simplify_eq.
  - left. rewrite decide_True in H by done. by simplify_eq.
Qed.

Lemma waitForState_returns expected s :
  waitForState expected s = returns <-> srv_state s = expected.
Proof. unfold waitForState. case_decide; naive_solver. Qed.

Lemma waitForState_waits expected s :
  waitForState expected s = waits <-> srv_state s <> expected.
Proof. unfold waitForState. case_decide; naive_solver. Qed.

(** Closes a goal whose hypotheses place a goroutine at two places. *)
Ltac elsewhere :=
  repeat match goal with
    | H : _ \/ _ |- _ => destruct H
    | H : _ /\ _ |- _ => destruct H
    | H : exists _, _ |- _ => destruct H
    end;
  congruence.

(** Every way [advance now s p = Some (s', p', woke)] can hold. *)
Ltac advance_cases H :=
  match type of H with
  | advance _ ?s ?p = Some _ =>
      unfold advance, setStateIf, setState, Close_resume, Release_resume,
        Accept_after in H;
      destruct p; simpl in H;
      repeat match type of H with
        | context [if ?b then _ else _] => destruct b eqn:?; simpl in H
        | context [match ?y with _ => _ end] => destruct y eqn:?; simpl in H
        end;
      try discriminate H;
      simplify_eq/=;
      repeat match goal with
        | E : bool_decide _ = true |- _ => apply bool_decide_eq_true in E
        | E : bool_decide _ = false |- _ => apply bool_decide_eq_false in E
        | E : waitForState _ _ = returns |- _ => apply waitForState_returns in E
        | E : waitForState _ _ = waits |- _ => apply waitForState_waits in E
        | E : Close _ = _ |- _ =>
            apply Close_cases in E as [(?&?&?)|[(?&?&?&?)|(?&?&?&?)]]
        | E : Release _ _ = _ |- _ =>
            apply Release_cases in E as [(?&?&?)|(?&?&?)]
        end;
      simplify_eq/=
  end.

(** Only a move of a goroutine on its own changes the server. *)
Lemma step_srv x l x' :
  step x l = Some x' ->
  srv x' = srv x
  \/ exists i p s' p' woke,
       l = go i /\ pool x !! i = Some p
       /\ advance (clock x) (srv x) p = Some (s', p', woke) /\ srv x' = s'
       /\ pool x' = <[i := p']> (if woke then Broadcast (pool x) else pool x).
Proof.
  intros Hl. destruct l; simpl in Hl.
  - left. by simplify_eq.
  - right. destruct (pool x !! i) as [p|] eqn:Hp; [|done]. simpl in Hl.
    destruct (advance (clock x) (srv x) p) as [[[s' p'] woke]|] eqn:Ha; [|done].
    simpl in Hl. simplify_eq. by eexists _, _, _, _, _.
  - left. repeat case_match; by simplify_eq.
  - left. repeat case_match; by simplify_eq.
  - left. repeat case_match; by simplify_eq.
Qed.

(** *** The state moves forward *)

Lemma to_closed v : rtc edge v closed.
Proof.
  destruct v.
  - do 3 (eapply rtc_l; [constructor|]). done.
  - do 2 (eapply rtc_l; [constructor|]). done.
  - eapply rtc_l; [constructor|]. done.
  - eapply rtc_l; [constructor|]. done.
  - done.
Qed.

Lemma from_closed v : rtc edge closed v -> v = closed.
Proof. inversion 1 as [|??? Hedge]; [done|inversion Hedge]. Qed.

Lemma advance_forward now s p s' p' woke :
  advance now s p = Some (s', p', woke) ->
  rtc edge (srv_state s) (srv_state s').
Proof.
  intros H. advance_cases H; try done; try apply to_closed;
    try (apply rtc_once; match goal with E : srv_state _ = _ |- _ => rewrite E end;
         constructor).
Qed.

Lemma step_forward x l x' :
  step x l = Some x' -> rtc edge (srv_state (srv x)) (srv_state (srv x')).
Proof.
  intros Hl. destruct (step_srv _ _ _ Hl) as [->|(i&p&s'&p'&woke&_&_&Ha&->&_)];
    [done|]. by eapply advance_forward.
Qed.

Lemma run_forward tr x x' :
  run x tr = Some x' -> rtc edge (srv_state (srv x)) (srv_state (srv x')).
Proof.
  revert x. induction tr as [|l tr IH]; intros x Hrun; simpl in Hrun.
  - by simplify_eq.
  - destruct (step x l) as [x1|] eqn:Hl; [|done].
    etrans; [by eapply step_forward|]. eauto.
Qed.

Lemma closed_for_good tr x x' :
  run x tr = Some x' -> srv_state (srv x) = closed -> srv_state (srv x') = closed.
Proof.
  intros Hrun Hc. apply run_forward in Hrun. rewrite Hc in Hrun.
  by apply from_closed.
Qed.

(** *** What the moves do to the listener and to the channels *)

Lemma SetDeadline_keeps now (l : TCPListener) :
  fd (TCPListener_SetDeadline now l) = fd l
  /\ sock_closed (TCPListener_SetDeadline now l) = sock_closed l.
Proof. unfold TCPListener_SetDeadline. by destruct (sock_closed l) eqn:?. Qed.

Lemma advance_frame now s p s' p' woke :
  advance now s p = Some (s', p', woke) ->
  fd (socket s') = fd (socket s)
  /\ clients s' = clients s /\ errs s' = errs s /\ release s' = release s
  /\ (sock_closed (socket s) = true -> sock_closed (socket s') = true)
  /\ (p <> Close_entry -> sock_closed (socket s') = sock_closed (socket s)).
Proof.
  intros H. advance_cases H; repeat split; try done;
    destruct (SetDeadline_keeps now (socket s)) as [? ?]; congruence.
Qed.

Lemma step_frame x l x' :
  step x l = Some x' ->
  fd (socket (srv x')) = fd (socket (srv x))
  /\ clients (srv x') = clients (srv x) /\ errs (srv x') = errs (srv x)
  /\ release (srv x') = release (srv x)
  /\ (sock_closed (socket (srv x)) = true -> sock_closed (socket (srv x')) = true)
  /\ (is_Close_entry x l = false ->
      sock_closed (socket (srv x')) = sock_closed (socket (srv x))).
Proof.
  intros Hl. destruct (step_srv _ _ _ Hl) as [->|(i&p&s'&p'&woke&->&Hp&Ha&->&_)];
    [done|].
  destruct (advance_frame _ _ _ _ _ _ Ha) as (?&?&?&?&?&Hc).
  repeat split; try done. simpl. rewrite Hp. intros Hne. apply Hc.
  by destruct p.
Qed.

(** The server closes none of its channels, and keeps its listener. *)
Lemma run_frame tr x x' :
  run x tr = Some x' ->
  fd (socket (srv x')) = fd (socket (srv x))
  /\ clients (srv x') = clients (srv x) /\ errs (srv x') = errs (srv x)
  /\ release (srv x') = release (srv x).
Proof.
  revert x. induction tr as [|l tr IH]; intros x Hrun; simpl in Hrun.
  - by simplify_eq.
  - destruct (step x l) as [x1|] eqn:Hl; [|done].
    destruct (step_frame _ _ _ Hl) as (?&?&?&?&_), (IH _ Hrun) as (?&?&?&?).
    repeat split; congruence.
Qed.

(** *** Broadcast and the pool *)

Lemma Broadcast_lookup ps i :
  Broadcast ps !! i
  = (fun p => match p with
              | Close_wait => Close_woken
              | Release_wait => Release_woken
              | _ => p
              end) <$> ps !! i.
Proof. unfold Broadcast. by rewrite list_lookup_fmap. Qed.

(** How goroutine [j] came to be where it was not before the move. *)
Lemma step_pool x l x' j q' :
  step x l = Some x' -> pool x' !! j = Some q' -> pool x !! j <> Some q' ->
  (exists m, l = calls m /\ q' = entry m /\ pool x !! j = None)
  \/ (exists q s' woke, l = go j /\ pool x !! j = Some q /\ srv x' = s'
                        /\ advance (clock x) (srv x) q = Some (s', q', woke))
  \/ (exists r, l = accept_returns j r /\ pool x !! j = Some Accept_loop
                 /\ ((exists c, q' = Accept_send c) \/ exists err, q' = Accept_handle err))
  \/ (l = taken j /\ (q' = Accept_loop \/ exists w kill, q' = Accept_sending w kill))
  \/ (q' = Close_woken /\ pool x !! j = Some Close_wait)
  \/ (q' = Release_woken /\ pool x !! j = Some Release_wait).
Proof.
  intros Hl Hj Hne. destruct l as [m|i|i r|i|d]; simpl in Hl.
  - simplify_eq/=. apply lookup_app_Some in Hj as [?|[? Hj]]; [done|].
    left. apply list_lookup_singleton_Some in Hj as [? <-].
    exists m. repeat split; try done. apply lookup_ge_None. lia.
  - destruct (pool x !! i) as [p|] eqn:Hp; [|done]. simpl in Hl.
    destruct (advance (clock x) (srv x) p) as [[[s' p'] woke]|] eqn:Ha; [|done].
    simpl in Hl. simplify_eq/=.
    destruct (decide (i = j)) as [->|Hij].
    + apply list_lookup_insert_Some in Hj as [(_&<-&_)|[? _]]; [|done].
      right; left. by eexists _, _, _.
    + rewrite list_lookup_insert_ne in Hj by done.
      destruct woke; [|done].
      rewrite Broadcast_lookup in Hj.
      destruct (pool x !! j) as [q|] eqn:Hq; [|done]. simpl in Hj.
      destruct q; simplify_eq/=; try done; auto 10.
  - destruct (pool x !! i) as [[]|] eqn:Hp; try done. simplify_eq/=.
    destruct (decide (i = j)) as [->|Hij].
    + apply list_lookup_insert_Some in Hj as [(_&<-&_)|[? _]]; [|done].
      do 2 right; left. exists r. destruct r; eauto 10.
    + by rewrite list_lookup_insert_ne in Hj by done.
  - destruct (decide (i = j)) as [->|Hij].
    + do 3 right; left. split; [done|].
      repeat case_match; simplify_eq/=;
        apply list_lookup_insert_Some in Hj as [(_&<-&_)|[? _]]; eauto; done.
    + repeat case_match; simplify_eq/=;
        by rewrite list_lookup_insert_ne in Hj by done.
  - case_decide; [|done]. by simplify_eq/=.
Qed.

(** *** Close returns nil only once the state is closed *)

Lemma waiting_closers_step x l x' :
  waiting_closers x -> step x l = Some x' -> waiting_closers x'.
Proof.
  intros Hx Hl j Hj.
  destruct (step_frame _ _ _ Hl) as (_&_&_&_&Hkeep&_).
  destruct (decide (sock_closed (socket (srv x)) = true)) as [|Hopen]; [auto|].
  assert (exists q', pool x' !! j = Some q' /\ (q' = Close_wait \/ q' = Close_woken))
    as (q' & Hq' & Hcase) by (destruct Hj; eauto).
  destruct (decide (pool x !! j = Some q')) as [Hsame|Hnew].
  { exfalso. apply Hopen, (Hx j). destruct Hcase; subst; auto. }
  destruct (step_pool _ _ _ _ _ Hl Hq' Hnew)
    as [(m&_&->&_)|[(q&s'&woke&_&Hq&Hs'&Ha)|[(r&_&_&Hr)|[(_&Ht)|[(_&?)|(->&_)]]]]].
  - destruct m, Hcase; done.
  - rewrite Hs'. clear Hs'. destruct Hcase; subst; advance_cases Ha; try done.
    exfalso. apply Hopen, (Hx j). auto.
  - elsewhere.
  - elsewhere.
  - exfalso. apply Hopen, (Hx j). auto.
  - by destruct Hcase.
Qed.

Lemma waiting_closers_run sock0 tr x :
  run (boot sock0) tr = Some x -> waiting_closers x.
Proof.
  apply (srv_run_keeps waiting_closers); [apply waiting_closers_step|].
  intros j. simpl. rewrite lookup_nil. by intros [?|?].
Qed.

Lemma Close_returns_nil x l x' j :
  waiting_closers x -> step x l = Some x' ->
  pool x' !! j = Some (Close_done None) -> pool x !! j <> Some (Close_done None) ->
  l = go j /\ srv_state (srv x') = closed
  /\ sock_closed (socket (srv x')) = true.
Proof.
  intros Hx Hl Hj Hnew.
  destruct (step_pool _ _ _ _ _ Hl Hj Hnew)
    as [(m&_&?&_)|[(q&s'&woke&->&Hq&Hs'&Ha)|[(r&_&_&Hr)|[(_&Ht)|[(?&_)|(?&_)]]]]];
    try done; try (by destruct m); try elsewhere.
  split; [done|]. rewrite Hs'. clear Hs'. advance_cases Ha; try done.
  split; [done|]. apply (Hx j). auto.
Qed.

(** *** Release returns the listener only once the state is closed *)





(** *** handleError inside the loop of Accept *)

Lemma with_locked_back s :
  locked s = false -> with_locked false (with_locked true s) = s.
Proof. destruct s. simpl. by intros ->. Qed.

Lemma sending_run w : forall x i kill,
  pool x !! i = Some (Accept_sending w kill) ->
  exists x', run x (replicate (length w) (taken i) ++ [go i]) = Some x'
             /\ pool x' = <[i := Accept_after kill]> (pool x)
             /\ feed_errs x' = feed_errs x ++ w
             /\ feed_clients x' = feed_clients x
             /\ srv x' = with_locked false (srv x).
Proof.
  induction w as [|v w IH]; intros x i kill Hi.
  - simpl. rewrite Hi. simpl. eexists. split; [done|]. simpl.
    by rewrite app_nil_r.
  - set (x1 := {| srv := srv x; pool := <[i := Accept_sending w kill]> (pool x);
                  clock := clock x; feed_clients := feed_clients x;
                  feed_errs := feed_errs x ++ [v] |}).
    assert (step x (taken i) = Some x1) as Hl by (simpl; by rewrite Hi).
    destruct (IH x1 i kill) as (x' & Hrun & Hp & Hf & Hc & Hs).
    { simpl. apply list_lookup_insert_eq. by eapply lookup_lt_Some. }
    exists x'. cbn [length replicate app run]. rewrite Hl, Hrun.
    simpl in *. rewrite Hp, Hf, Hc, Hs, <- app_assoc.
    by rewrite list_insert_insert_eq.
Qed.

(** From the lock to the end of handleError: the values it sends reach
    the error feed, in order, and the loop goes where [kill] says. *)
Lemma handleError_run x i err w kill :
  pool x !! i = Some (Accept_handle err) -> locked (srv x) = false ->
  handleError (srv x) err = (w, kill) ->
  exists x', run x (go i :: replicate (length w) (taken i) ++ [go i]) = Some x'
             /\ pool x' = <[i := Accept_after kill]> (pool x)
             /\ feed_errs x' = feed_errs x ++ w
             /\ feed_clients x' = feed_clients x
             /\ srv x' = srv x.
Proof.
  intros Hi Hfree Hw.
  set (x1 := {| srv := with_locked true (srv x);
                pool := <[i := Accept_sending w kill]> (pool x);
                clock := clock x; feed_clients := feed_clients x;
                feed_errs := feed_errs x |}).
  assert (step x (go i) = Some x1) as Hl.
  { simpl. rewrite Hi. simpl. by rewrite Hfree, Hw. }
  destruct (sending_run w x1 i kill) as (x' & Hrun & Hp & Hf & Hc & Hs).
  { simpl. apply list_lookup_insert_eq. by eapply lookup_lt_Some. }
  exists x'. cbn [run]. rewrite Hl, Hrun.
  simpl in *. rewrite Hp, Hf, Hc, Hs, list_insert_insert_eq.
  by rewrite with_locked_back.
Qed.

(** The classification on the sample errors. *)
Example handleError_on_samples :
  handleError (with_state accepting (NewSocket sample.listener)) sample.too_many_files
  = ([as_is sample.too_many_files], Ret false)
  /\ handleError (with_state closing (NewSocket sample.listener)) sample.use_of_closed
     = ([], Ret true)
  /\ handleError (with_state accepting (NewSocket sample.listener)) sample.use_of_closed
     = ([fatalError sample.use_of_closed], Ret true)
  /\ handleError (with_state releasing (NewSocket sample.listener)) sample.timeout
     = ([], Ret true)
  /\ handleError (with_state accepting (NewSocket sample.listener)) sample.timeout
     = ([as_is sample.timeout], Ret false).
Proof. repeat split; vm_compute; reflexivity. Qed.

End ServerFacts.

(** ** Moves of the server, one by one *)

Module ServerMoves.
Import server ServerFacts feeds.

Lemma srv_run_app x tr1 tr2 :
  run x (tr1 ++ tr2) = run x tr1 ≫= fun x' => run x' tr2.
Proof.
  revert x. induction tr1 as [|l tr1 IH]; intros x; simpl; [done|].
  destruct (step x l); simpl; auto.
Qed.

Lemma step_inv x l x' :
  step x l = Some x' ->
  (exists m, l = calls m /\ x' = with_pool (pool x ++ [entry m]) x)
  \/ (exists i p s' p' woke,
        l = go i /\ pool x !! i = Some p
        /\ advance (clock x) (srv x) p = Some (s', p', woke)
        /\ x' = {| srv := s';
                   pool := <[i := p']> (if woke then Broadcast (pool x) else pool x);
                   clock := clock x; feed_clients := feed_clients x;
                   feed_errs := feed_errs x |})
  \/ (exists i r,
        l = accept_returns i r /\ pool x !! i = Some Accept_loop
        /\ x' = with_pool (<[i := match r with
                                   | inl conn => Accept_send (client_New conn)
                                   | inr err => Accept_handle err
                                   end]> (pool x)) x)
  \/ (exists i c,
        l = taken i /\ pool x !! i = Some (Accept_send c)
        /\ x' = {| srv := srv x; pool := <[i := Accept_loop]> (pool x);
                   clock := clock x; feed_clients := feed_clients x ++ [c];
                   feed_errs := feed_errs x |})
  \/ (exists i v w kill,
        l = taken i /\ pool x !! i = Some (Accept_sending (v :: w) kill)
        /\ x' = {| srv := srv x; pool := <[i := Accept_sending w kill]> (pool x);
                   clock := clock x; feed_clients := feed_clients x;
                   feed_errs := feed_errs x ++ [v] |})
  \/ (exists d, l = tick d
                /\ x' = {| srv := srv x; pool := pool x; clock := (clock x + d)%Z;
                           feed_clients := feed_clients x;
                           feed_errs := feed_errs x |}).
Proof.
  intros Hl. destruct l as [m|i|i r|i|d]; simpl in Hl.
  - left. exists m. by simplify_eq.
  - right; left. destruct (pool x !! i) as [p|] eqn:Hp; [|done]. simpl in Hl.
    destruct (advance (clock x) (srv x) p) as [[[s' p'] woke]|] eqn:Ha; [|done].
    simpl in Hl. simplify_eq. by eexists _, _, _, _, _.
  - do 2 right; left. destruct (pool x !! i) as [[]|] eqn:Hp; try done.
    simplify_eq. by eexists _, _.
  - destruct (pool x !! i) as [[| | | |[|v w]| | | | | | | | | |]|] eqn:Hp;
      try done; simplify_eq.
    + do 3 right; left. by eexists _, _.
    + do 4 right; left. by eexists _, _, _, _.
  - do 5 right. case_decide; [|done]. simplify_eq. by eexists.
Qed.



Lemma handleError_close_signal s n :
  srv_state s = closing -> isNetCloseError (Some n) = Ret true ->
  handleError s (network n) = ([], Ret true).
Proof.
  intros Hst Hc. unfold handleError, isNetCloseError in *. simpl in *.
  rewrite Hst. simpl.
  destruct (strings_Contains (net_msg n) _); [done|discriminate Hc].
Qed.




(** The accept call fails with an error handleError takes for the signal
    of a shutdown: Accept ends without sending anything, its deferred
    setState(closed) broadcasts, and the callers waiting are woken. *)
Lemma shutdown_signal_ends_Accept x i err :
  pool x !! i = Some Accept_loop -> locked (srv x) = false ->
  handleError (srv x) err = ([], Ret true) ->
  exists x', run x [accept_returns i (inr err); go i; go i; go i] = Some x'
             /\ srv x' = setState closed (srv x)
             /\ pool x' !! i = Some (Accept_done returned)
             /\ (forall j, j <> i -> pool x' !! j = Broadcast (pool x) !! j)
             /\ feed_clients x' = feed_clients x
             /\ feed_errs x' = feed_errs x.
Proof.
  intros Hi Hfree Hw.
  set (x1 := with_pool (<[i := Accept_handle err]> (pool x)) x).
  assert (step x (accept_returns i (inr err)) = Some x1) as H1.
  { simpl. by rewrite Hi. }
  destruct (handleError_run x1 i err [] (Ret true)) as (x2 & H2 & Hp2 & He2 & Hc2 & Hs2);
    [apply list_lookup_insert_eq; by eapply lookup_lt_Some|exact Hfree|exact Hw|].
  cbn [length replicate app] in H2. simpl in Hp2, He2, Hc2, Hs2.
  rewrite list_insert_insert_eq in Hp2. rewrite app_nil_r in He2.
  assert (pool x2 !! i = Some (Accept_exit returned)) as Hi2.
  { rewrite Hp2. apply list_lookup_insert_eq. by eapply lookup_lt_Some. }
  assert (step x2 (go i)
          = Some {| srv := setState closed (srv x);
                    pool := <[i := Accept_done returned]> (Broadcast (pool x2));
                    clock := clock x2; feed_clients := feed_clients x2;
                    feed_errs := feed_errs x2 |}) as H3.
  { simpl. rewrite Hi2. simpl. by rewrite Hs2, Hfree. }
  assert (run x [accept_returns i (inr err); go i; go i; go i]
          = step x2 (go i)) as Hrun.
  { cbn [run] in H2 |- *. rewrite H1.
    destruct (step x1 (go i)) as [y|] eqn:Hy; [|done].
    destruct (step y (go i)) as [y'|] eqn:Hy'; [|done].
    injection H2 as ->. by destruct (step x2 (go i)). }
  rewrite Hrun, H3. eexists. split; [done|].
  simpl. rewrite He2, Hc2. repeat split; try done.
  - apply list_lookup_insert_eq. unfold Broadcast.
    rewrite length_fmap, Hp2, length_insert. by eapply lookup_lt_Some.
  - intros j Hj. rewrite list_lookup_insert_ne by done.
    rewrite !Broadcast_lookup, Hp2, list_lookup_insert_ne by done. done.
Qed.


Lemma woken_Close_returns x j :
  pool x !! j = Some Close_woken -> locked (srv x) = false ->
  srv_state (srv x) = closed ->
  exists x', step x (go j) = Some x' /\ srv x' = srv x
             /\ pool x' !! j = Some (Close_done None)
             /\ (forall i, i <> j -> pool x' !! i = pool x !! i)
             /\ feed_clients x' = feed_clients x /\ feed_errs x' = feed_errs x.
Proof.
  intros Hj Hfree Hst. simpl. rewrite Hj. simpl. rewrite Hfree.
  unfold Close_resume, waitForState. rewrite Hst. simpl.
  eexists. split; [done|]. simpl. repeat split; try done.
  - apply list_lookup_insert_eq. by eapply lookup_lt_Some.
  - intros i Hi. by rewrite list_lookup_insert_ne.
Qed.

End ServerMoves.


(** ** The streams *)

Module StreamClaims.
Import Relay RelayFacts.

Section streams.
Context {Chunk Data Control Reader Command error : Type}.
Variable dp : @data.Parser Chunk Data error.
Variable cp : @control.Parser Chunk Control error.
Variable chunk_Data : Chunk -> list Byte.byte.
Variable bytes_NewReader : list Byte.byte -> Reader.
Variable np : @stream.Parser Reader Command error.

Abbreviation data_Recv := (data.Recv_case_chunk dp).
Abbreviation control_Recv := (control.Recv_case_chunk cp).
Abbreviation Listen := (stream.Listen_case_chunk chunk_Data bytes_NewReader np).

(** C1. Along every run of Recv (data, control) and of Listen, the message
    feed holds, in arrival order, the message of each received chunk whose
    Parse returned a nil error, and the error feed the error of each chunk
    whose Parse failed, but for the one value the goroutine may still be
    blocked sending; when no send is pending the two feeds together have
    as many entries as chunks were received. After an error is taken the
    goroutine is back at its select. Every finite sequence of chunks can
    be delivered and served this way. For Listen the chunks are non-nil. *)
Theorem relay_publishes_each_chunk_once :
  (relays data_Recv (fun _ => True)
   /\ forall c, message_of data_Recv c = succeeded (data.Parse dp c)
                /\ error_of data_Recv c = failed (data.Parse dp c))
  /\ (relays control_Recv (fun _ => True)
      /\ forall c, message_of control_Recv c = succeeded (control.Parse cp c)
                   /\ error_of control_Recv c = failed (control.Parse cp c))
  /\ (relays Listen is_Some
      /\ forall c,
          let parsed := stream.Parse np (bytes_NewReader (chunk_Data c)) in
          message_of Listen (Some c) = succeeded parsed
          /\ error_of Listen (Some c) = failed parsed).
Proof.
  split; [|split]; split.
  - apply relays_unless_panic. intros c _. apply data_Recv_never_panics.
  - apply data_Recv_publishes.
  - apply relays_unless_panic. intros c _. apply control_Recv_never_panics.
  - apply control_Recv_publishes.
  - apply relays_unless_panic. apply Listen_panics_on_nil_only.
  - apply Listen_publishes.
Qed.

(** C2, as amended. When Recv or Listen ends, by its return or by a panic,
    s.in, s.errs and s.closer have each been closed, by one call of close
    each, and no move but the goroutine's own deferred closes touches
    them. The Server's Accept closes neither s.clients nor s.errs: both
    stay as NewSocket made them along every run. *)
Theorem owned_channels_closed_once :
  closes_what_it_owns data_Recv
  /\ closes_what_it_owns control_Recv
  /\ closes_what_it_owns Listen
  /\ (forall sock tr x,
        server.run (server.boot sock) tr = Some x ->
        server.clients (server.srv x) = Go.make
        /\ server.errs (server.srv x) = Go.make).
Proof.
  split; [|split; [|split]]; try apply relay_closes_what_it_owns.
  intros sock tr x Hrun.
  by destruct (ServerFacts.run_frame _ _ _ Hrun) as (_ & -> & -> & _).
Qed.

(** C5. Close() returns only in the move in which the loop, waiting in
    its select, receives the signal, and the loop receives one signal at
    most; a call made while the loop waits there can return; a call made
    after the loop was left never returns, and one made after the
    goroutine ended panics in its send on the closed channel. *)
Theorem Close_is_a_rendezvous :
  rendezvous data_Recv /\ rendezvous control_Recv /\ rendezvous Listen.
Proof. split; [|split]; apply relay_rendezvous. Qed.

(** C7, as amended. Recv and Listen leave their loop by a return only
    after receiving the close signal. A closed chunk channel does not end
    Recv: the receive yields a nil chunk, which is parsed and published
    like any other, and without a close signal the goroutine stays in its
    loop. *)
Theorem Recv_outlives_its_source :
  (returns_on_signal data_Recv /\ returns_on_signal control_Recv
   /\ returns_on_signal Listen)
  /\ outlives_its_source data_Recv
  /\ outlives_its_source control_Recv.
Proof.
  split; [split; [|split]; apply relay_returns_on_signal|].
  split; apply relay_outlives_its_source.
  - apply data_Recv_never_panics.
  - apply control_Recv_never_panics.
Qed.

End streams.

(** The example of the specification: chunks "ok1", "bad", "ok2". *)
Lemma relay_publishes_sample :
  (run sample.Recv NewStream sample.serving_run = Some sample.served
   /\ Forall (fun _ => True) (got sample.served))
  /\ got sample.served = [Some "ok1"; Some "bad"; Some "ok2"]
  /\ feed_in sample.served = ["ok1"; "ok2"]
  /\ feed_errs sample.served = ["cannot parse bad"]
  /\ length (feed_in sample.served) + length (feed_errs sample.served)
     = length (got sample.served).
Proof.
  assert (run sample.Recv NewStream sample.serving_run = Some sample.served)
    as Hrun by (vm_compute; reflexivity).
  assert (Forall (fun _ : Go.ptr string => True) (got sample.served))
    as Hgot by (by repeat constructor).
  split; [by split|].
  pose proof (proj1 (proj1 (proj1 (relay_publishes_each_chunk_once
                sample.data_parser sample.control_parser sample.chunk_Data id
                sample.command_parser)))
                sample.serving_run sample.served Hrun Hgot) as (Hin & Herr & Hlen & _).
  split; [reflexivity|]. split; [exact Hin|]. split; [exact Herr|].
  apply Hlen; reflexivity.
Defined.

(** C2: after NewSocket, Accept, an error that is not temporary and the
    return of Accept, the three channels of the server are still open. *)
Lemma Accept_ends_with_feeds_open :
  exists x,
    server.run (server.boot sample.listener)
      [server.calls server.Accept_method; server.go 0;
       server.accept_returns 0 (inr sample.broken); server.go 0;
       server.taken 0; server.go 0; server.go 0] = Some x
    /\ server.pool x = [server.Accept_done server.returned]
    /\ server.srv_state (server.srv x) = server.closed
    /\ server.feed_errs x = [server.fatalError sample.broken]
    /\ Go.closed (server.clients (server.srv x)) = false
    /\ Go.closed (server.errs (server.srv x)) = false
    /\ Go.closed (server.release (server.srv x)) = false.
Proof. eexists. split; [reflexivity|]. by repeat split. Qed.

Lemma owned_channels_sample :
  (run sample.Recv NewStream sample.closing_run = Some sample.ended
   /\ recv sample.ended = finished returned)
  /\ closed_once (ch_in sample.ended) /\ closed_once (ch_errs sample.ended)
  /\ closed_once (ch_closer sample.ended).
Proof.
  assert (run sample.Recv NewStream sample.closing_run = Some sample.ended)
    as Hrun by (vm_compute; reflexivity).
  split; [by split|].
  exact (proj1 (proj1 (owned_channels_closed_once
                  sample.data_parser sample.control_parser sample.chunk_Data id
                  sample.command_parser))
           sample.closing_run sample.ended returned Hrun eq_refl).
Defined.

Lemma Close_rendezvous_sample :
  (run sample.Recv NewStream sample.closing_run = Some sample.ended
   /\ recv sample.ended = finished returned)
  /\ forall tr' s', run sample.Recv sample.ended (Close_called :: tr') = Some s' ->
                    callers s' !! 1 = Some send_panicked.
Proof.
  assert (run sample.Recv NewStream sample.closing_run = Some sample.ended)
    as Hrun by (vm_compute; reflexivity).
  split; [by split|]. intros tr' s' Hrun'.
  exact (proj2 (proj2 (proj2 (proj2 (proj1 (Close_is_a_rendezvous
                  sample.data_parser sample.control_parser sample.chunk_Data id
                  sample.command_parser)))))
           sample.closing_run sample.ended returned tr' s' Hrun eq_refl Hrun').
Defined.

(** C7: the chunk channel of a data stream is closed and nobody calls
    Close(). Recv goes on receiving nil chunks, publishes what the parser
    makes of them, and never leaves its loop. *)
Lemma exhausted_source_does_not_end_Recv :
  exists s0,
    run sample.Recv NewStream [source_closes] = Some s0
    /\ chunks_closed s0 = true
    /\ (exists s1,
          run sample.Recv s0 [zero_chunk; errs_taken; zero_chunk; errs_taken]
          = Some s1
          /\ recv s1 = at_select
          /\ feed_errs s1 = ["nil chunk"; "nil chunk"]
          /\ Go.closed (ch_in s1) = false)
    /\ (forall tr s,
          run sample.Recv s0 tr = Some s ->
          Forall (fun l => is_signal l = false) tr ->
          in_loop (recv s) = true).
Proof.
  eexists. split; [reflexivity|]. split; [reflexivity|]. split.
  - eexists. split; [reflexivity|]. by repeat split.
  - intros tr s Hrun Hquiet.
    destruct (relay_outlives_its_source sample.Recv) as [_ Hstays].
    { apply data_Recv_never_panics. }
    apply (Hstays (source_closes :: tr)); [exact Hrun|].
    by constructor.
Qed.

Lemma Recv_outlives_sample :
  exists s,
    run sample.Recv NewStream [source_closes; zero_chunk; errs_taken] = Some s
    /\ in_loop (recv s) = true.
Proof.
  eexists. split; [reflexivity|].
  destruct (Recv_outlives_its_source sample.data_parser
              sample.control_parser sample.chunk_Data id sample.command_parser)
    as (_ & [_ Hstays] & _).
  eapply (Hstays [source_closes; zero_chunk; errs_taken]); [reflexivity|].
  by repeat constructor.
Defined.

End StreamClaims.

(** ** The server *)

Module ServerClaims.
Import server ServerFacts ServerMoves feeds.

(** C3. handleError on a network error, in a goroutine of Accept that is
    about to take the lock. If the state is releasing and the error is a
    timeout, or the state is closing and the error text says the
    connection was closed, nothing is sent on s.errs and Accept returns.
    Otherwise a temporary error is sent as it is and the loop goes on,
    and any other network error is sent once, wrapped as a fatalError
    whose IsFatal() is true, and Accept returns. *)
Theorem handleError_classifies (x : sys) (i : nat) (n : net_Error) :
  pool x !! i = Some (Accept_handle (network n)) ->
  locked (srv x) = false ->
  let err := network n in
  let shutdown :=
    (srv_state (srv x) = releasing /\ Timeout n = true)
    \/ (srv_state (srv x) = closing
        /\ strings_Contains (net_msg n) "use of closed network connection" = true) in
  (shutdown ->
   handleError (srv x) err = ([], Ret true)
   /\ exists x', run x [go i; go i] = Some x'
                 /\ pool x' !! i = Some (Accept_exit returned)
                 /\ feed_errs x' = feed_errs x)
  /\ (~ shutdown -> Temporary n = true ->
      handleError (srv x) err = ([as_is err], Ret false)
      /\ IsFatal (as_is err) = false
      /\ exists x', run x [go i; taken i; go i] = Some x'
                    /\ pool x' !! i = Some Accept_loop
                    /\ feed_errs x' = feed_errs x ++ [as_is err])
  /\ (~ shutdown -> Temporary n = false ->
      handleError (srv x) err = ([fatalError err], Ret true)
      /\ IsFatal (fatalError err) = true
      /\ exists x', run x [go i; taken i; go i] = Some x'
                    /\ pool x' !! i = Some (Accept_exit returned)
                    /\ feed_errs x' = feed_errs x ++ [fatalError err]).
Proof.
  intros Hi Hfree err shutdown.
  assert (forall w kill, handleError (srv x) err = (w, kill) ->
            exists x', run x (go i :: replicate (length w) (taken i) ++ [go i]) = Some x'
                       /\ pool x' !! i = Some (Accept_after kill)
                       /\ feed_errs x' = feed_errs x ++ w) as Hrun.
  { intros w kill Hw.
    destruct (handleError_run x i err w kill Hi Hfree Hw) as (x' & ? & Hp & ? & _).
    exists x'. repeat split; [done| |done].
    rewrite Hp. apply list_lookup_insert_eq. by eapply lookup_lt_Some. }
  assert (handleError (srv x) err
          = if bool_decide (srv_state (srv x) = releasing) && Timeout n then ([], Ret true)
            else if bool_decide (srv_state (srv x) = closing)
                    && strings_Contains (net_msg n) "use of closed network connection"
                 then ([], Ret true)
                 else if Temporary n then ([as_is err], Ret false)
                      else ([fatalError err], Ret true)) as Hcode.
  { unfold handleError, isNetCloseError. simpl.
    destruct (bool_decide (srv_state (srv x) = releasing)), (Timeout n); simpl;
      try done;
      destruct (bool_decide (srv_state (srv x) = closing)),
               (strings_Contains (net_msg n) _); simpl; try done;
      by destruct (Temporary n). }
  assert (shutdown <->
          bool_decide (srv_state (srv x) = releasing) && Timeout n = true
          \/ bool_decide (srv_state (srv x) = closing)
             && strings_Contains (net_msg n) "use of closed network connection" = true)
    as Hshut.
  { unfold shutdown. rewrite !andb_true_iff, !bool_decide_eq_true. done. }
  split; [|split].
  - intros Hs. apply Hshut in Hs.
    assert (handleError (srv x) err = ([], Ret true)) as Hw.
    { rewrite Hcode. destruct Hs as [-> | Hs]; [done|]. rewrite Hs.
      by destruct (_ && Timeout n). }
    split; [done|]. destruct (Hrun _ _ Hw) as (x' & ? & ? & ?).
    exists x'. by rewrite app_nil_r in *.
  - intros Hs Htmp. rewrite Hshut in Hs.
    assert (handleError (srv x) err = ([as_is err], Ret false)) as Hw.
    { rewrite Hcode, Htmp.
      destruct (_ && Timeout n) eqn:?; [by destruct Hs; left|].
      destruct (_ && strings_Contains _ _) eqn:?; [by destruct Hs; right|]. done. }
    split; [done|]. split; [done|]. by destruct (Hrun _ _ Hw) as (x' & ? & ? & ?); eauto.
  - intros Hs Htmp. rewrite Hshut in Hs.
    assert (handleError (srv x) err = ([fatalError err], Ret true)) as Hw.
    { rewrite Hcode, Htmp.
      destruct (_ && Timeout n) eqn:?; [by destruct Hs; left|].
      destruct (_ && strings_Contains _ _) eqn:?; [by destruct Hs; right|]. done. }
    split; [done|]. split; [done|]. by destruct (Hrun _ _ Hw) as (x' & ? & ? & ?); eauto.
Qed.

Lemma handleError_classifies_sample :
  (pool sample.releasing_server !! 0 = Some (Accept_handle sample.timeout)
   /\ locked (srv sample.releasing_server) = false)
  /\ exists x', run sample.releasing_server [go 0; go 0] = Some x'
                /\ pool x' !! 0 = Some (Accept_exit returned)
                /\ feed_errs x' = [].
Proof.
  split; [done|].
  destruct (handleError_classifies sample.releasing_server 0 _ eq_refl eq_refl)
    as (Hshutdown & _).
  destruct Hshutdown as (_ & Hrun); [by left|]. exact Hrun.
Defined.




(** C4, as amended. Along every run of Accept, Close and Release calls the
    state only moves forward along the edges of the diagram, and once
    closed it stays closed. Release called in a state other than accepting
    sets the state to closed, and so does Close when closing the listener
    succeeds; a Close whose listener fails to close leaves the state as it
    found it. *)
Theorem state_moves_forward :
  (forall x l x', step x l = Some x' ->
                  rtc edge (srv_state (srv x)) (srv_state (srv x')))
  /\ (forall x tr x', run x tr = Some x' ->
                      rtc edge (srv_state (srv x)) (srv_state (srv x')))
  /\ (forall x tr x', run x tr = Some x' -> srv_state (srv x) = closed ->
                      srv_state (srv x') = closed)
  /\ (forall now s, srv_state s <> accepting ->
                    Release now s = (with_state closed s, done (socket s)))
  /\ (forall s, srv_state s <> accepting -> sock_closed (socket s) = false ->
                srv_state (Close s).1 = closed /\ (Close s).2 = done None)
  /\ (forall s err, (TCPListener_Close (socket s)).2 = Some err ->
                    srv_state (Close s).1 = srv_state s).
Proof.
  split; [|split; [|split; [|split; [|split]]]].
  - apply step_forward.
  - intros x tr x'. apply run_forward.
  - intros x tr x'. apply closed_for_good.
  - intros now s Hs. destruct (Release now s) as [s' a] eqn:HR.
    by apply Release_cases in HR as [(_&->&->)|(?&_)].
  - intros s Hs Hopen. destruct (Close s) as [s' a] eqn:HC.
    apply Close_cases in HC as [(?&_)|[(_&_&->&->)|(_&?&_)]]; [congruence|done|done].
  - intros s err Herr. destruct (Close s) as [s' a] eqn:HC.
    unfold TCPListener_Close in Herr.
    destruct (sock_closed (socket s)) eqn:Hc; [|done].
    by apply Close_cases in HC as [(_&->&_)|[(?&_)|(?&_)]]; [|congruence..].
Qed.

(** C4: Accept is running and a first Close has set the state to closing
    and waits. A second Close finds the listener closed: it returns the
    error and the state is still closing, not closed. *)
Lemma second_Close_leaves_state_closing :
  exists x x',
    run (boot sample.listener)
      [calls Accept_method; go 0; calls Close_method; go 1; calls Close_method]
    = Some x
    /\ pool x = [Accept_loop; Close_wait; Close_entry]
    /\ srv_state (srv x) = closing
    /\ step x (go 2) = Some x'
    /\ pool x' = [Accept_loop; Close_wait; Close_done (Some errClosing)]
    /\ srv_state (srv x') = closing.
Proof. eexists _, _. split; [reflexivity|]. by repeat split. Qed.

Lemma state_moves_forward_sample :
  run (boot sample.listener) sample.release_run = Some sample.released
  /\ srv_state (srv sample.released) = closed
  /\ rtc edge idle (srv_state (srv sample.released)).
Proof.
  assert (run (boot sample.listener) sample.release_run = Some sample.released)
    as Hrun by (vm_compute; reflexivity).
  split; [done|]. split; [reflexivity|].
  exact (proj1 (proj2 state_moves_forward)
           (boot sample.listener) sample.release_run sample.released Hrun).
Defined.




(** C9, as amended. Close first closes the listener. When that succeeds
    it sets the state to closed and returns nil if the state was not
    accepting, and sets it to closing and waits if it was; a Close returns
    nil only in a move after which the state is closed and the listener
    is closed. The Close that waits does return: while the state is
    closing, the accept call failing on the closed listener makes Accept
    end without sending anything, its deferred setState(closed) wakes the
    Close, and the Close returns nil. When the listener is already closed,
    as after an earlier Close, the call returns the listener's error and
    changes nothing. *)
Theorem Close_closes_listener_then_waits :
  (forall s,
      sock_closed (socket s) = false ->
      sock_closed (socket (Close s).1) = true
      /\ (srv_state s <> accepting ->
          Close s = (with_state closed (with_socket (closed_listener (socket s)) s),
                     done None))
      /\ (srv_state s = accepting ->
          Close s = (with_state closing (with_socket (closed_listener (socket s)) s),
                     parked)))
  /\ (forall sock tr x l x' j,
        run (boot sock) tr = Some x -> step x l = Some x' ->
        pool x' !! j = Some (Close_done None) ->
        pool x !! j <> Some (Close_done None) ->
        l = go j /\ srv_state (srv x') = closed
        /\ sock_closed (socket (srv x')) = true)
  /\ (forall x i j n,
        pool x !! i = Some Accept_loop -> pool x !! j = Some Close_wait ->
        srv_state (srv x) = closing -> locked (srv x) = false ->
        isNetCloseError (Some n) = Ret true ->
        exists x',
          run x [accept_returns i (inr (network n)); go i; go i; go i; go j]
          = Some x'
          /\ pool x' !! i = Some (Accept_done returned)
          /\ pool x' !! j = Some (Close_done None)
          /\ srv x' = with_state closed (srv x)
          /\ feed_clients x' = feed_clients x /\ feed_errs x' = feed_errs x)
  /\ (forall s,
        sock_closed (socket s) = true -> Close s = (s, done (Some errClosing))).
Proof.
  split; [|split; [|split]].
  - intros s Hopen. destruct (Close s) as [s' a] eqn:HC.
    apply Close_cases in HC as [(?&_)|[(_&?&->&->)|(_&?&->&->)]];
      [congruence|by repeat split..].
  - intros sock tr x l x' j Hrun. apply Close_returns_nil.
    by eapply waiting_closers_run.
  - intros x i j n Hi Hj Hst Hfree Hc.
    assert (j <> i) as Hji by congruence.
    destruct (shutdown_signal_ends_Accept x i (network n) Hi Hfree)
      as (x3 & Hrun & Hs3 & Hi3 & Hothers & Hc3 & He3);
      [by apply handleError_close_signal|].
    destruct (woken_Close_returns x3 j)
      as (x4 & Hstep & Hs4 & Hj4 & Hothers4 & Hc4 & He4).
    { by rewrite Hothers, Broadcast_lookup, Hj. }
    { by rewrite Hs3. }
    { by rewrite Hs3. }
    exists x4.
    change [accept_returns i (inr (network n)); go i; go i; go i; go j]
      with ([accept_returns i (inr (network n)); go i; go i; go i] ++ [go j]).
    rewrite srv_run_app, Hrun. cbn [mbind option_bind run]. rewrite Hstep.
    rewrite Hothers4, Hj4, Hs4, Hs3, Hc4, He4 by done. by repeat split.
  - intros s Hclosed. destruct (Close s) as [s' a] eqn:HC.
    by apply Close_cases in HC as [(_&->&->)|[(?&_)|(?&_)]]; [|congruence..].
Qed.

(** C9: Close is called twice on a server that never ran Accept. The
    first call returns nil; the second returns an error, the listener
    being closed already. *)
Lemma second_Close_fails :
  exists x,
    run (boot sample.listener) [calls Close_method; go 0; calls Close_method; go 1]
    = Some x
    /\ pool x = [Close_done None; Close_done (Some errClosing)]
    /\ srv_state (srv x) = closed
    /\ sock_closed (socket (srv x)) = true.
Proof. eexists. split; [reflexivity|]. by repeat split. Qed.

Lemma Close_sample :
  ((sock_closed (socket (NewSocket sample.listener)) = false
    /\ srv_state (NewSocket sample.listener) <> accepting)
   /\ Close (NewSocket sample.listener) = (sample.closed_server, done None))
  /\ (run (boot sample.listener) scenes.Close_meets_Accept
       = Some scenes.Close_parked
      /\ pool scenes.Close_parked = [Accept_loop; Close_wait]
      /\ srv_state (srv scenes.Close_parked) = closing
      /\ locked (srv scenes.Close_parked) = false)
  /\ exists x',
       run scenes.Close_parked
         [accept_returns 0 (inr sample.use_of_closed); go 0; go 0; go 0; go 1]
       = Some x'
       /\ pool x' !! 0 = Some (Accept_done returned)
       /\ pool x' !! 1 = Some (Close_done None)
       /\ srv x' = with_state closed (srv scenes.Close_parked)
       /\ feed_clients x' = [] /\ feed_errs x' = [].
Proof.
  split; [split; [done|]|split; [by repeat split|]].
  - destruct Close_closes_listener_then_waits as (Hfirst & _).
    destruct (Hfirst (NewSocket sample.listener)) as (_ & Hidle & _); [done|].
    by apply Hidle.
  - exact (proj1 (proj2 (proj2 Close_closes_listener_then_waits))
             scenes.Close_parked 0 1
             {| net_msg := "accept tcp 127.0.0.1:1935: use of closed network connection";
                Timeout := false; Temporary := false |}
             eq_refl eq_refl eq_refl eq_refl eq_refl).
Defined.

(** C10. When closing the listener fails, Close returns that error at
    once: the server, its state included, is as it was, and the goroutine
    is done in the one move, without waiting. *)
Theorem Close_returns_the_listener_error (s : Server) (err : error) :
  (TCPListener_Close (socket s)).2 = Some err ->
  Close s = (s, done (Some err))
  /\ forall x i,
      srv x = s -> locked s = false -> pool x !! i = Some Close_entry ->
      exists x', step x (go i) = Some x' /\ srv x' = s
                 /\ pool x' !! i = Some (Close_done (Some err)).
Proof.
  intros Herr.
  assert (Close s = (s, done (Some err))) as HC.
  { unfold TCPListener_Close in Herr.
    destruct (sock_closed (socket s)) eqn:Hc; [|done]. simpl in Herr.
    simplify_eq. destruct (Close s) as [s' a] eqn:HC.
    by apply Close_cases in HC as [(_&->&->)|[(?&_)|(?&_)]]; [|congruence..]. }
  split; [done|]. intros x i <- Hfree Hi. simpl. rewrite Hi. simpl.
  rewrite Hfree, HC. simpl. eexists. split; [done|]. split; [done|]. simpl.
  apply list_lookup_insert_eq. by eapply lookup_lt_Some.
Qed.

Lemma Close_error_sample :
  (TCPListener_Close (socket sample.closed_server)).2 = Some errClosing
  /\ Close sample.closed_server = (sample.closed_server, done (Some errClosing)).
Proof.
  split; [done|].
  by destruct (Close_returns_the_listener_error sample.closed_server errClosing)
    as [HC _].
Defined.

End ServerClaims.

(** ** More on the server *)

Module ServerExtras.
Import server ServerFacts ServerMoves feeds.

Implicit Types (s : Server) (x : sys) (l : label) (tr : list label) (p q : pc).

Lemma back_to_idle v w : rtc edge v w -> w = idle -> v = idle.
Proof.
  induction 1 as [|v v' w Hedge _ IH]; [done|].
  intros Hw. specialize (IH Hw). subst. inversion Hedge.
Qed.

Lemma idle_before x l x' :
  step x l = Some x' -> srv_state (srv x') = idle -> srv_state (srv x) = idle.
Proof. intros Hl. apply back_to_idle. by eapply step_forward. Qed.

Lemma Broadcast_inside ps j q' :
  Broadcast ps !! j = Some q' -> inside_Accept q' = true ->
  ps !! j = Some q'.
Proof.
  rewrite Broadcast_lookup. destruct (ps !! j) as [q|]; [|done].
  simpl. intros ? Hq'. simplify_eq. by destruct q.
Qed.

(** A goroutine is inside Accept after a move if it was before, or if it
    has just entered, finding the state idle. *)
Lemma step_inside x l x' j q' :
  step x l = Some x' -> pool x' !! j = Some q' -> inside_Accept q' = true ->
  (exists q, pool x !! j = Some q /\ inside_Accept q = true)
  \/ (srv_state (srv x) = idle /\ pool x !! j = Some Accept_entry /\ l = go j
      /\ srv_state (srv x') = accepting).
Proof.
  intros Hl Hj Hin. destruct l as [m|i|i r|i|d]; simpl in Hl.
  - simplify_eq/=. apply lookup_app_Some in Hj as [?|[? Hj]]; [eauto|].
    apply list_lookup_singleton_Some in Hj as [? <-]. by destruct m.
  - destruct (pool x !! i) as [p|] eqn:Hp; [|done]. simpl in Hl.
    destruct (advance (clock x) (srv x) p) as [[[s' p'] woke]|] eqn:Ha; [|done].
    simpl in Hl. simplify_eq/=.
    destruct (decide (i = j)) as [->|Hij].
    + apply list_lookup_insert_Some in Hj as [(_&<-&_)|[? _]]; [|done].
      advance_cases Ha; try done; eauto 10.
    + rewrite list_lookup_insert_ne in Hj by done.
      left. exists q'. split; [|done].
      destruct woke; [by apply Broadcast_inside|done].
  - destruct (pool x !! i) as [[]|] eqn:Hp; try done. simplify_eq/=.
    destruct (decide (i = j)) as [->|Hij]; [eauto|].
    rewrite list_lookup_insert_ne in Hj by done. eauto.
  - destruct (decide (i = j)) as [->|Hij].
    + left. destruct (pool x !! j) as [[]|] eqn:Hp; try done; eauto.
    + repeat case_match; simplify_eq/=;
        rewrite list_lookup_insert_ne in Hj by done; eauto.
  - case_decide; [|done]. simplify_eq/=. eauto.
Qed.

Lemma one_loop_step x l x' :
  one_loop x -> step x l = Some x' -> one_loop x'.
Proof.
  intros [Hidle Hone] Hl. split.
  - intros Hst i p Hi. destruct (inside_Accept p) eqn:Hin; [|done].
    pose proof (idle_before _ _ _ Hl Hst) as Hst0.
    destruct (step_inside _ _ _ _ _ Hl Hi Hin) as [(q&Hq&Hqin)|(_&_&_&?)];
      [|congruence].
    by rewrite (Hidle Hst0 _ _ Hq) in Hqin.
  - intros i j p q Hi Hj Hp Hq.
    destruct (step_inside _ _ _ _ _ Hl Hi Hp) as [(p0&Hp0&Hp0in)|(Hst&_&_&_)],
             (step_inside _ _ _ _ _ Hl Hj Hq) as [(q0&Hq0&Hq0in)|(Hst'&_&Hgo&_)].
    + eauto.
    + by rewrite (Hidle Hst' _ _ Hp0) in Hp0in.
    + by rewrite (Hidle Hst _ _ Hq0) in Hq0in.
    + destruct (step_inside _ _ _ _ _ Hl Hi Hp) as [(p0&Hp0&Hp0in)|(_&_&Hgo'&_)].
      * by rewrite (Hidle Hst _ _ Hp0) in Hp0in.
      * congruence.
Qed.

Lemma one_loop_run sock tr x :
  run (boot sock) tr = Some x -> one_loop x.
Proof.
  apply (srv_run_keeps one_loop); [apply one_loop_step|].
  split.
  - intros _ i p. simpl. by rewrite lookup_nil.
  - intros i j p q. simpl. by rewrite lookup_nil.
Qed.

(** *** The pool, summed up goroutine by goroutine *)

Section in_hand.
Context {A : Type}.
Variable h : pc -> list A.

Lemma bind_nothing (ps : list pc) :
  (forall j q, ps !! j = Some q -> h q = []) -> ps ≫= h = [].
Proof.
  induction ps as [|q ps IH]; intros Hnone; [done|].
  rewrite bind_cons, (Hnone 0 q) by done. apply IH.
  intros j q' Hj. by apply (Hnone (S j) q').
Qed.

Lemma bind_insert_same (ps : list pc) i p p' :
  ps !! i = Some p -> h p = h p' -> <[i := p']> ps ≫= h = ps ≫= h.
Proof.
  revert i. induction ps as [|q ps IH]; intros [|i] Hi Hh; try done.
  - simpl in Hi. simplify_eq. change (<[0:=p']> (p :: ps)) with (p' :: ps).
    by rewrite !bind_cons, Hh.
  - change (<[S i:=p']> (q :: ps)) with (q :: <[i:=p']> ps).
    rewrite !bind_cons. f_equal. by apply IH.
Qed.

Lemma bind_insert_only (ps : list pc) i p' :
  i < length ps ->
  (forall j q, j <> i -> ps !! j = Some q -> h q = []) ->
  <[i := p']> ps ≫= h = h p'.
Proof.
  revert i. induction ps as [|q ps IH]; intros [|i] Hi Hothers; simpl in Hi;
    try lia.
  - change (<[0:=p']> (q :: ps)) with (p' :: ps). rewrite bind_cons.
    rewrite bind_nothing; [by rewrite app_nil_r|].
    intros j q' Hj. by apply (Hothers (S j) q').
  - change (<[S i:=p']> (q :: ps)) with (q :: <[i:=p']> ps).
    rewrite bind_cons, (Hothers 0 q) by done. apply IH; [lia|].
    intros j q' Hj Hq. apply (Hothers (S j) q'); [lia|done].
Qed.

Lemma bind_only (ps : list pc) i p :
  ps !! i = Some p ->
  (forall j q, j <> i -> ps !! j = Some q -> h q = []) ->
  ps ≫= h = h p.
Proof.
  intros Hi Hothers. rewrite <- (list_insert_id ps i p Hi) at 1.
  apply bind_insert_only; [by eapply lookup_lt_Some|done].
Qed.

Lemma bind_Broadcast (ps : list pc) :
  h Close_wait = h Close_woken -> h Release_wait = h Release_woken ->
  Broadcast ps ≫= h = ps ≫= h.
Proof.
  intros HC HR. induction ps as [|q ps IH]; [done|].
  change (Broadcast (q :: ps)) with
    (match q with
     | Close_wait => Close_woken
     | Release_wait => Release_woken
     | _ => q
     end :: Broadcast ps).
  rewrite !bind_cons, IH. f_equal. by destruct q.
Qed.

End in_hand.

Lemma bind_insert_sublist {A} (h : pc -> list A) (ps : list pc) i p p' :
  ps !! i = Some p -> h p' `sublist_of` h p ->
  <[i := p']> ps ≫= h `sublist_of` ps ≫= h.
Proof.
  revert i. induction ps as [|q ps IH]; intros [|i] Hi Hh; try done.
  - simpl in Hi. simplify_eq. change (<[0:=p']> (p :: ps)) with (p' :: ps).
    rewrite !bind_cons. by apply sublist_app.
  - change (<[S i:=p']> (q :: ps)) with (q :: <[i:=p']> ps).
    rewrite !bind_cons. apply sublist_app; [done|]. by apply IH.
Qed.

(** *** Every move, spelled out *)

Lemma handleError_shape s err w kill :
  handleError s err = (w, kill) ->
  w = [] \/ w = [as_is err] \/ (w = [fatalError err] /\ kill = Ret true).
Proof.
  unfold handleError, isNetCloseError. destruct err as [msg|n]; simpl.
  - destruct (bool_decide (srv_state s = releasing)),
             (bool_decide (srv_state s = closing)); simpl;
      intros; simplify_eq; auto.
  - destruct (bool_decide (srv_state s = releasing)), (Timeout n); simpl;
      try (intros; simplify_eq; by auto);
      destruct (bool_decide (srv_state s = closing)),
               (strings_Contains (net_msg n) _); simpl;
      try (intros; simplify_eq; by auto);
      destruct (Temporary n); simpl; intros; simplify_eq; auto.
Qed.

(** What a move of a goroutine on its own does to what it has in hand. *)
Lemma advance_in_hand now s p s' p' woke :
  advance now s p = Some (s', p', woke) ->
  clients_in_hand p = [] /\ clients_in_hand p' = []
  /\ errors_in_hand p' `sublist_of` errors_in_hand p.
Proof.
  intros Ha. advance_cases Ha; repeat split; simpl; try done;
    try apply sublist_nil_l.
  match goal with H : handleError _ _ = _ |- _ =>
    destruct (handleError_shape _ _ _ _ H) as [->|[->|[-> _]]] end;
    simpl; [apply sublist_nil_l|done|done].
Qed.

(** *** Once the loop is over *)

Lemma loop_over_step x l x' :
  loop_over x -> step x l = Some x' ->
  loop_over x' /\ feed_clients x' = feed_clients x /\ feed_errs x' = feed_errs x.
Proof.
  intros [Hst Hnone] Hl. split; [split|].
  - intros Hst'. by apply Hst, (idle_before _ _ _ Hl).
  - intros j q' Hj. destruct (inside_Accept q') eqn:Hin; [|done].
    destruct (step_inside _ _ _ _ _ Hl Hj Hin) as [(q&Hq&Hqin)|(?&_)]; [|done].
    by rewrite (Hnone _ _ Hq) in Hqin.
  - destruct (step_inv _ _ _ Hl)
      as [(m&_&->)|[(i&p&s'&p'&w&_&_&_&->)|[(i&r&_&_&->)|[(i&c&_&Hi&_)
          |[(i&v&w&k&_&Hi&_)|(d&_&->)]]]]]; try done;
      by specialize (Hnone _ _ Hi).
Qed.

Lemma loop_over_run tr : forall x x',
  loop_over x -> run x tr = Some x' ->
  loop_over x' /\ feed_clients x' = feed_clients x /\ feed_errs x' = feed_errs x.
Proof.
  induction tr as [|l tr IH]; intros x x' Hx Hrun; simpl in Hrun.
  - by simplify_eq.
  - destruct (step x l) as [x1|] eqn:Hl; [|done].
    destruct (loop_over_step _ _ _ Hx Hl) as (Hx1 & <- & <-). eauto.
Qed.

(** *** Clients and errors, in the order of the accept call *)

Lemma inside_others x i p :
  one_loop x -> pool x !! i = Some p -> inside_Accept p = true ->
  forall j q, j <> i -> pool x !! j = Some q -> inside_Accept q = false.
Proof.
  intros [_ Hone] Hi Hp j q Hne Hj. destruct (inside_Accept q) eqn:Hq; [|done].
  destruct Hne. eauto.
Qed.

Lemma clients_step x l x' :
  one_loop x -> step x l = Some x' ->
  feed_clients x' ++ owed_clients x'
  = (feed_clients x ++ owed_clients x)
    ++ (client_New <$> from_option (fun c => [c]) [] (accepted_conn l)).
Proof.
  intros Hone Hl. unfold owed_clients.
  destruct (step_inv _ _ _ Hl)
    as [(m&->&->)|[(i&p&s'&p'&w&->&Hi&Ha&->)|[(i&r&->&Hi&->)|[(i&c&->&Hi&->)
        |[(i&v&w&k&->&Hi&->)|(d&->&->)]]]]]; simpl.
  - rewrite bind_app, !app_nil_r. f_equal.
    destruct m; simpl; by rewrite app_nil_r.
  - rewrite app_nil_r. f_equal.
    destruct (advance_in_hand _ _ _ _ _ _ Ha) as (Hp & Hp' & _).
    destruct w.
    + rewrite <- (bind_Broadcast clients_in_hand (pool x)) by done.
      apply (bind_insert_same _ _ _ (match p with
                                     | Close_wait => Close_woken
                                     | Release_wait => Release_woken
                                     | _ => p
                                     end)); [|by destruct p].
      by rewrite Broadcast_lookup, Hi.
    + apply (bind_insert_same _ _ _ p); [done|congruence].
  - assert (pool x ≫= clients_in_hand = []) as Hnone.
    { rewrite (bind_only _ _ i Accept_loop); [done|done|].
      intros j q Hne Hj.
      pose proof (inside_others _ _ _ Hone Hi eq_refl j q Hne Hj). by destruct q. }
    rewrite Hnone, app_nil_r. destruct r as [conn|err]; simpl.
    + f_equal. rewrite (bind_insert_only clients_in_hand);
        [done|by eapply lookup_lt_Some|].
      intros j q Hne Hj.
      pose proof (inside_others _ _ _ Hone Hi eq_refl j q Hne Hj). by destruct q.
    + by rewrite (bind_insert_same clients_in_hand _ _ Accept_loop), Hnone.
  - rewrite app_nil_r, <- app_assoc. f_equal.
    assert (forall j q, j <> i -> pool x !! j = Some q -> clients_in_hand q = [])
      as Hothers.
    { intros j q Hne Hj.
      pose proof (inside_others _ _ _ Hone Hi eq_refl j q Hne Hj). by destruct q. }
    rewrite (bind_only clients_in_hand (pool x) i (Accept_send c) Hi Hothers).
    rewrite (bind_insert_only clients_in_hand);
      [done|by eapply lookup_lt_Some|done].
  - rewrite app_nil_r. f_equal.
    by rewrite (bind_insert_same clients_in_hand _ _ (Accept_sending (v :: w) k)).
  - by rewrite app_nil_r.
Qed.

Lemma clients_run tr : forall x x',
  one_loop x -> run x tr = Some x' ->
  feed_clients x' ++ owed_clients x'
  = (feed_clients x ++ owed_clients x)
    ++ (client_New <$> omap accepted_conn tr).
Proof.
  induction tr as [|l tr IH]; intros x x' Hx Hrun; simpl in Hrun.
  - simplify_eq. by rewrite app_nil_r.
  - destruct (step x l) as [x1|] eqn:Hl; [|done].
    rewrite (IH x1 x') by (by try eapply one_loop_step).
    rewrite (clients_step _ _ _ Hx Hl), <- !app_assoc. f_equal. f_equal.
    rewrite <- fmap_app. f_equal. simpl. by destruct (accepted_conn l).
Qed.

Lemma errors_step x l x' :
  one_loop x -> step x l = Some x' ->
  (unwrap <$> feed_errs x') ++ owed_errors x'
  `sublist_of` ((unwrap <$> feed_errs x) ++ owed_errors x)
               ++ from_option (fun e => [e]) [] (accept_error l).
Proof.
  intros Hone Hl. unfold owed_errors.
  destruct (step_inv _ _ _ Hl)
    as [(m&->&->)|[(i&p&s'&p'&w&->&Hi&Ha&->)|[(i&r&->&Hi&->)|[(i&c&->&Hi&->)
        |[(i&v&w&k&->&Hi&->)|(d&->&->)]]]]]; simpl.
  - rewrite bind_app, !app_nil_r.
    replace ([entry m] ≫= errors_in_hand) with (@nil error)
      by (by destruct m).
    by rewrite app_nil_r.
  - rewrite app_nil_r. apply sublist_app; [done|].
    destruct (advance_in_hand _ _ _ _ _ _ Ha) as (_ & _ & Hsub).
    destruct w.
    + rewrite <- (bind_Broadcast errors_in_hand (pool x)) by done.
      apply (bind_insert_sublist _ _ _ (match p with
                                        | Close_wait => Close_woken
                                        | Release_wait => Release_woken
                                        | _ => p
                                        end)).
      * by rewrite Broadcast_lookup, Hi.
      * by destruct p.
    + by apply (bind_insert_sublist _ _ _ p).
  - assert (forall j q, j <> i -> pool x !! j = Some q -> errors_in_hand q = [])
      as Hothers.
    { intros j q Hne Hj.
      pose proof (inside_others _ _ _ Hone Hi eq_refl j q Hne Hj). by destruct q. }
    rewrite (bind_only errors_in_hand (pool x) i Accept_loop Hi Hothers).
    rewrite (bind_insert_only errors_in_hand);
      [|by eapply lookup_lt_Some|done].
    destruct r as [conn|err]; simpl; by rewrite !app_nil_r.
  - rewrite app_nil_r.
    by rewrite (bind_insert_same errors_in_hand _ _ (Accept_send c)).
  - assert (forall j q, j <> i -> pool x !! j = Some q -> errors_in_hand q = [])
      as Hothers.
    { intros j q Hne Hj.
      pose proof (inside_others _ _ _ Hone Hi eq_refl j q Hne Hj). by destruct q. }
    rewrite (bind_only errors_in_hand (pool x) i _ Hi Hothers).
    rewrite (bind_insert_only errors_in_hand);
      [|by eapply lookup_lt_Some|done].
    simpl. by rewrite fmap_app, app_nil_r, <- app_assoc.
  - by rewrite app_nil_r.
Qed.

Lemma errors_run tr : forall x x',
  one_loop x -> run x tr = Some x' ->
  (unwrap <$> feed_errs x') ++ owed_errors x'
  `sublist_of` ((unwrap <$> feed_errs x) ++ owed_errors x)
               ++ omap accept_error tr.
Proof.
  induction tr as [|l tr IH]; intros x x' Hx Hrun; simpl in Hrun.
  - simplify_eq. by rewrite app_nil_r.
  - destruct (step x l) as [x1|] eqn:Hl; [|done].
    etrans; [apply (IH x1 x'); [by eapply one_loop_step|done]|].
    replace (omap accept_error (l :: tr))
      with (from_option (fun e => [e]) [] (accept_error l) ++ omap accept_error tr)
      by (simpl; by destruct (accept_error l)).
    rewrite (app_assoc _ _ (omap accept_error tr)).
    apply sublist_app; [|done]. by apply errors_step.
Qed.

(** *** A fatal error is the last thing delivered *)

Lemma last_words_tail v w kill : last_words (v :: w) kill -> last_words w kill.
Proof.
  intros Hvw err Hin. destruct (Hvw err) as [Heq _]; [by right|].
  simplify_eq. by apply elem_of_nil in Hin.
Qed.

Lemma step_delivering x l x' j q' :
  step x l = Some x' -> pool x' !! j = Some q' -> delivering q' = true ->
  (exists q, pool x !! j = Some q /\ delivering q = true)
  \/ srv_state (srv x) = idle.
Proof.
  intros Hl Hj Hq'.
  destruct (step_inv _ _ _ Hl)
    as [(m&->&->)|[(i&p&s'&p'&w&->&Hi&Ha&->)|[(i&r&->&Hi&->)|[(i&c&->&Hi&->)
        |[(i&v&w&k&->&Hi&->)|(d&->&->)]]]]]; simpl in Hj; eauto.
  - apply lookup_app_Some in Hj as [?|[? Hj]]; [eauto|].
    apply list_lookup_singleton_Some in Hj as [? <-]. by destruct m.
  - destruct (decide (i = j)) as [->|Hij].
    + apply list_lookup_insert_Some in Hj as [(_&<-&_)|[? _]]; [|done].
      advance_cases Ha; try done; eauto.
    + rewrite list_lookup_insert_ne in Hj by done. left.
      destruct w; [|eauto]. rewrite Broadcast_lookup in Hj.
      destruct (pool x !! j) as [q|]; [|done]. simpl in Hj. simplify_eq.
      exists q. split; [done|]. by destruct q.
  - destruct (decide (i = j)) as [->|Hij]; [eauto|].
    rewrite list_lookup_insert_ne in Hj by done. eauto.
  - destruct (decide (i = j)) as [->|Hij]; [eauto|].
    rewrite list_lookup_insert_ne in Hj by done. eauto.
  - destruct (decide (i = j)) as [->|Hij]; [eauto|].
    rewrite list_lookup_insert_ne in Hj by done. eauto.
Qed.

Lemma delivering_inside p : delivering p = true -> inside_Accept p = true.
Proof. by destruct p. Qed.

Lemma fatal_is_final_step x l x' :
  fatal_is_final x -> step x l = Some x' -> fatal_is_final x'.
Proof.
  intros (Hone & Hwords & Hfatal) Hl.
  split; [by eapply one_loop_step|]. split.
  - intros j w' kill' Hj.
    destruct (step_inv _ _ _ Hl)
      as [(m&->&->)|[(i&p&s'&p'&w&->&Hi&Ha&->)|[(i&r&->&Hi&->)|[(i&c&->&Hi&->)
          |[(i&v&w&k&->&Hi&->)|(d&->&->)]]]]]; simpl in Hj; eauto.
    + apply lookup_app_Some in Hj as [?|[? Hj]]; [eauto|].
      apply list_lookup_singleton_Some in Hj as [? ?]. by destruct m.
    + destruct (decide (i = j)) as [->|Hij].
      * apply list_lookup_insert_Some in Hj as [(_&->&_)|[? _]]; [|done].
        advance_cases Ha.
        match goal with H : handleError _ _ = _ |- _ =>
          destruct (handleError_shape _ _ _ _ H) as [->|[->|[-> ->]]] end;
          intros e He.
        -- by apply elem_of_nil in He.
        -- apply list_elem_of_singleton in He. done.
        -- apply list_elem_of_singleton in He. by simplify_eq.
      * rewrite list_lookup_insert_ne in Hj by done.
        destruct w; [|eauto]. rewrite Broadcast_lookup in Hj.
        destruct (pool x !! j) as [q|] eqn:Hq; [|done]. simpl in Hj.
        destruct q; simplify_eq. eauto.
    + destruct (decide (i = j)) as [->|Hij].
      * apply list_lookup_insert_Some in Hj as [(_&?&_)|[? _]]; [|done].
        by destruct r.
      * rewrite list_lookup_insert_ne in Hj by done. eauto.
    + destruct (decide (i = j)) as [->|Hij].
      * by apply list_lookup_insert_Some in Hj as [(_&?&_)|[? _]].
      * rewrite list_lookup_insert_ne in Hj by done. eauto.
    + destruct (decide (i = j)) as [->|Hij].
      * apply list_lookup_insert_Some in Hj as [(_&?&_)|[? _]]; [|done].
        simplify_eq. eapply last_words_tail. eauto.
      * rewrite list_lookup_insert_ne in Hj by done. eauto.
  - intros [err Herr].
    assert (fatal_seen x \/
            exists i w k, l = taken i
              /\ pool x !! i = Some (Accept_sending (fatalError err :: w) k)
              /\ pool x' = <[i := Accept_sending w k]> (pool x)
              /\ srv x' = srv x) as [Hseen|(i&w&k&->&Hi&Hp'&Hs')].
    { destruct (step_inv _ _ _ Hl)
        as [(m&->&->)|[(i&p&s'&p'&w&->&Hi&Ha&->)|[(i&r&->&Hi&->)|[(i&c&->&Hi&->)
            |[(i&v&w&k&->&Hi&->)|(d&->&->)]]]]]; simpl in Herr;
        try (left; by exists err).
      apply elem_of_app in Herr as [?|Hv]; [left; by exists err|].
      apply list_elem_of_singleton in Hv as <-. right. by eexists _, _, _. }
    + destruct (Hfatal Hseen) as [Hst Hquiet]. split.
      * intros Hst'. by apply Hst, (idle_before _ _ _ Hl).
      * intros j q' Hj. destruct (delivering q') eqn:Hq'; [|done].
        destruct (step_delivering _ _ _ _ _ Hl Hj Hq') as [(q&Hq&Hqd)|?];
          [|done]. by rewrite (Hquiet _ _ Hq) in Hqd.
    + destruct (Hwords _ _ _ Hi err) as [Hw ->]; [by left|]. simplify_eq.
      rewrite Hs', Hp'. split.
      * intros Hst. destruct Hone as [Hidle _].
        by specialize (Hidle Hst _ _ Hi).
      * intros j q Hj. destruct (decide (i = j)) as [->|Hij].
        -- apply list_lookup_insert_Some in Hj as [(_&<-&_)|[? _]]; done.
        -- rewrite list_lookup_insert_ne in Hj by done.
           destruct (delivering q) eqn:Hq; [|done].
           apply delivering_inside in Hq.
           pose proof (inside_others _ _ _ Hone Hi eq_refl j q) as Hno.
           rewrite Hno in Hq; [done|by auto|done].
Qed.

Lemma fatal_is_final_run sock tr x :
  run (boot sock) tr = Some x -> fatal_is_final x.
Proof.
  apply (srv_run_keeps fatal_is_final); [apply fatal_is_final_step|].
  split; [|split].
  - split.
    + intros _ i p. simpl. by rewrite lookup_nil.
    + intros i j p q. simpl. by rewrite lookup_nil.
  - intros i w k. simpl. by rewrite lookup_nil.
  - intros [err Herr]. simpl in Herr. by apply elem_of_nil in Herr.
Qed.

Lemma after_fatal_step x l x' :
  fatal_is_final x -> fatal_seen x -> step x l = Some x' ->
  fatal_seen x' /\ feed_clients x' = feed_clients x
  /\ feed_errs x' = feed_errs x.
Proof.
  intros (_ & _ & Hfatal) Hseen Hl. destruct (Hfatal Hseen) as [_ Hquiet].
  assert (feed_clients x' = feed_clients x /\ feed_errs x' = feed_errs x)
    as [Hc He].
  { destruct (step_inv _ _ _ Hl)
      as [(m&->&->)|[(i&p&s'&p'&w&->&Hi&Ha&->)|[(i&r&->&Hi&->)|[(i&c&->&Hi&->)
          |[(i&v&w&k&->&Hi&->)|(d&->&->)]]]]]; try done;
      by specialize (Hquiet _ _ Hi). }
  repeat split; try done. destruct Hseen as [err ?]. exists err. by rewrite He.
Qed.

(** *** Who is woken, and when *)

Lemma Broadcast_waiting ps j q' :
  Broadcast ps !! j = Some q' -> waiting q' = true ->
  exists q, ps !! j = Some q /\ waiting q = true.
Proof.
  rewrite Broadcast_lookup. destruct (ps !! j) as [q|]; [|done].
  simpl. intros ? Hq'. simplify_eq. exists q. split; [done|]. by destruct q.
Qed.

Lemma woken_after_loop_step x l x' :
  woken_after_loop x -> step x l = Some x' -> woken_after_loop x'.
Proof.
  intros (Hone & Hidle & Hwoken) Hl.
  assert (forall j q', pool x !! j = Some q' -> woken q' = true -> loop_over x')
    as Hold.
  { intros j q' Hj Hq'. by apply (loop_over_step x l x' (Hwoken _ _ Hj Hq') Hl). }
  split; [by eapply one_loop_step|]. split.
  - intros Hst' j q' Hj. destruct (waiting q') eqn:Hq'; [|done].
    pose proof (idle_before _ _ _ Hl Hst') as Hst.
    specialize (Hidle Hst).
    destruct (step_inv _ _ _ Hl)
      as [(m&->&->)|[(i&p&s'&p'&w&->&Hi&Ha&->)|[(i&r&->&Hi&->)|[(i&c&->&Hi&->)
          |[(i&v&w&k&->&Hi&->)|(d&->&->)]]]]]; simpl in Hj, Hst'.
    + apply lookup_app_Some in Hj as [Hj|[? Hj]].
      * by rewrite (Hidle _ _ Hj) in Hq'.
      * apply list_lookup_singleton_Some in Hj as [? <-]. by destruct m.
    + destruct (decide (i = j)) as [->|Hij].
      * apply list_lookup_insert_Some in Hj as [(_&<-&_)|[? _]]; [|done].
        specialize (Hidle _ _ Hi). advance_cases Ha; done.
      * rewrite list_lookup_insert_ne in Hj by done.
        assert (exists q, pool x !! j = Some q /\ waiting q = true)
          as (q & Hq & Hqw)
          by (destruct w; [by eapply Broadcast_waiting|eauto]).
        by rewrite (Hidle _ _ Hq) in Hqw.
    + destruct (decide (i = j)) as [->|Hij].
      * apply list_lookup_insert_Some in Hj as [(_&<-&_)|[? _]]; [|done].
        by destruct r.
      * rewrite list_lookup_insert_ne in Hj by done.
        by rewrite (Hidle _ _ Hj) in Hq'.
    + destruct (decide (i = j)) as [->|Hij].
      * by apply list_lookup_insert_Some in Hj as [(_&<-&_)|[? _]].
      * rewrite list_lookup_insert_ne in Hj by done.
        by rewrite (Hidle _ _ Hj) in Hq'.
    + destruct (decide (i = j)) as [->|Hij].
      * by apply list_lookup_insert_Some in Hj as [(_&<-&_)|[? _]].
      * rewrite list_lookup_insert_ne in Hj by done.
        by rewrite (Hidle _ _ Hj) in Hq'.
    + by rewrite (Hidle _ _ Hj) in Hq'.
  - intros j q' Hj Hq'.
    destruct (step_inv _ _ _ Hl)
      as [(m&->&Hx')|[(i&p&s'&p'&w&->&Hi&Ha&Hx')|[(i&r&->&Hi&Hx')
          |[(i&c&->&Hi&Hx')|[(i&v&w&k&->&Hi&Hx')|(d&->&Hx')]]]]];
      rewrite Hx' in Hj; simpl in Hj.
    + apply lookup_app_Some in Hj as [Hj|[? Hj]]; [eauto|].
      apply list_lookup_singleton_Some in Hj as [? <-]. by destruct m.
    + destruct (decide (i = j)) as [->|Hij].
      * apply list_lookup_insert_Some in Hj as [(_&<-&_)|[? _]]; [|done].
        advance_cases Ha; done.
      * rewrite list_lookup_insert_ne in Hj by done.
        destruct w; [|eauto]. rewrite Broadcast_lookup in Hj.
        destruct (pool x !! j) as [q|] eqn:Hq; [|done]. simpl in Hj.
        destruct (woken q) eqn:Hqw; [eauto|].
        assert (waiting q = true) as Hqwait by (destruct q; by simplify_eq).
        clear Hold. rewrite Hx'. advance_cases Ha.
        -- match goal with H : srv_state _ = idle |- _ =>
             by rewrite (Hidle H _ _ Hq) in Hqwait end.
        -- split; [done|]. simpl. intros k q'' Hk.
           destruct (inside_Accept q'') eqn:Hin; [|done].
           destruct (decide (i = k)) as [->|Hik].
           ++ by apply list_lookup_insert_Some in Hk as [(_&<-&_)|[? _]].
           ++ rewrite list_lookup_insert_ne in Hk by done.
              apply Broadcast_inside in Hk; [|done].
              destruct Hone as [_ Hone]. destruct Hik. eauto.
    + destruct (decide (i = j)) as [->|Hij].
      * apply list_lookup_insert_Some in Hj as [(_&<-&_)|[? _]]; [|done].
        by destruct r.
      * rewrite list_lookup_insert_ne in Hj by done. eauto.
    + destruct (decide (i = j)) as [->|Hij].
      * by apply list_lookup_insert_Some in Hj as [(_&<-&_)|[? _]].
      * rewrite list_lookup_insert_ne in Hj by done. eauto.
    + destruct (decide (i = j)) as [->|Hij].
      * by apply list_lookup_insert_Some in Hj as [(_&<-&_)|[? _]].
      * rewrite list_lookup_insert_ne in Hj by done. eauto.
    + eauto.
Qed.

Lemma woken_after_loop_run sock tr x :
  run (boot sock) tr = Some x -> woken_after_loop x.
Proof.
  apply (srv_run_keeps woken_after_loop); [apply woken_after_loop_step|].
  split; [|split].
  - split.
    + intros _ i p. simpl. by rewrite lookup_nil.
    + intros i j p q. simpl. by rewrite lookup_nil.
  - intros _ i p. simpl. by rewrite lookup_nil.
  - intros i p. simpl. by rewrite lookup_nil.
Qed.

(** A goroutine parked in Wait() does not return before it is woken, nor
    before the state is closed. *)
Lemma waiter_returns_woken x l x' j p p' :
  step x l = Some x' -> pool x !! j = Some p -> pool x' !! j = Some p' ->
  waiting p = true -> waiting p' = false ->
  woken p = true /\ l = go j /\ srv_state (srv x') = closed.
Proof.
  intros Hl Hj Hj' Hp Hp'.
  destruct (step_inv _ _ _ Hl)
    as [(m&->&->)|[(i&q&s'&q'&w&->&Hi&Ha&->)|[(i&r&->&Hi&->)|[(i&c&->&Hi&->)
        |[(i&v&w&k&->&Hi&->)|(d&->&->)]]]]]; simpl in Hj'.
  - rewrite lookup_app_l in Hj' by (by eapply lookup_lt_Some). congruence.
  - destruct (decide (i = j)) as [->|Hij].
    + rewrite Hj in Hi. injection Hi as <-. simpl.
      apply list_lookup_insert_Some in Hj' as [(_&<-&_)|[? _]]; [|done].
      advance_cases Ha; done.
    + rewrite list_lookup_insert_ne in Hj' by done.
      destruct w; [|congruence]. rewrite Broadcast_lookup, Hj in Hj'.
      simpl in Hj'. simplify_eq. by destruct p.
  - destruct (decide (i = j)) as [->|Hij]; [by simplify_eq|].
    rewrite list_lookup_insert_ne in Hj' by done. congruence.
  - destruct (decide (i = j)) as [->|Hij]; [by simplify_eq|].
    rewrite list_lookup_insert_ne in Hj' by done. congruence.
  - destruct (decide (i = j)) as [->|Hij]; [by simplify_eq|].
    rewrite list_lookup_insert_ne in Hj' by done. congruence.
  - congruence.
Qed.

(** *** The mutex while handleError sends *)

Lemma lock_held_step x l x' :
  lock_held x -> step x l = Some x' -> lock_held x'.
Proof.
  intros (Hone & Hlock) Hl. split; [by eapply one_loop_step|].
  intros j w' kill' Hj.
  destruct (step_inv _ _ _ Hl)
    as [(m&->&->)|[(i&p&s'&p'&w&->&Hi&Ha&->)|[(i&r&->&Hi&->)|[(i&c&->&Hi&->)
        |[(i&v&w&k&->&Hi&->)|(d&->&->)]]]]]; simpl in *.
  - apply lookup_app_Some in Hj as [?|[? Hj]]; [eauto|].
    apply list_lookup_singleton_Some in Hj as [? ?]. by destruct m.
  - destruct (decide (i = j)) as [->|Hij].
    + apply list_lookup_insert_Some in Hj as [(_&->&_)|[? _]]; [|done].
      advance_cases Ha; done.
    + rewrite list_lookup_insert_ne in Hj by done.
      assert (pool x !! j = Some (Accept_sending w' kill')) as Hj0.
      { destruct w; [|done]. rewrite Broadcast_lookup in Hj.
        destruct (pool x !! j) as [q|]; [|done]. simpl in Hj.
        by destruct q; simplify_eq. }
      pose proof (Hlock _ _ _ Hj0) as Hlk. clear Hj.
      advance_cases Ha; try congruence;
        destruct Hone as [_ Hone]; destruct Hij;
        by apply (Hone i j _ _ Hi Hj0).
  - destruct (decide (i = j)) as [->|Hij].
    + apply list_lookup_insert_Some in Hj as [(_&?&_)|[? _]]; [|done].
      by destruct r.
    + rewrite list_lookup_insert_ne in Hj by done. eauto.
  - destruct (decide (i = j)) as [->|Hij].
    + by apply list_lookup_insert_Some in Hj as [(_&?&_)|[? _]].
    + rewrite list_lookup_insert_ne in Hj by done. eauto.
  - destruct (decide (i = j)) as [->|Hij]; [eauto|].
    rewrite list_lookup_insert_ne in Hj by done. eauto.
  - eauto.
Qed.

Lemma lock_held_run sock tr x :
  run (boot sock) tr = Some x -> lock_held x.
Proof.
  apply (srv_run_keeps lock_held); [apply lock_held_step|].
  split.
  - split.
    + intros _ i p. simpl. by rewrite lookup_nil.
    + intros i j p q. simpl. by rewrite lookup_nil.
  - intros i w k. simpl. by rewrite lookup_nil.
Qed.

Lemma at_most_one_in_hand {A} (h : pc -> list A) (ps : list pc) :
  (forall p, length (h p) <= 1) ->
  (forall i j p q, ps !! i = Some p -> ps !! j = Some q ->
                   h p <> [] -> h q <> [] -> i = j) ->
  length (ps ≫= h) <= 1.
Proof.
  intros Hshort. induction ps as [|q ps IH]; intros Hone; [simpl; lia|].
  rewrite bind_cons, length_app. destruct (h q) as [|a t] eqn:Hq.
  - simpl. apply IH. intros i j p p' Hi Hj Hp Hp'.
    by injection (f_equal S (Hone (S i) (S j) p p' Hi Hj Hp Hp')).
  - rewrite (bind_nothing h ps).
    + specialize (Hshort q). rewrite Hq in *. simpl in *. lia.
    + intros j p Hj. destruct (h p) eqn:Hp; [done|].
      assert (0 = S j) by (apply (Hone 0 (S j) q p); by rewrite ?Hq, ?Hp).
      done.
Qed.

(** *** The properties *)

(** X1. However many goroutines call Accept, at most one is ever inside
    it, between its entry and its deferred setState(closed). While one is
    inside, another call of Accept that gets the mutex returns in that
    move without entering the loop, and changes neither the server nor
    the feeds. *)
Theorem Accept_runs_once sock tr x i p :
  run (boot sock) tr = Some x ->
  pool x !! i = Some p -> inside_Accept p = true ->
  (forall j q, pool x !! j = Some q -> inside_Accept q = true -> j = i)
  /\ (forall j x',
        pool x !! j = Some Accept_entry -> step x (go j) = Some x' ->
        pool x' !! j = Some (Accept_done returned)
        /\ srv x' = srv x
        /\ feed_clients x' = feed_clients x /\ feed_errs x' = feed_errs x).
Proof.
  intros Hrun Hi Hp. destruct (one_loop_run _ _ _ Hrun) as [Hidle Hone].
  split.
  - intros j q Hj Hq. by apply (Hone j i q p).
  - intros j x' Hj Hstep.
    assert (srv_state (srv x) <> idle) as Hst.
    { intros Hst. by rewrite (Hidle Hst i p Hi) in Hp. }
    simpl in Hstep. rewrite Hj in Hstep. simpl in Hstep.
    destruct (locked (srv x)); [done|]. unfold setStateIf in Hstep.
    rewrite bool_decide_eq_false_2 in Hstep by done. simpl in Hstep.
    simplify_eq. simpl. split; [|done].
    apply list_lookup_insert_eq. by eapply lookup_lt_Some.
Qed.

Lemma Accept_runs_once_scene :
  (run (boot sample.listener) scenes.Accept_twice = Some scenes.second_Accept_called
   /\ pool scenes.second_Accept_called = [Accept_loop; Accept_entry]
   /\ step scenes.second_Accept_called (go 1)
      = Some (with_pool [Accept_loop; Accept_done returned]
                scenes.second_Accept_called))
  /\ (forall j q, pool scenes.second_Accept_called !! j = Some q ->
                  inside_Accept q = true -> j = 0)
  /\ srv (with_pool [Accept_loop; Accept_done returned] scenes.second_Accept_called)
     = srv scenes.second_Accept_called.
Proof.
  assert (run (boot sample.listener) scenes.Accept_twice
          = Some scenes.second_Accept_called) as Hrun by (vm_compute; reflexivity).
  assert (step scenes.second_Accept_called (go 1)
          = Some (with_pool [Accept_loop; Accept_done returned]
                    scenes.second_Accept_called)) as Hstep
    by (vm_compute; reflexivity).
  split; [by repeat split|].
  destruct (Accept_runs_once sample.listener scenes.Accept_twice
              scenes.second_Accept_called 0 Accept_loop Hrun eq_refl eq_refl)
    as [Hone Hother].
  split; [exact Hone|].
  exact (proj1 (proj2 (Hother 1 _ eq_refl Hstep))).
Defined.

(** X2. Once the state has left idle and no goroutine is inside Accept,
    as after a Close or a Release that found no Accept running, no later
    call changes that: an Accept called then returns without accepting,
    and neither feed ever gets another value. *)
Theorem Accept_after_shutdown_is_void x tr x' :
  srv_state (srv x) <> idle ->
  (forall i p, pool x !! i = Some p -> inside_Accept p = false) ->
  run x tr = Some x' ->
  (forall i p, pool x' !! i = Some p -> inside_Accept p = false)
  /\ feed_clients x' = feed_clients x /\ feed_errs x' = feed_errs x.
Proof.
  intros Hst Hnone Hrun.
  destruct (loop_over_run tr x x') as ([_ ?] & ? & ?); [by split|done|done].
Qed.

Lemma Accept_after_shutdown_scene :
  (srv_state (srv scenes.closed_first) <> idle
   /\ pool scenes.closed_first = [Close_done None]
   /\ run scenes.closed_first scenes.late_Accept = Some scenes.after_late_Accept)
  /\ pool scenes.after_late_Accept = [Close_done None; Accept_done returned]
  /\ feed_clients scenes.after_late_Accept = []
  /\ feed_errs scenes.after_late_Accept = [].
Proof.
  assert (run scenes.closed_first scenes.late_Accept
          = Some scenes.after_late_Accept) as Hrun by (vm_compute; reflexivity).
  split; [by repeat split|]. split; [reflexivity|].
  refine (proj2 (Accept_after_shutdown_is_void scenes.closed_first
                   scenes.late_Accept scenes.after_late_Accept _ _ Hrun)).
  - done.
  - intros [|[|i]] p Hp; simpl in Hp; by simplify_eq.
Defined.

(** X3. The clients handed over on s.clients, followed by the one Accept
    may still be blocked sending, are the connections the accept call
    returned, wrapped by client.New, in the order it returned them: none
    is lost, repeated or reordered. *)
Theorem clients_in_accept_order sock tr x :
  run (boot sock) tr = Some x ->
  feed_clients x ++ owed_clients x = client_New <$> omap accepted_conn tr
  /\ length (owed_clients x) <= 1.
Proof.
  intros Hrun. pose proof (one_loop_run _ _ _ Hrun) as Hone. split.
  - pose proof (clients_run tr (boot sock) x) as Heq. simpl in Heq.
    apply Heq; [|done]. split.
    + intros _ i p. simpl. by rewrite lookup_nil.
    + intros i j p q. simpl. by rewrite lookup_nil.
  - apply at_most_one_in_hand.
    + intros []; simpl; lia.
    + intros i j p q Hi Hj Hp Hq. apply (proj2 Hone i j p q Hi Hj).
      * by destruct p.
      * by destruct q.
Qed.

Lemma clients_in_accept_order_scene :
  run (boot sample.listener) scenes.two_accepts = Some scenes.after_two_accepts
  /\ feed_clients scenes.after_two_accepts ++ owed_clients scenes.after_two_accepts
     = [client_New scenes.conn1; client_New scenes.conn2].
Proof.
  assert (run (boot sample.listener) scenes.two_accepts
          = Some scenes.after_two_accepts) as Hrun by (vm_compute; reflexivity).
  split; [done|].
  exact (proj1 (clients_in_accept_order sample.listener scenes.two_accepts
                  scenes.after_two_accepts Hrun)).
Defined.

(** X4. The error feed carries, in order, only errors the accept call
    returned, each at most once, as it is or wrapped as a fatalError: the
    errors on the feed form a sublist of the errors accept returned. *)
Theorem errors_come_from_accept sock tr x :
  run (boot sock) tr = Some x ->
  unwrap <$> feed_errs x `sublist_of` omap accept_error tr.
Proof.
  intros Hrun. pose proof (errors_run tr (boot sock) x) as Hsub.
  simpl in Hsub. etrans; [|apply Hsub; [|done]].
  - by apply sublist_inserts_r.
  - split.
    + intros _ i p. simpl. by rewrite lookup_nil.
    + intros i j p q. simpl. by rewrite lookup_nil.
Qed.

Lemma errors_come_from_accept_scene :
  run (boot sample.listener) scenes.fatal_run = Some scenes.after_fatal
  /\ unwrap <$> feed_errs scenes.after_fatal
     `sublist_of` [sample.too_many_files; sample.broken].
Proof.
  assert (run (boot sample.listener) scenes.fatal_run = Some scenes.after_fatal)
    as Hrun by (vm_compute; reflexivity).
  split; [done|].
  exact (errors_come_from_accept sample.listener scenes.fatal_run
           scenes.after_fatal Hrun).
Defined.

(** X5. A fatalError is the last value the server delivers: once one is
    on the error feed, whatever is called afterwards, no client and no
    error is handed over any more. *)
Theorem nothing_after_fatal sock tr x err tr' x' :
  run (boot sock) tr = Some x ->
  fatalError err ∈ feed_errs x ->
  run x tr' = Some x' ->
  feed_clients x' = feed_clients x /\ feed_errs x' = feed_errs x.
Proof.
  intros Hrun Hfatal.
  pose proof (fatal_is_final_run _ _ _ Hrun) as Hinv.
  assert (fatal_seen x) as Hseen by (by exists err).
  clear Hrun Hfatal. revert x Hinv Hseen.
  induction tr' as [|l tr' IH]; intros x Hinv Hseen Hrun'; simpl in Hrun'.
  - by simplify_eq.
  - destruct (step x l) as [x1|] eqn:Hl; [|done].
    destruct (after_fatal_step _ _ _ Hinv Hseen Hl) as (Hseen1 & <- & <-).
    apply IH; [by eapply fatal_is_final_step|done|done].
Qed.

Lemma nothing_after_fatal_scene :
  (run (boot sample.listener) scenes.fatal_run = Some scenes.after_fatal
   /\ fatalError sample.broken ∈ feed_errs scenes.after_fatal
   /\ run scenes.after_fatal scenes.aftermath = Some scenes.after_aftermath)
  /\ feed_clients scenes.after_aftermath = feed_clients scenes.after_fatal
  /\ feed_errs scenes.after_aftermath = feed_errs scenes.after_fatal.
Proof.
  assert (run (boot sample.listener) scenes.fatal_run = Some scenes.after_fatal)
    as Hrun by (vm_compute; reflexivity).
  assert (fatalError sample.broken ∈ feed_errs scenes.after_fatal) as Hin
    by (right; left).
  assert (run scenes.after_fatal scenes.aftermath = Some scenes.after_aftermath)
    as Hrun' by (vm_compute; reflexivity).
  split; [by repeat split|].
  exact (nothing_after_fatal sample.listener scenes.fatal_run scenes.after_fatal
           sample.broken scenes.aftermath scenes.after_aftermath Hrun Hin Hrun').
Defined.

(** X6. A Close or a Release that had to wait returns only after the
    goroutine of Accept has run its deferred setState(closed): in the move
    in which a waiting call returns, the state is closed and no goroutine
    is inside Accept any more, nor will one be. *)
Theorem waiter_returns_after_Accept sock tr x l x' j p p' :
  run (boot sock) tr = Some x -> step x l = Some x' ->
  pool x !! j = Some p -> pool x' !! j = Some p' ->
  waiting p = true -> waiting p' = false ->
  srv_state (srv x') = closed
  /\ forall i q, pool x' !! i = Some q -> inside_Accept q = false.
Proof.
  intros Hrun Hl Hj Hj' Hp Hp'.
  destruct (waiter_returns_woken _ _ _ _ _ _ Hl Hj Hj' Hp Hp') as (Hw & _ & Hst).
  split; [done|].
  destruct (woken_after_loop_run _ _ _ Hrun) as (_ & _ & Hover).
  by destruct (loop_over_step _ _ _ (Hover _ _ Hj Hw) Hl) as ([_ ?] & _).
Qed.

Lemma waiter_returns_scene :
  (run (boot sample.listener) scenes.until_woken = Some scenes.Release_woken_up
   /\ step scenes.Release_woken_up (go 1) = Some sample.released
   /\ pool scenes.Release_woken_up !! 1 = Some Release_woken
   /\ pool sample.released !! 1 = Some (Release_done sample.handed_back))
  /\ srv_state (srv sample.released) = closed
  /\ forall i q, pool sample.released !! i = Some q -> inside_Accept q = false.
Proof.
  assert (run (boot sample.listener) scenes.until_woken
          = Some scenes.Release_woken_up) as Hrun by (vm_compute; reflexivity).
  assert (step scenes.Release_woken_up (go 1) = Some sample.released) as Hl
    by (vm_compute; reflexivity).
  split; [by repeat split|].
  exact (waiter_returns_after_Accept sample.listener scenes.until_woken
           scenes.Release_woken_up (go 1) sample.released 1 _ _
           Hrun Hl eq_refl eq_refl eq_refl eq_refl).
Defined.

(** X7. handleError keeps the mutex while it is blocked sending on
    s.errs: until a consumer takes the error, no goroutine can move on its
    own, so every Close, Release and Accept called meanwhile stays at its
    Lock(); taking the error is a move that is possible. *)
Theorem handleError_blocks_until_taken sock tr x i v w kill :
  run (boot sock) tr = Some x ->
  pool x !! i = Some (Accept_sending (v :: w) kill) ->
  (forall j, step x (go j) = None)
  /\ exists x', step x (taken i) = Some x'
                /\ feed_errs x' = feed_errs x ++ [v].
Proof.
  intros Hrun Hi. destruct (lock_held_run _ _ _ Hrun) as [[_ Hone] Hlock].
  pose proof (Hlock _ _ _ Hi) as Hlk. split.
  - intros j. simpl. destruct (pool x !! j) as [p|] eqn:Hj; [|done]. simpl.
    assert (advance (clock x) (srv x) p = None) as ->; [|done].
    destruct p as [| |c|err|w' kill'|why|why| | | |r| | | |h]; simpl;
      rewrite ?Hlk; try done.
    destruct w'; [|done].
    assert (i = j) by (by apply (Hone i j _ _ Hi Hj)). congruence.
  - simpl. rewrite Hi. eauto.
Qed.

Lemma handleError_blocks_scene :
  (run (boot sample.listener) scenes.error_untaken = Some scenes.with_error_untaken
   /\ pool scenes.with_error_untaken
      = [Accept_sending [as_is sample.too_many_files] (Ret false);
         Close_entry; Release_entry])
  /\ step scenes.with_error_untaken (go 1) = None
  /\ step scenes.with_error_untaken (go 2) = None.
Proof.
  assert (run (boot sample.listener) scenes.error_untaken
          = Some scenes.with_error_untaken) as Hrun by (vm_compute; reflexivity).
  split; [by split|].
  pose proof (proj1 (handleError_blocks_until_taken sample.listener
                       scenes.error_untaken scenes.with_error_untaken 0 _ _ _
                       Hrun eq_refl)) as Hblocked.
  split; apply Hblocked.
Defined.

End ServerExtras.

(** ** More on the relay goroutine *)

Module StreamExtras.
Import Relay RelayFacts flow.

Ltac relay_cases Hl Hpc :=
  match type of Hl with
  | Relay.step _ ?s ?l = Some _ =>
      destruct l; unfold Relay.step in Hl; destruct (recv s) eqn:Hpc;
      simpl in Hl;
      repeat match type of Hl with
        | context [if ?b then _ else _] => destruct b eqn:?; simpl in Hl
        | context [match ?x with _ => _ end] => destruct x eqn:?; simpl in Hl
        end;
      try discriminate Hl;
      apply (inj Some) in Hl; subst
  end.

Section more.
Context {Chunk Msg Err : Type}.
Variable case_chunk : Go.ptr Chunk -> Go.result (publish Msg Err).

Abbreviation state := (Relay.t Chunk Msg Err).
Abbreviation step := (Relay.step case_chunk).
Abbreviation run := (Relay.run case_chunk).
Abbreviation message_of := (Relay.message_of case_chunk).
Abbreviation error_of := (Relay.error_of case_chunk).

Implicit Types (s : state) (l : label Chunk) (tr : list (label Chunk)).

Lemma run_deferred_close_frozen why k s : frozen s (run_deferred_close why k s).
Proof.
  unfold frozen, run_deferred_close.
  destruct k as [|[|k]]; simpl; by case_match.
Qed.

Lemma frozen_step s l s' :
  in_loop (recv s) = false -> step s l = Some s' -> frozen s s'.
Proof.
  intros Hout Hl. relay_cases Hl Hpc; try done;
    try apply run_deferred_close_frozen.
Qed.

Lemma frozen_run tr : forall s s',
  in_loop (recv s) = false -> run s tr = Some s' -> frozen s s'.
Proof.
  induction tr as [|l tr IH]; intros s s' Hout Hrun; simpl in Hrun.
  - by simplify_eq.
  - destruct (step s l) as [s1|] eqn:Hl; [|done].
    destruct (frozen_step _ _ _ Hout Hl) as (Hg & Hi & He).
    destruct (IH s1 s' (left_for_good _ _ _ _ Hl Hout) Hrun) as (Hg' & Hi' & He').
    unfold frozen. by rewrite Hg', Hi', He'.
Qed.

Lemma in_step_step s l s' : in_step s -> step s l = Some s' -> in_step s'.
Proof.
  unfold in_step, delivered. intros Hs Hl.
  relay_cases Hl Hpc; rewrite ?Hpc in Hs; simpl;
    rewrite ?Hpc, ?length_app; simpl; try lia.
  - destruct (case_chunk c) as [[?|?]|]; simpl; lia.
  - destruct (case_chunk None) as [[?|?]|]; simpl; lia.
  - destruct (run_deferred_close_frozen why k s) as (-> & -> & ->).
    assert (in_loop (recv (run_deferred_close why k s)) = false) as Hout.
    { unfold run_deferred_close. destruct k as [|[|k]]; by case_match. }
    destruct (recv (run_deferred_close why k s)); try done; lia.
Qed.

Lemma in_step_run tr s : run NewStream tr = Some s -> in_step s.
Proof.
  apply (run_keeps case_chunk in_step); [apply in_step_step|].
  unfold in_step, delivered. simpl. lia.
Qed.

Lemma wake_senders_lookup (cs : list caller) i :
  wake_senders cs !! i <> Some sending.
Proof.
  unfold wake_senders. rewrite list_lookup_fmap.
  destruct (cs !! i) as [[]|]; simpl; congruence.
Qed.

Lemma calls_stand_step s l s' :
  calls_stand s -> step s l = Some s' -> calls_stand s'.
Proof.
  intros (Hok & Hret & Hfin) Hl.
  pose proof (chans_ok_step _ _ _ _ Hok Hl) as Hok'.
  split; [done|]. split.
  - intros i Hi.
    destruct (decide (callers s !! i = Some handed_over)) as [Hs|Hs].
    + assert (leaving returned s) as Hlv by (split; [done|by apply (Hret i)]).
      by destruct (leaving_step _ _ _ _ _ Hlv Hl) as [_ ?].
    + destruct (handed_over_by_signal _ _ _ _ _ Hl Hi Hs) as (_ & _ & _ & ->).
      eauto.
  - intros why Hwhy i.
    relay_cases Hl Hpc; simpl in Hwhy; try congruence;
      try (destruct (case_chunk _) as [[?|?]|]; simpl in Hwhy; congruence).
    + by apply (Hfin why0).
    + intros Hi. apply lookup_app_Some in Hi as [Hi|[_ Hi]].
      * by apply (Hfin why0 eq_refl i).
      * by apply list_lookup_singleton_Some in Hi as [_ ?].
    + unfold chans_ok in Hok. rewrite Hpc in Hok.
      destruct Hok as (_ & _ & [Hcl _]). congruence.
    + destruct (recv_run_deferred_close why0 k s Hok Hpc) as [[Hr _]|[_ ->]];
        [congruence|].
      unfold chans_ok in Hok. rewrite Hpc in Hok. simpl in Hok.
      destruct Hok as (_ & _ & Hc). unfold untouched in Hc.
      simpl. rewrite Hc. simpl. apply wake_senders_lookup.
Qed.

Lemma calls_stand_run tr s : run NewStream tr = Some s -> calls_stand s.
Proof.
  apply (run_keeps case_chunk calls_stand); [apply calls_stand_step|].
  split; [|split].
  - by repeat split.
  - intros i. simpl. by rewrite lookup_nil.
  - simpl. congruence.
Qed.

(** X8. When a call of Close() has returned, every chunk the goroutine
    received has been delivered: s.in carries the message of each chunk
    whose Parse succeeded, s.errs the error of each one whose Parse failed,
    and no value is left unsent. *)
Theorem Close_returns_when_drained tr s i :
  run NewStream tr = Some s ->
  callers s !! i = Some handed_over ->
  feed_in s = omap message_of (got s)
  /\ feed_errs s = omap error_of (got s)
  /\ pending_in (recv s) = [] /\ pending_errs (recv s) = [].
Proof.
  intros Hrun Hi.
  destruct (one_signal_run _ _ _ Hrun) as [Hnone _].
  destruct (feeds_follow_run _ _ _ Hrun) as [Hin Herr].
  destruct (in_loop (recv s)) eqn:Hloop; [by destruct (Hnone eq_refl i)|].
  destruct (recv s); try done; simpl in *.
  all: by rewrite app_nil_r in Hin, Herr.
Qed.

(** X9. Once the goroutine has left its loop, by its return or by a
    panic, it receives no chunk and delivers nothing any more, whatever
    happens next. *)
Theorem nothing_after_the_loop s tr s' :
  in_loop (recv s) = false ->
  run s tr = Some s' ->
  got s' = got s /\ feed_in s' = feed_in s /\ feed_errs s' = feed_errs s.
Proof. intros Hout Hrun. by apply (frozen_run tr). Qed.

(** X10. The goroutine holds one value at most: what consumers have taken
    from In() and Errs() is never more than one behind the chunks
    received, and while a send is pending no further chunk is received
    and no close signal is accepted. *)
Theorem relay_holds_one_value tr s :
  run NewStream tr = Some s ->
  delivered s <= length (got s) <= S (delivered s)
  /\ (pending_in (recv s) <> [] \/ pending_errs (recv s) <> [] ->
      length (got s) = S (delivered s)
      /\ (forall c, step s (chunk_arrives c) = None)
      /\ (forall i, step s (signal i) = None)).
Proof.
  intros Hrun. pose proof (in_step_run _ _ Hrun) as Hs.
  unfold in_step in Hs. split.
  - destruct (recv s); lia.
  - intros Hp. unfold Relay.step.
    destruct (recv s); simpl in Hp; try (by destruct Hp); by repeat split.
Qed.

(** X11. When the goroutine has ended, no call of Close() is left
    blocked: each call made so far has panicked in its send on the closed
    channel, but for the one call that returned if the goroutine ended by
    its return. Of two concurrent calls of Close(), one panics. *)
Theorem Close_is_single_use tr s why i c :
  run NewStream tr = Some s ->
  recv s = finished why ->
  callers s !! i = Some c ->
  settled why c.
Proof.
  intros Hrun Hfin Hi.
  destruct (calls_stand_run _ _ Hrun) as (_ & Hret & Hnone).
  unfold settled. destruct c.
  - by destruct (Hnone why Hfin i).
  - right. split; [done|].
    destruct (Hret i Hi) as [[k Hk]|Hk]; congruence.
  - by left.
Qed.

End more.

Section Listen.
Context {Chunk Reader Command error : Type}.
Variable chunk_Data : Chunk -> list Byte.byte.
Variable bytes_NewReader : list Byte.byte -> Reader.
Variable np : @stream.Parser Reader Command error.

Abbreviation Listen := (stream.Listen_case_chunk chunk_Data bytes_NewReader np).

Lemma run_deferred_close_source why k (s : Relay.t Chunk Command error) :
  chunks_closed (run_deferred_close why k s) = chunks_closed s.
Proof. unfold run_deferred_close. destruct k as [|[|k]]; by case_match. Qed.

Lemma orphaned_step s0 s l s' :
  chans_ok s -> orphaned s0 s -> Relay.step Listen s l = Some s' ->
  orphaned s0 s'.
Proof.
  unfold orphaned. intros Hok (Hcl & Hin & Herr & Hgot) Hl.
  relay_cases Hl Hpc; simpl; try done; try congruence;
    try (rewrite Hpc; by repeat split).
  - by rewrite Hgot.
  - rewrite run_deferred_close_source.
    destruct (run_deferred_close_frozen why k s) as (-> & -> & ->).
    repeat split; try done.
    destruct (recv_run_deferred_close why k s Hok Hpc) as [[-> _]|[-> _]];
      by destruct why.
Qed.

Lemma orphaned_run tr : forall s0 s s',
  chans_ok s -> orphaned s0 s -> Relay.run Listen s tr = Some s' ->
  orphaned s0 s'.
Proof.
  induction tr as [|l tr IH]; intros s0 s s' Hok Hs Hrun; simpl in Hrun.
  - by simplify_eq.
  - destruct (Relay.step Listen s l) as [s1|] eqn:Hl; [|done].
    apply (IH s0 s1); [by eapply chans_ok_step|by eapply orphaned_step|done].
Qed.

(** X12. NetStream.Listen cannot serve a closed chunk channel. Once the
    producer has closed it while Listen waits at its select, Listen never
    delivers anything again: whatever happens next, it is still at its
    select, or it has left its loop on a close signal, or it has received
    the nil chunk of the closed channel, on which chunk.Data panics, and
    has left its loop by that panic. That receive is enabled; when it is
    taken before any close signal the deferred func closes n.in, n.errs
    and n.closer once each, the goroutine ends by the panic, and the calls
    of Close() blocked in their send at that moment panic. *)
Theorem Listen_dies_with_its_source tr s :
  Relay.run Listen NewStream tr = Some s ->
  recv s = at_select -> chunks_closed s = true ->
  (forall tr' s', Relay.run Listen s tr' = Some s' -> orphaned s s')
  /\ exists s',
      Relay.run Listen s [zero_chunk; run_deferred; run_deferred; run_deferred]
      = Some s'
      /\ recv s' = finished panicked
      /\ (closed_once (ch_in s') /\ closed_once (ch_errs s')
          /\ closed_once (ch_closer s'))
      /\ got s' = got s ++ [None]
      /\ feed_in s' = feed_in s /\ feed_errs s' = feed_errs s
      /\ callers s' = wake_senders (callers s).
Proof.
  intros Hrun Hpc Hcl.
  pose proof (chans_ok_run _ _ _ Hrun) as Hok. split.
  - intros tr' s'. apply orphaned_run; [done|].
    unfold orphaned. by rewrite Hpc.
  - unfold chans_ok in Hok. rewrite Hpc in Hok. destruct Hok as (Hi & He & Hc).
    unfold untouched in *.
    eexists. split.
    + cbn [Relay.run]. unfold Relay.step at 1. rewrite Hpc, Hcl.
      unfold receive. simpl. rewrite Hi, He, Hc. simpl. reflexivity.
    + simpl. by repeat split.
Qed.

End Listen.

Section writing.
Context {Frame Chunk error W : Type}.
Variable writer : @writes.Writer Chunk error W.
Variable encode : Frame -> Go.ptr Chunk * option error.

(** X13. Stream.Write of package data, Stream.Send of package control and
    NetStream.WriteStatus do the same: when the frame cannot be encoded
    the error of the encoding is returned and the writer is not called;
    otherwise the chunk is written once and the result is the writer's.
    They return nil only if the encoding and the write both succeeded. *)
Theorem writes_agree f w :
  writes.Send writer encode f w = writes.Write writer encode f w
  /\ writes.WriteStatus writer encode f w = writes.Write writer encode f w
  /\ (forall err, (encode f).2 = Some err ->
                  writes.Write writer encode f w = (w, Some err))
  /\ ((encode f).2 = None ->
      writes.Write writer encode f w
      = writes.Writer_Write writer (encode f).1 w)
  /\ (forall w', writes.Write writer encode f w = (w', None) ->
                 (encode f).2 = None
                 /\ writes.Writer_Write writer (encode f).1 w = (w', None)).
Proof.
  unfold writes.Send, writes.Write, writes.WriteStatus.
  destruct (encode f) as [c [err|]]; simpl.
  - repeat split; try done. by intros ? [= <-].
  - destruct (writes.Writer_Write writer c w) as [w1 [err|]];
      repeat split; try done.
Qed.

End writing.

Lemma Close_returns_when_drained_take :
  (run sample.Recv NewStream takes.two_Closes = Some takes.after_two_Closes
   /\ callers takes.after_two_Closes !! 1 = Some handed_over)
  /\ got takes.after_two_Closes = [Some "ok1"]
  /\ feed_in takes.after_two_Closes = ["ok1"]
  /\ feed_errs takes.after_two_Closes = [].
Proof.
  assert (run sample.Recv NewStream takes.two_Closes = Some takes.after_two_Closes)
    as Hrun by (vm_compute; reflexivity).
  split; [by split|]. split; [reflexivity|].
  destruct (Close_returns_when_drained sample.Recv takes.two_Closes
              takes.after_two_Closes 1 Hrun eq_refl) as (Hin & Herr & _).
  split; [exact Hin|exact Herr].
Defined.

Lemma nothing_after_the_loop_take :
  (in_loop (recv sample.ended) = false
   /\ run sample.Recv sample.ended takes.afterwards = Some takes.after_the_end)
  /\ got takes.after_the_end = [Some "ok1"]
  /\ feed_in takes.after_the_end = ["ok1"]
  /\ feed_errs takes.after_the_end = [].
Proof.
  assert (run sample.Recv sample.ended takes.afterwards = Some takes.after_the_end)
    as Hrun by (vm_compute; reflexivity).
  split; [by split|].
  exact (nothing_after_the_loop sample.Recv sample.ended takes.afterwards
           takes.after_the_end eq_refl Hrun).
Defined.

Lemma relay_holds_one_value_take :
  run sample.Recv NewStream takes.unread = Some takes.with_unread
  /\ recv takes.with_unread = send_in "ok2"
  /\ length (got takes.with_unread) = S (delivered takes.with_unread)
  /\ (forall c, Relay.step sample.Recv takes.with_unread (chunk_arrives c) = None)
  /\ (forall i, Relay.step sample.Recv takes.with_unread (signal i) = None).
Proof.
  assert (run sample.Recv NewStream takes.unread = Some takes.with_unread)
    as Hrun by (vm_compute; reflexivity).
  split; [done|]. split; [reflexivity|].
  apply (proj2 (relay_holds_one_value sample.Recv takes.unread
                  takes.with_unread Hrun)).
  by left.
Defined.

Lemma Close_is_single_use_take :
  (run sample.Recv NewStream takes.two_Closes = Some takes.after_two_Closes
   /\ recv takes.after_two_Closes = finished returned
   /\ callers takes.after_two_Closes !! 0 = Some send_panicked)
  /\ settled returned send_panicked.
Proof.
  assert (run sample.Recv NewStream takes.two_Closes = Some takes.after_two_Closes)
    as Hrun by (vm_compute; reflexivity).
  split; [by repeat split|].
  exact (Close_is_single_use sample.Recv takes.two_Closes takes.after_two_Closes
           returned 0 send_panicked Hrun eq_refl eq_refl).
Defined.

Lemma Listen_dies_take :
  (Relay.run takes.Listen NewStream takes.source_gone = Some takes.with_source_gone
   /\ recv takes.with_source_gone = at_select
   /\ chunks_closed takes.with_source_gone = true
   /\ Relay.run takes.Listen takes.with_source_gone
        [signal 0; run_deferred; run_deferred; run_deferred]
      = Some takes.Listen_closed)
  /\ orphaned takes.with_source_gone takes.Listen_closed
  /\ exists s',
       Relay.run takes.Listen takes.with_source_gone
         [zero_chunk; run_deferred; run_deferred; run_deferred] = Some s'
       /\ recv s' = finished panicked
       /\ (closed_once (ch_in s') /\ closed_once (ch_errs s')
           /\ closed_once (ch_closer s'))
       /\ got s' = got takes.with_source_gone ++ [None]
       /\ feed_in s' = feed_in takes.with_source_gone
       /\ feed_errs s' = feed_errs takes.with_source_gone
       /\ callers s' = wake_senders (callers takes.with_source_gone).
Proof.
  assert (Relay.run takes.Listen NewStream takes.source_gone
          = Some takes.with_source_gone) as Hrun by (vm_compute; reflexivity).
  assert (Relay.run takes.Listen takes.with_source_gone
            [signal 0; run_deferred; run_deferred; run_deferred]
          = Some takes.Listen_closed) as Hrun' by (vm_compute; reflexivity).
  split; [by repeat split|].
  destruct (Listen_dies_with_its_source sample.chunk_Data id sample.command_parser
              takes.source_gone takes.with_source_gone Hrun eq_refl eq_refl)
    as [Hall Hone].
  split; [exact (Hall _ _ Hrun')|exact Hone].
Defined.

Lemma writes_agree_take :
  writes.Write takes.log_writer takes.Marshal "bad" ["sent"]
  = (["sent"], Some "cannot marshal bad")
  /\ writes.WriteStatus takes.log_writer takes.Marshal "big" ["sent"]
     = writes.Write takes.log_writer takes.Marshal "big" ["sent"].
Proof.
  destruct (writes_agree takes.log_writer takes.Marshal "bad" ["sent"])
    as (_ & _ & Herr & _).
  split; [exact (Herr _ eq_refl)|].
  exact (proj1 (proj2 (writes_agree takes.log_writer takes.Marshal "big" ["sent"]))).
Defined.

End StreamExtras.

Module ErrorExtras.
Import server.

Lemma prefix_app (sub s : string) :
  String.prefix sub s = true <-> exists b, s = sub +:+ b.
Proof.
  revert s. induction sub as [|a sub IH]; intros s.
  - split; [intros _; by exists s|by destruct s].
  - destruct s as [|a' s]; simpl.
    + split; [done|]. by intros [b ?].
    + destruct (Ascii.ascii_dec a a') as [->|Hne].
      * rewrite IH. split; intros [b Hb]; exists b.
        -- by rewrite Hb.
        -- by injection Hb.
      * split; [done|]. intros [b Hb]. by injection Hb as <- _.
Qed.

Lemma strings_Contains_eq (s sub : string) :
  strings_Contains s sub
  = if String.prefix sub s then true
    else match s with
         | EmptyString => false
         | String _ rest => strings_Contains rest sub
         end.
Proof. by destruct s. Qed.

Lemma strings_Contains_app (s sub : string) :
  strings_Contains s sub = true <-> exists a b, s = a +:+ sub +:+ b.
Proof.
  induction s as [|c s IH]; rewrite strings_Contains_eq.
  - destruct (String.prefix sub EmptyString) eqn:Hp.
    + split; [intros _|done]. apply prefix_app in Hp as [b Hb].
      exists EmptyString, b. exact Hb.
    + split; [done|]. intros ([|c a] & b & Hab); [|done].
      assert (String.prefix sub EmptyString = true); [|congruence].
      apply prefix_app. exists b. exact Hab.
  - destruct (String.prefix sub (String c s)) eqn:Hp.
    + split; [intros _|done]. apply prefix_app in Hp as [b Hb].
      exists EmptyString, b. exact Hb.
    + rewrite IH. split.
      * intros (a & b & ->). by exists (String c a), b.
      * intros ([|c' a] & b & Hab).
        -- assert (String.prefix sub (String c s) = true); [|congruence].
           apply prefix_app. exists b. exact Hab.
        -- simpl in Hab. injection Hab as -> ->. by exists a, b.
Qed.

(** X14. isNetCloseError holds of exactly the errors whose message has
    the text "use of closed network connection" somewhere inside, and
    calling it on a nil net.Error panics. *)
Theorem isNetCloseError_reads_the_message :
  (forall n,
      isNetCloseError (Some n) = Ret true
      <-> exists a b,
            net_msg n = a +:+ "use of closed network connection" +:+ b)
  /\ (forall n, isNetCloseError (Some n) <> Panic)
  /\ isNetCloseError None = Panic.
Proof.
  split; [|split]; try done.
  intros n. rewrite <- strings_Contains_app. unfold isNetCloseError. simpl.
  split; [by intros [= ->]|by intros ->].
Qed.

End ErrorExtras.

(** ** The server stopped through its release channel *)

Module ReleaseExtras.
Import server_release.

Implicit Types (x : sys) (l : label) (tr : list label) (p q : pc).

(** Every way [step x l = Some x'] can hold. *)
Ltac moves H :=
  match type of H with
  | step ?x ?l = Some _ =>
      destruct l; simpl in H;
      unfold advance, received, Close, server.TCPListener_Close, Go.close in H;
      repeat match type of H with
        | context [pool x !! ?i] =>
            destruct (pool x !! i) as [[]|] eqn:?; simpl in H
        | context [if ?b then _ else _] => destruct b eqn:?; simpl in H
        | context [match ?y with _ => _ end] => destruct y eqn:?; simpl in H
        end;
      try discriminate H; simplify_eq/=
  end.

Ltac at_index H :=
  apply list_lookup_insert_Some in H as [(-> & <- & _)|[_ H]].

Lemma polls_run_keeps (I : sys -> Prop) :
  (forall x l x', I x -> step x l = Some x' -> I x') ->
  forall tr x x', I x -> run x tr = Some x' -> I x'.
Proof.
  intros Hstep. induction tr as [|l tr IH]; intros x x' Hx Hrun; simpl in Hrun.
  - by simplify_eq.
  - destruct (step x l) as [x1|] eqn:Hl; [|done]. eauto.
Qed.

Lemma reported_is_not_timeout err :
  reported err = Ret (negb (is_timeout err)).
Proof. by destruct err. Qed.

Lemma Accept_got_in_loop r : in_loop (Accept_got r) = true.
Proof.
  destruct r as [conn|err]; [done|]. unfold Accept_got.
  rewrite reported_is_not_timeout. by destruct (is_timeout err).
Qed.

Lemma woken_lookup ps k :
  wake_senders ps !! k
  = (fun p => match p with Release_send => Release_panicked | _ => p end)
      <$> ps !! k.
Proof. unfold wake_senders. by rewrite list_lookup_fmap. Qed.

Lemma unreleased_step x l x' :
  unreleased x -> step x l = Some x' -> l <> calls server.Release_method ->
  unreleased x'.
Proof.
  intros [Hrel Hpool] Hl Hne. unfold unreleased.
  moves Hl.
  all: try match goal with
       | E : pool _ !! _ = Some ?p |- _ =>
           first [ by destruct (Hpool _ _ E) as [? ?] ]
       end.
  all: try match goal with
       | E : Go.closed (release (srv _)) = true |- _ => by rewrite Hrel in E
       end.
  all: split; [done|]; intros k p Hk.
  all: try at_index Hk; eauto.
  - apply lookup_app_Some in Hk as [Hk|[_ Hk]]; [eauto|].
    apply list_lookup_singleton_Some in Hk as [_ <-]. by destruct m.
  - pose proof (Accept_got_in_loop r). by destruct (Accept_got r).
Qed.

Lemma unreleased_run tr : forall x x',
  unreleased x -> calls server.Release_method ∉ tr ->
  run x tr = Some x' -> unreleased x'.
Proof.
  induction tr as [|l tr IH]; intros x x' Hx Hno Hrun; simpl in Hrun.
  - by simplify_eq.
  - apply not_elem_of_cons in Hno as [Hl Hno].
    destruct (step x l) as [x1|] eqn:Hstep; [|done].
    apply (IH x1); [|done|done]. by eapply unreleased_step.
Qed.

Lemma length_wake_senders ps : length (wake_senders ps) = length ps.
Proof. unfold wake_senders. by rewrite length_fmap. Qed.

(** An Accept that has left its loop stays out of it. *)
Lemma left_loop_stays x l x' i p :
  step x l = Some x' -> pool x !! i = Some p -> left_loop p = true ->
  exists p', pool x' !! i = Some p' /\ left_loop p' = true.
Proof.
  intros Hl Hi Hp.
  moves Hl;
    rewrite ?woken_lookup;
    try match goal with
        | |- context [<[?k := _]> _ !! i] =>
            destruct (decide (k = i)) as [->|?];
            [rewrite list_lookup_insert_eq
               by (rewrite ?length_insert, ?length_wake_senders;
                   by eapply lookup_lt_Some)
            |rewrite list_lookup_insert_ne by done]
        end;
    rewrite ?woken_lookup;
    try (simplify_eq/=; by eauto);
    try (rewrite Hi; simpl; destruct p; by eauto).
  - rewrite lookup_app_l by (by eapply lookup_lt_Some). eauto.
  - destruct (decide (j = i)) as [->|?]; [by simplify_eq/=|].
    rewrite list_lookup_insert_ne by done. eauto.
  - destruct (decide (j = i)) as [->|?]; [by simplify_eq/=|].
    rewrite list_lookup_insert_ne by done. eauto.
Qed.

(** A Release gets past its send only by a receive, of the select of
    an Accept or of a Release that was past its own send. *)
Lemma past_send_origin x l x' j p' :
  step x l = Some x' -> pool x' !! j = Some p' -> past_send p' = true ->
  (exists k p, pool x !! k = Some p /\ past_send p = true)
  \/ (exists i p, pool x' !! i = Some p /\ left_loop p = true).
Proof.
  intros Hl Hj Hp.
  moves Hl;
    try (at_index Hj; [try done|]);
    try (at_index Hj; [try done|]);
    try rewrite ?woken_lookup in Hj;
    try (by left; eauto).
  - apply lookup_app_Some in Hj as [Hj|[_ Hj]]; [left; eauto|].
    apply list_lookup_singleton_Some in Hj as [_ <-]. by destruct m.
  - right. exists i, (Accept_done why). split; [|done].
    apply list_lookup_insert_eq. rewrite length_wake_senders.
    by eapply lookup_lt_Some.
  - pose proof (Accept_got_in_loop r). by destruct (Accept_got r).
  - right. exists i, (Accept_deferred server.returned). split; [|done].
    apply list_lookup_insert_eq. rewrite length_insert.
    by eapply lookup_lt_Some.
Qed.

Lemma signal_seen_step x l x' :
  signal_seen x -> step x l = Some x' -> signal_seen x'.
Proof.
  intros Hx Hl (j & p' & Hj & Hp').
  destruct (past_send_origin _ _ _ _ _ Hl Hj Hp') as [Hpast|?]; [|done].
  destruct (Hx Hpast) as (i & p & Hi & Hp).
  destruct (left_loop_stays _ _ _ _ _ Hl Hi Hp) as (q & ? & ?). eauto.
Qed.

Lemma signal_seen_run sock tr x :
  run (boot sock) tr = Some x -> signal_seen x.
Proof.
  apply (polls_run_keeps signal_seen); [apply signal_seen_step|].
  intros (j & p & Hj & _). simpl in Hj. by rewrite lookup_nil in Hj.
Qed.

(** The lookups of a pool after a move, back in the pool before it. *)
Ltac look H :=
  repeat first
    [ apply list_lookup_insert_Some in H as [(? & ? & _)|[? H]]
    | rewrite woken_lookup in H;
      apply fmap_Some in H as (? & H & ?)
    | apply lookup_app_Some in H as [H|[_ H]]
    | apply list_lookup_singleton_Some in H as [_ ?] ];
  simplify_eq/=;
  repeat match goal with
    | E : _ = match ?y with Release_send => _ | _ => _ end |- _ =>
        destruct y; simplify_eq/=
    | E : match ?y with Release_send => _ | _ => _ end = _ |- _ =>
        destruct y; simplify_eq/=
    end.

Lemma Accept_got_not_left r : left_loop (Accept_got r) = false.
Proof. pose proof (Accept_got_in_loop r). by destruct (Accept_got r). Qed.

Lemma never_deferred_panicked_step x l x' :
  (forall i, pool x !! i <> Some (Accept_deferred server.panicked)) ->
  step x l = Some x' ->
  forall i, pool x' !! i <> Some (Accept_deferred server.panicked).
Proof.
  intros Hx Hl k Hk. moves Hl; look Hk; try done; try (by eapply Hx).
  - by destruct m.
  - pose proof (Accept_got_not_left r) as Hr. by rewrite H0 in Hr.
Qed.

(** A finished Accept stays finished, and one finishes only by its own
    deferred close. *)
Lemma Accept_done_stays x l x' i why :
  step x l = Some x' -> pool x !! i = Some (Accept_done why) ->
  pool x' !! i = Some (Accept_done why).
Proof.
  intros Hl Hi.
  moves Hl;
    try match goal with
        | |- <[?k := _]> _ !! i = _ =>
            rewrite list_lookup_insert_ne by congruence
        end;
    try match goal with
        | |- <[?k := _]> _ !! i = _ =>
            rewrite list_lookup_insert_ne by congruence
        end;
    rewrite ?woken_lookup, ?Hi; try done.
  by rewrite lookup_app_l by (by eapply lookup_lt_Some).
Qed.

Lemma Accept_done_origin x l x' j why :
  step x l = Some x' -> pool x' !! j = Some (Accept_done why) ->
  pool x !! j = Some (Accept_done why)
  \/ (exists why0, pool x !! j = Some (Accept_deferred why0)
      /\ (Go.closed (release (srv x)) = false /\ why = why0
          /\ Go.closed (release (srv x')) = true
          /\ Go.close_calls (release (srv x'))
             = S (Go.close_calls (release (srv x)))
          /\ (forall k, pool x' !! k <> Some Release_send)
          \/ Go.closed (release (srv x)) = true /\ why = server.panicked)).
Proof.
  intros Hl Hj. moves Hl; look Hj; eauto.
  - by destruct m.
  - right. eexists. split; [done|]. by right.
  - right. eexists. split; [done|]. left. repeat split.
    intros k Hk. look Hk.
  - pose proof (Accept_got_in_loop r) as Hr. by rewrite H0 in Hr.
Qed.

Lemma release_changes x l x' :
  step x l = Some x' ->
  release (srv x') = release (srv x)
  \/ (Go.closed (release (srv x)) = false
      /\ exists i why, pool x !! i = Some (Accept_deferred why)
                       /\ pool x' !! i = Some (Accept_done why)).
Proof.
  intros Hl. moves Hl; eauto.
  right. split; [done|]. exists i, why. split; [done|].
  apply list_lookup_insert_eq. rewrite length_wake_senders.
  by eapply lookup_lt_Some.
Qed.

(** One move finishes one Accept at most. *)
Lemma one_Accept_done_a_move x l x' j k why why' :
  step x l = Some x' ->
  pool x' !! j = Some (Accept_done why) ->
  pool x !! j <> Some (Accept_done why) ->
  pool x' !! k = Some (Accept_done why') ->
  pool x !! k <> Some (Accept_done why') ->
  k = j.
Proof.
  intros Hl Hj Hj0 Hk Hk0. moves Hl; look Hj; look Hk; try done.
  by destruct m.
Qed.

Lemma closed_by_one_step x l x' :
  closed_by_one x -> step x l = Some x' -> closed_by_one x'.
Proof.
  intros (Hopen & Hclosed & Hnever) Hl.
  pose proof (never_deferred_panicked_step _ _ _ Hnever Hl) as Hnever'.
  split; [|split; [|done]].
  - intros Hcl'. destruct (release_changes _ _ _ Hl) as [Hsame|[Hcl Hex]].
    + rewrite Hsame in *. destruct (Hopen Hcl') as [Hmake Hnone].
      split; [done|]. intros j why Hj.
      destruct (Accept_done_origin _ _ _ _ _ Hl Hj)
        as [Hj0|(why0 & Hj0 & [(_ & _ & Hcl2 & _)|[Hcl2 _]])].
      * by eapply Hnone.
      * rewrite Hsame in Hcl2. congruence.
      * congruence.
    + destruct Hex as (i & why & Hi & Hi').
      destruct (Accept_done_origin _ _ _ _ _ Hl Hi')
        as [Hj0|(why0 & Hj0 & [(_ & _ & Hcl2 & _)|[Hcl2 _]])]; congruence.
  - intros Hcl'. destruct (Go.closed (release (srv x))) eqn:Hcl.
    + destruct (Hclosed eq_refl) as (Hcalls & Hsend & i & Hi & Huniq).
      destruct (release_changes _ _ _ Hl) as [Hsame|[? _]]; [|congruence].
      rewrite Hsame. split; [done|]. split.
      * intros k Hk. revert Hk. clear -Hl Hsend Hcl.
        intros Hk. moves Hl; look Hk; try (by eapply Hsend); try congruence.
        -- by destruct m.
        -- pose proof (Accept_got_in_loop r) as Hr. by rewrite H0 in Hr.
      * exists i. split; [by eapply Accept_done_stays|].
        intros j Hj. apply Huniq.
        destruct (Accept_done_origin _ _ _ _ _ Hl Hj)
          as [Hj0|(why0 & Hj0 & [(? & _)|[_ ?]])]; [done|congruence|done].
    + destruct (Hopen eq_refl) as [Hmake Hnone].
      destruct (release_changes _ _ _ Hl) as [Hsame|[_ Hex]]; [congruence|].
      destruct Hex as (i & why & Hi & Hi').
      destruct (Accept_done_origin _ _ _ _ _ Hl Hi')
        as [Hj0|(why0 & Hj0 & [(_ & <- & _ & Hcalls & Hsend)|[? _]])];
        [by destruct (Hnone i why)| |congruence].
      assert (why = server.returned) as ->.
      { destruct why; [done|]. by destruct (Hnever i). }
      rewrite Hcalls, Hmake. split; [done|]. split; [done|].
      exists i. split; [done|]. intros j Hj.
      eapply one_Accept_done_a_move; eauto.
Qed.

Lemma closed_by_one_run sock tr x :
  run (boot sock) tr = Some x -> closed_by_one x.
Proof.
  apply (polls_run_keeps closed_by_one); [apply closed_by_one_step|].
  split; [|split]; simpl.
  - intros _. split; [done|]. intros i why. by rewrite lookup_nil.
  - done.
  - intros i. by rewrite lookup_nil.
Qed.

(** *** What is handed over *)

Section in_hand.
Context {A : Type} (h : pc -> list A).

Lemma owed_insert_perm (ps : list pc) i p p' :
  ps !! i = Some p ->
  h p ++ (<[i := p']> ps ≫= h) ≡ₚ h p' ++ (ps ≫= h).
Proof.
  revert i. induction ps as [|q ps IH]; intros [|i] Hi; try done.
  - simpl in Hi. simplify_eq. change (<[0:=p']> (p :: ps)) with (p' :: ps).
    rewrite !bind_cons. apply Permutation_app_swap_app.
  - change (<[S i:=p']> (q :: ps)) with (q :: <[i:=p']> ps).
    rewrite !bind_cons.
    rewrite (Permutation_app_swap_app (h p) (h q)).
    rewrite (IH i Hi). apply Permutation_app_swap_app.
Qed.

Lemma owed_insert_same (ps : list pc) i p p' :
  ps !! i = Some p -> h p = [] -> h p' = [] ->
  <[i := p']> ps ≫= h ≡ₚ ps ≫= h.
Proof.
  intros Hi Hp Hp'. pose proof (owed_insert_perm ps i p p' Hi) as Hperm.
  by rewrite Hp, Hp' in Hperm.
Qed.

Lemma owed_wake_senders (ps : list pc) :
  h Release_send = h Release_panicked -> wake_senders ps ≫= h = ps ≫= h.
Proof.
  intros Hh. induction ps as [|q ps IH]; [done|].
  change (wake_senders (q :: ps))
    with ((match q with Release_send => Release_panicked | _ => q end)
          :: wake_senders ps).
  rewrite !bind_cons, IH. f_equal. by destruct q.
Qed.

Lemma owed_move (ps : list pc) i p p' (feed feed' new : list A) :
  ps !! i = Some p ->
  feed' ++ h p' ≡ₚ feed ++ h p ++ new ->
  feed' ++ (<[i := p']> ps ≫= h) ≡ₚ (feed ++ ps ≫= h) ++ new.
Proof.
  intros Hi Hfeed. apply (Permutation_app_inv_l (h p)).
  rewrite (Permutation_app_swap_app (h p) feed').
  rewrite (owed_insert_perm ps i p p' Hi).
  rewrite (app_assoc feed'), Hfeed.
  rewrite <- !app_assoc.
  rewrite (Permutation_app_swap_app (h p) feed).
  do 2 f_equiv. apply Permutation_app_comm.
Qed.

End in_hand.

Lemma handed_step x l x' :
  step x l = Some x' ->
  feed_clients x' ++ owed_clients x'
  ≡ₚ (feed_clients x ++ owed_clients x)
      ++ (server.client_New <$> option_list (accepted_conn l))
  /\ feed_errs x' ++ owed_errors x'
     ≡ₚ (feed_errs x ++ owed_errors x)
         ++ filter (fun err => is_timeout err = false)
              (option_list (accept_error l)).
Proof.
  unfold owed_clients, owed_errors. intros Hl.
  moves Hl; split;
    try (eapply owed_move; [eassumption|simpl; by rewrite ?app_nil_r]);
    try (by rewrite ?app_nil_r).
  - rewrite bind_app, app_nil_r. destruct m; simpl; by rewrite ?app_nil_r.
  - rewrite bind_app. destruct m; simpl; by rewrite ?app_nil_r.
  - rewrite <- (owed_wake_senders clients_in_hand (pool x)) by done.
    eapply owed_move; [by rewrite woken_lookup, Heqo|done].
  - rewrite <- (owed_wake_senders errors_in_hand (pool x)) by done.
    eapply owed_move; [by rewrite woken_lookup, Heqo|done].
  - eapply owed_move; [eassumption|]. destruct r as [conn|err]; simpl.
    + by rewrite ?app_nil_r.
    + unfold Accept_got. rewrite reported_is_not_timeout.
      by destruct (is_timeout err).
  - eapply owed_move; [eassumption|]. destruct r as [conn|err]; simpl.
    + by rewrite ?app_nil_r.
    + unfold Accept_got. rewrite reported_is_not_timeout.
      rewrite filter_cons, filter_nil.
      by destruct (is_timeout err).
  - assert (i <> j) by congruence.
    rewrite <- (owed_insert_same clients_in_hand (pool x) j _ Release_recv Heqo)
      by done.
    eapply owed_move; [by rewrite list_lookup_insert_ne|done].
  - assert (i <> j) by congruence.
    rewrite <- (owed_insert_same errors_in_hand (pool x) j _ Release_recv Heqo)
      by done.
    eapply owed_move; [by rewrite list_lookup_insert_ne|done].
  - assert (i <> j) by congruence.
    rewrite <- (owed_insert_same clients_in_hand (pool x) j _ Release_recv Heqo)
      by done.
    eapply owed_move; [by rewrite list_lookup_insert_ne|done].
  - assert (i <> j) by congruence.
    rewrite <- (owed_insert_same errors_in_hand (pool x) j _ Release_recv Heqo)
      by done.
    eapply owed_move; [by rewrite list_lookup_insert_ne|done].
Qed.

Lemma handed_run tr : forall x x',
  run x tr = Some x' ->
  feed_clients x' ++ owed_clients x'
  ≡ₚ (feed_clients x ++ owed_clients x)
      ++ (server.client_New <$> omap accepted_conn tr)
  /\ feed_errs x' ++ owed_errors x'
     ≡ₚ (feed_errs x ++ owed_errors x)
         ++ filter (fun err => is_timeout err = false) (omap accept_error tr).
Proof.
  induction tr as [|l tr IH]; intros x x' Hrun; simpl in Hrun.
  - simplify_eq. simpl. by rewrite !app_nil_r.
  - destruct (step x l) as [x1|] eqn:Hl; [|done].
    destruct (handed_step _ _ _ Hl) as [Hc He].
    destruct (IH _ _ Hrun) as [Hc' He'].
    change (l :: tr) with ([l] ++ tr). rewrite !omap_app, fmap_app, filter_app.
    rewrite Hc', He', Hc, He. rewrite <- !app_assoc.
    split; do 3 f_equiv; simpl; by destruct (_ l).
Qed.

(** *** The properties *)

(** X15. Release does not return before an Accept has left its loop:
    its send on s.release is received only by the select of an Accept,
    which then returns, or by a Release whose own send was received
    before. With no Accept at all, no call of Release ever returns. *)
Theorem Release_returns_after_Accept_left sock tr x j p :
  run (boot sock) tr = Some x ->
  pool x !! j = Some p -> past_send p = true ->
  exists i q, pool x !! i = Some q /\ left_loop q = true.
Proof.
  intros Hrun Hj Hp. apply (signal_seen_run _ _ _ Hrun). eauto.
Qed.

Lemma Release_returns_poll :
  (run (boot sample.listener) polls.two_Releases = Some polls.after_two_Releases
   /\ pool polls.after_two_Releases !! 1
      = Some (Release_done (socket (srv polls.after_two_Releases))))
  /\ exists i q, pool polls.after_two_Releases !! i = Some q
                 /\ left_loop q = true.
Proof.
  assert (run (boot sample.listener) polls.two_Releases
          = Some polls.after_two_Releases) as Hrun by (vm_compute; reflexivity).
  split; [by split|].
  exact (Release_returns_after_Accept_left sample.listener polls.two_Releases
           polls.after_two_Releases 1 _ Hrun eq_refl eq_refl).
Defined.

(** X16. Close does not stop Accept: it only closes the listener. While
    nobody calls Release, whatever else is called and whatever the accept
    calls return, every goroutine of Accept is still in its loop and
    s.release is as NewSocket made it. *)
Theorem Close_does_not_stop_Accept sock tr x i p :
  calls server.Release_method ∉ tr ->
  run (boot sock) tr = Some x ->
  pool x !! i = Some p ->
  left_loop p = false /\ release (srv x) = Go.make.
Proof.
  intros Hno Hrun Hi.
  destruct (unreleased_run tr (boot sock) x) as [Hrel Hpool]; [|done|done|].
  - split; [done|]. intros k q. simpl. by rewrite lookup_nil.
  - split; [|done]. by destruct (Hpool i p Hi).
Qed.

Lemma Close_does_not_stop_poll :
  ((calls server.Release_method ∉ polls.Close_only)
   /\ run (boot sample.listener) polls.Close_only = Some polls.after_Close_only
   /\ pool polls.after_Close_only !! 0
      = Some (Accept_send_err sample.use_of_closed)
   /\ pool polls.after_Close_only !! 1 = Some (Close_done None))
  /\ left_loop (Accept_send_err sample.use_of_closed) = false
  /\ release (srv polls.after_Close_only) = Go.make.
Proof.
  assert (calls server.Release_method ∉ polls.Close_only) as Hno.
  { unfold polls.Close_only. rewrite !not_elem_of_cons.
    repeat split; try discriminate. apply not_elem_of_nil. }
  assert (run (boot sample.listener) polls.Close_only
          = Some polls.after_Close_only) as Hrun by (vm_compute; reflexivity).
  split; [by repeat split|].
  exact (Close_does_not_stop_Accept sample.listener polls.Close_only
           polls.after_Close_only 0 _ Hno Hrun eq_refl).
Defined.

(** X17. s.release is closed once, by the first Accept to end, which ends
    by its return; from then on no goroutine is blocked sending on it (a
    Release blocked at that moment has panicked), and every other Accept
    that ends does so by the panic of its deferred close. *)
Theorem release_is_closed_once sock tr x i why :
  run (boot sock) tr = Some x ->
  pool x !! i = Some (Accept_done why) ->
  (Go.closed (release (srv x)) = true /\ Go.close_calls (release (srv x)) = 1)
  /\ (forall j, pool x !! j <> Some Release_send)
  /\ exists i0, pool x !! i0 = Some (Accept_done server.returned)
                /\ forall j why', pool x !! j = Some (Accept_done why') ->
                                  j <> i0 -> why' = server.panicked.
Proof.
  intros Hrun Hi. destruct (closed_by_one_run _ _ _ Hrun) as (Hopen & Hclosed & _).
  destruct (Go.closed (release (srv x))) eqn:Hcl.
  - destruct (Hclosed eq_refl) as (Hcalls & Hsend & i0 & Hi0 & Huniq).
    split; [done|]. split; [done|]. exists i0. split; [done|].
    intros j [|] Hj Hne; [|done]. by destruct (Hne (Huniq j Hj)).
  - destruct (Hopen eq_refl) as [_ Hnone]. by destruct (Hnone i why).
Qed.

Lemma release_is_closed_once_poll :
  (run (boot sample.listener) polls.two_Accepts = Some polls.after_two_Accepts
   /\ pool polls.after_two_Accepts
      = [Accept_done server.returned; Accept_done server.panicked;
         Release_done (socket (srv polls.after_two_Accepts))])
  /\ Go.closed (release (srv polls.after_two_Accepts)) = true
  /\ Go.close_calls (release (srv polls.after_two_Accepts)) = 1.
Proof.
  assert (run (boot sample.listener) polls.two_Accepts
          = Some polls.after_two_Accepts) as Hrun by (vm_compute; reflexivity).
  split; [by split|].
  exact (proj1 (release_is_closed_once sample.listener polls.two_Accepts
                  polls.after_two_Accepts 1 server.panicked Hrun eq_refl)).
Defined.

(** X18. Every result of l.Accept() is handed over once: the clients
    received from Clients(), with those Accept goroutines are blocked
    sending, are the connections accepted, each wrapped by client.New;
    the errors received from Errs(), with those still being sent, are the
    errors accepted that are not timeouts, as they are. Timeouts are
    dropped. With several goroutines in Accept the order may differ. *)
Theorem accept_results_are_handed_over sock tr x :
  run (boot sock) tr = Some x ->
  feed_clients x ++ owed_clients x
  ≡ₚ server.client_New <$> omap accepted_conn tr
  /\ feed_errs x ++ owed_errors x
     ≡ₚ filter (fun err => is_timeout err = false) (omap accept_error tr).
Proof.
  intros Hrun. destruct (handed_run tr (boot sock) x Hrun) as [Hc He].
  by rewrite Hc, He.
Qed.

Lemma accept_results_poll :
  run (boot sample.listener) polls.crossed = Some polls.after_crossed
  /\ [server.client_New scenes.conn2; server.client_New scenes.conn1]
     ≡ₚ [server.client_New scenes.conn1; server.client_New scenes.conn2]
  /\ [sample.broken] ≡ₚ [sample.broken].
Proof.
  assert (run (boot sample.listener) polls.crossed = Some polls.after_crossed)
    as Hrun by (vm_compute; reflexivity).
  split; [done|].
  exact (accept_results_are_handed_over sample.listener polls.crossed
           polls.after_crossed Hrun).
Defined.

End ReleaseExtras.
